(** * bed: key-sequence resolver and viewport/cursor engine

    A shallow embedding of [core/key.go] and [core/window.go] and the
    properties of the resolver ([KeyManager.Press]) and of the navigation
    operations of [Window].

    Conventions.
    - Go's [int64] is a [Z] together with the two's-complement wrap-around
      of every arithmetic operation ([Int64.wrap]).  Go's [/] and [%]
      truncate toward zero: they are [Z.quot] and [Z.rem].  Go panics on a
      division by zero; every statement below assumes [0 < width], so that
      branch is never reached (the embedding yields [Z.quot]'s 0 there).
    - A [Key] is a Go string, that is a sequence of bytes: [string].
    - Methods with a pointer receiver take the receiver's value and return
      the updated value. *)

From Stdlib Require Import ZArith List String Ascii Bool Lia.
From Stdlib Require Strings.Byte.
Import ListNotations.
Local Open Scope Z_scope.

(** ** 64-bit signed integers *)

Module Int64.

Definition min_int64 : Z := -9223372036854775808.
Definition max_int64 : Z := 9223372036854775807.

(** The range of [int64]. *)
Definition fits (z : Z) : Prop := min_int64 <= z <= max_int64.

(** Two's-complement reduction into the [int64] range. *)
Definition wrap (z : Z) : Z := (z + 2 ^ 63) mod 2 ^ 64 - 2 ^ 63.

Definition add (a b : Z) : Z := wrap (a + b).
Definition sub (a b : Z) : Z := wrap (a - b).
Definition mul (a b : Z) : Z := wrap (a * b).
Definition quo (a b : Z) : Z := wrap (Z.quot a b).
Definition rem (a b : Z) : Z := Z.rem a b.

End Int64.

Declare Scope int64_scope.
Delimit Scope int64_scope with i64.
Infix "+^" := Int64.add (at level 50, left associativity) : int64_scope.
Infix "-^" := Int64.sub (at level 50, left associativity) : int64_scope.
Infix "*^" := Int64.mul (at level 40, left associativity) : int64_scope.
Infix "/^" := Int64.quo (at level 40, left associativity) : int64_scope.
Infix "%^" := Int64.rem (at level 40, left associativity) : int64_scope.
Local Open Scope int64_scope.

(** Modelled from the spec: [util.MinInt64] and [util.MaxInt64] of the
    imported [util] package, whose source is not part of [core]; the
    navigation table describes every use of them as clamping, that is the
    smaller and the larger of the two arguments. *)
Definition MinInt64 (x y : Z) : Z := if x <? y then x else y.
Definition MaxInt64 (x y : Z) : Z := if x <? y then y else x.

(** ** strconv.ParseInt(s, 10, 64)

    The standard library function as far as [core] uses it: base 10, bit
    size 64, an optional sign, digits only.  The result is the value and
    whether an error was reported; on a syntax error the value is 0, on a
    range error it is the nearest bound of [int64]. *)

Definition digitVal (c : ascii) : option Z :=
  let n := Z.of_N (N_of_ascii c) in
  if (48 <=? n) && (n <=? 57) then Some (n - 48) else None.

Fixpoint parseDigits (acc : Z) (s : string) : option Z :=
  match s with
  | EmptyString => Some acc
  | String c s' =>
      match digitVal c with
      | Some d => parseDigits (acc * 10 + d) s'
      | None => None
      end
  end.

Definition ParseInt (s : string) : Z * bool :=
  match s with
  | EmptyString => (0, false)
  | String c s' =>
      let neg := Ascii.eqb c "-" in
      let body := if neg || Ascii.eqb c "+" then s' else s in
      match body with
      | EmptyString => (0, false)
      | _ =>
          match parseDigits 0 body with
          | None => (0, false)
          | Some un =>
              if negb neg && (Int64.max_int64 <? un) then (Int64.max_int64, false)
              else if neg && (- Int64.min_int64 <? un) then (Int64.min_int64, false)
              else (if neg then - un else un, true)
          end
      end
  end.

(** ** core/key.go *)

(** [Key] represents one keyboard stroke. *)
Definition Key : Type := string.

(** Modelled from the spec: the event identifiers of [core], whose
    declaration ([EventType] and its constants) is not among the sources;
    one constructor per identifier that [defaultKeyManagers] registers, and
    [EventNop] for the absence of an event. *)
Inductive EventType : Type :=
  | EventNop | EventQuit
  | EventCursorUp | EventCursorDown | EventCursorLeft | EventCursorRight
  | EventCursorPrev | EventCursorNext | EventCursorHead | EventCursorEnd
  | EventScrollUp | EventScrollDown
  | EventPageUp | EventPageDown | EventPageUpHalf | EventPageDownHalf
  | EventPageTop | EventPageEnd | EventJumpTo | EventJumpBack
  | EventDeleteByte | EventDeletePrevByte | EventIncrement | EventDecrement
  | EventStartInsert | EventStartInsertHead | EventStartAppend
  | EventStartAppendEnd | EventStartReplaceByte | EventStartReplace
  | EventExitInsert | EventBackspace | EventDelete
  | EventStartCmdline | EventSpaceCmdline | EventBackspaceCmdline
  | EventDeleteCmdline | EventDeleteWordCmdline | EventClearToHeadCmdline
  | EventClearCmdline | EventExitCmdline | EventExecuteCmdline.

(** Modelled from the spec: the [Event] struct, of which [Press] sets the
    fields [Type] and [Count]. *)
Record Event : Type := mkEvent { Type_ : EventType; Count : Z }.

(** Modelled from the spec: the four interaction modes ([Mode] and its
    constants are declared outside the given sources). *)
Inductive Mode : Type := ModeNormal | ModeInsert | ModeReplace | ModeCmdline.

Record keyEvent : Type := mkKeyEvent { ke_keys : list Key; ke_event : EventType }.

Inductive cmpResult : Type := keysEq | keysPending | keysNeq.

(** The [range] loop of [keyEvent.cmp], entered at index [i] with [kes] the
    keys of the binding from index [i] on. *)
Fixpoint cmpFrom (i : nat) (kes ks : list Key) : cmpResult :=
  match kes with
  | [] => keysEq
  | k :: kes' =>
      if (List.length ks <=? i)%nat then keysPending
      else if negb (String.eqb k (nth i ks EmptyString)) then keysNeq
      else cmpFrom (S i) kes' ks
  end.

Definition cmp (ke : keyEvent) (ks : list Key) : cmpResult :=
  if (List.length (ke_keys ke) <? List.length ks)%nat then keysNeq
  else cmpFrom 0 (ke_keys ke) ks.

(** [KeyManager] holds the key mappings and the current key sequence. *)
Record KeyManager : Type := mkKeyManager {
  km_keys : list Key;
  km_keyEvents : list keyEvent;
  km_count : bool
}.

Definition NewKeyManager (count : bool) : KeyManager :=
  {| km_keys := []; km_keyEvents := []; km_count := count |}.

Definition Register (km : KeyManager) (event : EventType) (keys : list Key) : KeyManager :=
  {| km_keys := km_keys km;
     km_keyEvents := km_keyEvents km ++ [mkKeyEvent keys event];
     km_count := km_count km |}.

Definition setKeys (km : KeyManager) (keys : list Key) : KeyManager :=
  {| km_keys := keys; km_keyEvents := km_keyEvents km; km_count := km_count km |}.

(** The condition under which [Press] adds the key at index [j] of the
    window to [numStr]. *)
Definition isCountKey (j : nat) (k : Key) : bool :=
  match k with
  | String c EmptyString =>
      let b := Z.of_N (N_of_ascii c) in
      ((49 <=? b) && (b <=? 57)) || ((b =? 48) && (0 <? j)%nat)
  | _ => false
  end.

(** [numStr] as the loop over the window builds it, from index [j] on. *)
Fixpoint numStrFrom (j : nat) (keys : list Key) : string :=
  match keys with
  | [] => EmptyString
  | k :: keys' =>
      if isCountKey j k then (k ++ numStrFrom (S j) keys')%string else EmptyString
  end.

(** The loop over [km.keyEvents] for one window: [Some] of the event that
    [Press] returns from inside the loop, and [None] when the loop ends. *)
Fixpoint rangeKeyEvents (kes : list keyEvent) (keys : list Key) (count : Z)
  : option (bool * Event) :=
  match kes with
  | [] => None
  | ke :: kes' =>
      match cmp ke keys with
      | keysPending => Some (false, mkEvent EventNop 0)
      | keysEq => Some (true, mkEvent (ke_event ke) count)
      | keysNeq => rangeKeyEvents kes' keys count
      end
  end.

(** The loop [for i := 0; i < len(km.keys); i++] of [Press], entered at
    index [i] with [n = len(km.keys) - i] iterations left.  The boolean of
    [rangeKeyEvents] tells whether the branch taken sets [km.keys = nil]. *)
Fixpoint pressLoop (km : KeyManager) (n i : nat) : KeyManager * Event :=
  match n with
  | O => (setKeys km [], mkEvent EventNop 0)
  | S n' =>
      let keys := skipn i (km_keys km) in
      let '(keys, count) :=
        if km_count km then
          let numStr := numStrFrom 0 keys in
          (skipn (String.length numStr) keys, fst (ParseInt numStr))
        else (keys, 0) in
      match rangeKeyEvents (km_keyEvents km) keys count with
      | Some (true, ev) => (setKeys km [], ev)
      | Some (false, ev) => (km, ev)
      | None => pressLoop km n' (S i)
      end
  end.

(** [Press] checks the new key down event. *)
Definition Press (km : KeyManager) (k : Key) : KeyManager * Event :=
  let km := setKeys km (km_keys km ++ [k]) in
  pressLoop km (List.length (km_keys km)) 0.

(** *** Key managers behind pointers

    [NewKeyManager] returns a pointer and [defaultKeyManagers] a map from
    modes to pointers, so that two modes may share one key manager.  The
    heap is the list of the key managers allocated so far and a pointer is
    an index into it. *)

Definition ptr : Type := nat.
Definition Heap : Type := list KeyManager.

Definition alloc (h : Heap) (km : KeyManager) : Heap * ptr :=
  (h ++ [km], List.length h).

Definition load (h : Heap) (p : ptr) : option KeyManager := nth_error h p.

Fixpoint store (h : Heap) (p : ptr) (km : KeyManager) : Heap :=
  match h, p with
  | [], _ => []
  | _ :: h', O => km :: h'
  | x :: h', S p' => x :: store h' p' km
  end.

Definition RegisterAt (h : Heap) (p : ptr) (event : EventType) (keys : list Key) : Heap :=
  match load h p with
  | Some km => store h p (Register km event keys)
  | None => h
  end.

Definition PressAt (h : Heap) (p : ptr) (k : Key) : Heap * Event :=
  match load h p with
  | Some km => let '(km', ev) := Press km k in (store h p km', ev)
  | None => (h, mkEvent EventNop 0)
  end.

(** [map[Mode]*KeyManager] *)
Definition KeyManagers : Type := Mode -> option ptr.

Definition Mode_eqb (a b : Mode) : bool :=
  match a, b with
  | ModeNormal, ModeNormal | ModeInsert, ModeInsert
  | ModeReplace, ModeReplace | ModeCmdline, ModeCmdline => true
  | _, _ => false
  end.

Definition setMode (kms : KeyManagers) (m : Mode) (p : ptr) : KeyManagers :=
  fun m' => if Mode_eqb m m' then Some p else kms m'.

Local Open Scope string_scope.

Definition defaultKeyManagers (h : Heap) : Heap * KeyManagers :=
  let kms : KeyManagers := fun _ => None in
  let '(h, km) := alloc h (NewKeyManager true) in
  let h := RegisterAt h km EventQuit ["Z"; "Q"] in
  let h := RegisterAt h km EventCursorUp ["up"] in
  let h := RegisterAt h km EventCursorDown ["down"] in
  let h := RegisterAt h km EventCursorLeft ["left"] in
  let h := RegisterAt h km EventCursorRight ["right"] in
  let h := RegisterAt h km EventPageUp ["pgup"] in
  let h := RegisterAt h km EventPageDown ["pgdn"] in
  let h := RegisterAt h km EventPageTop ["home"] in
  let h := RegisterAt h km EventPageEnd ["end"] in
  let h := RegisterAt h km EventCursorUp ["k"] in
  let h := RegisterAt h km EventCursorDown ["j"] in
  let h := RegisterAt h km EventCursorLeft ["h"] in
  let h := RegisterAt h km EventCursorRight ["l"] in
  let h := RegisterAt h km EventCursorPrev ["b"] in
  let h := RegisterAt h km EventCursorNext ["w"] in
  let h := RegisterAt h km EventCursorHead ["0"] in
  let h := RegisterAt h km EventCursorHead ["^"] in
  let h := RegisterAt h km EventCursorEnd ["$"] in
  let h := RegisterAt h km EventScrollUp ["c-y"] in
  let h := RegisterAt h km EventScrollDown ["c-e"] in
  let h := RegisterAt h km EventPageUp ["c-b"] in
  let h := RegisterAt h km EventPageDown ["c-f"] in
  let h := RegisterAt h km EventPageUpHalf ["c-u"] in
  let h := RegisterAt h km EventPageDownHalf ["c-d"] in
  let h := RegisterAt h km EventPageTop ["g"; "g"] in
  let h := RegisterAt h km EventPageEnd ["G"] in
  let h := RegisterAt h km EventJumpTo ["c-]"] in
  let h := RegisterAt h km EventJumpBack ["c-t"] in
  let h := RegisterAt h km EventDeleteByte ["x"] in
  let h := RegisterAt h km EventDeletePrevByte ["X"] in
  let h := RegisterAt h km EventIncrement ["c-a"] in
  let h := RegisterAt h km EventIncrement ["+"] in
  let h := RegisterAt h km EventDecrement ["c-x"] in
  let h := RegisterAt h km EventDecrement ["-"] in
  let h := RegisterAt h km EventStartInsert ["i"] in
  let h := RegisterAt h km EventStartInsertHead ["I"] in
  let h := RegisterAt h km EventStartAppend ["a"] in
  let h := RegisterAt h km EventStartAppendEnd ["A"] in
  let h := RegisterAt h km EventStartReplaceByte ["r"] in
  let h := RegisterAt h km EventStartReplace ["R"] in
  let h := RegisterAt h km EventStartCmdline [":"] in
  let kms := setMode kms ModeNormal km in
  let '(h, km) := alloc h (NewKeyManager false) in
  let h := RegisterAt h km EventExitInsert ["escape"] in
  let h := RegisterAt h km EventExitInsert ["c-c"] in
  let h := RegisterAt h km EventCursorUp ["up"] in
  let h := RegisterAt h km EventCursorDown ["down"] in
  let h := RegisterAt h km EventCursorLeft ["left"] in
  let h := RegisterAt h km EventCursorRight ["right"] in
  let h := RegisterAt h km EventPageUp ["pgup"] in
  let h := RegisterAt h km EventPageDown ["pgdn"] in
  let h := RegisterAt h km EventPageTop ["home"] in
  let h := RegisterAt h km EventPageEnd ["end"] in
  let h := RegisterAt h km EventBackspace ["backspace"] in
  let h := RegisterAt h km EventBackspace ["backspace2"] in
  let h := RegisterAt h km EventDelete ["delete"] in
  let kms := setMode kms ModeInsert km in
  let kms := setMode kms ModeReplace km in
  let '(h, km) := alloc h (NewKeyManager false) in
  let h := RegisterAt h km EventSpaceCmdline ["space"] in
  let h := RegisterAt h km EventCursorLeft ["left"] in
  let h := RegisterAt h km EventCursorLeft ["c-b"] in
  let h := RegisterAt h km EventCursorRight ["right"] in
  let h := RegisterAt h km EventCursorRight ["c-f"] in
  let h := RegisterAt h km EventCursorHead ["home"] in
  let h := RegisterAt h km EventCursorHead ["c-a"] in
  let h := RegisterAt h km EventCursorEnd ["end"] in
  let h := RegisterAt h km EventCursorEnd ["c-e"] in
  let h := RegisterAt h km EventBackspaceCmdline ["c-h"] in
  let h := RegisterAt h km EventBackspaceCmdline ["backspace"] in
  let h := RegisterAt h km EventBackspaceCmdline ["backspace2"] in
  let h := RegisterAt h km EventDeleteCmdline ["delete"] in
  let h := RegisterAt h km EventDeleteWordCmdline ["c-w"] in
  let h := RegisterAt h km EventClearToHeadCmdline ["c-u"] in
  let h := RegisterAt h km EventClearCmdline ["c-k"] in
  let h := RegisterAt h km EventExitCmdline ["escape"] in
  let h := RegisterAt h km EventExitCmdline ["c-c"] in
  let h := RegisterAt h km EventExecuteCmdline ["enter"] in
  let h := RegisterAt h km EventExecuteCmdline ["c-j"] in
  let h := RegisterAt h km EventExecuteCmdline ["c-m"] in
  let kms := setMode kms ModeCmdline km in
  (h, kms).

Local Close Scope string_scope.

(** Pressing a sequence of keys, one after the other, collecting the
    events. *)
Fixpoint pressAll (km : KeyManager) (ks : list Key) : KeyManager * list Event :=
  match ks with
  | [] => (km, [])
  | k :: ks' =>
      let '(km1, ev) := Press km k in
      let '(km2, evs) := pressAll km1 ks' in
      (km2, ev :: evs)
  end.

Fixpoint pressAllAt (h : Heap) (p : ptr) (ks : list Key) : Heap * list Event :=
  match ks with
  | [] => (h, [])
  | k :: ks' =>
      let '(h1, ev) := PressAt h p k in
      let '(h2, evs) := pressAllAt h1 p ks' in
      (h2, ev :: evs)
  end.

(** The key managers of the default registry, as values. *)
Definition defaultHeap : Heap := fst (defaultKeyManagers []).
Definition defaultModes : KeyManagers := snd (defaultKeyManagers []).

Definition managerOf (h : Heap) (kms : KeyManagers) (m : Mode) : option KeyManager :=
  match kms m with
  | Some p => load h p
  | None => None
  end.

Definition normalKM : KeyManager :=
  match managerOf defaultHeap defaultModes ModeNormal with
  | Some km => km
  | None => NewKeyManager true
  end.

(** ** core/window.go *)

Abbreviation byte := Init.Byte.byte.
Abbreviation x00 := Init.Byte.x00.

(** Modelled from the spec: the byte-access collaborator [buffer.Buffer]
    of the imported [buffer] package, of which [Window] uses [Seek] and
    [Read].  [buf_seek pos] tells whether [Seek(pos, io.SeekStart)]
    succeeds; [buf_read pos n] is the result of a [Read] into a slice of [n]
    bytes after a seek to [pos]: the bytes read (with a nil error or
    [io.EOF]), or [None] for any other error. *)
Record Buffer : Type := mkBuffer {
  buf_seek : Z -> bool;
  buf_read : Z -> nat -> option (list byte)
}.

(** A buffer over the bytes [data] whose reads and seeks never fail. *)
Definition bufferOf (data : list byte) : Buffer :=
  {| buf_seek := fun _ => true;
     buf_read := fun pos n =>
       if pos <? 0 then Some [] else Some (firstn n (skipn (Z.to_nat pos) data)) |}.

(** A buffer whose reads fail. *)
Definition brokenBuffer : Buffer :=
  {| buf_seek := fun _ => true; buf_read := fun _ _ => None |}.

Record position : Type := mkPosition { p_cursor : Z; p_offset : Z }.

(** [Window] represents an editor window (the fields [name] and [basename]
    play no part in navigation and are left out; the fields carry the
    prefix [w_]). *)
Record Window : Type := mkWindow {
  w_buffer : Buffer;
  w_height : Z;
  w_width : Z;
  w_offset : Z;
  w_cursor : Z;
  w_length : Z;
  w_stack : list position;
  w_mode : Mode
}.

Definition setCursor (w : Window) (c : Z) : Window :=
  mkWindow (w_buffer w) (w_height w) (w_width w) (w_offset w) c
           (w_length w) (w_stack w) (w_mode w).

Definition setOffset (w : Window) (o : Z) : Window :=
  mkWindow (w_buffer w) (w_height w) (w_width w) o (w_cursor w)
           (w_length w) (w_stack w) (w_mode w).

Definition setStack (w : Window) (st : list position) : Window :=
  mkWindow (w_buffer w) (w_height w) (w_width w) (w_offset w) (w_cursor w)
           (w_length w) st (w_mode w).

Definition setMode_ (w : Window) (m : Mode) : Window :=
  mkWindow (w_buffer w) (w_height w) (w_width w) (w_offset w) (w_cursor w)
           (w_length w) (w_stack w) m.

(** [readBytes]: the number of bytes read and the slice of [len] bytes,
    zero beyond the bytes read; [None] when an error is returned. *)
Definition readBytes (w : Window) (pos : Z) (len : nat) : option (nat * list byte) :=
  let bytes := repeat x00 len in
  if negb (buf_seek (w_buffer w) pos) then None
  else
    match buf_read (w_buffer w) pos len with
    | None => None
    | Some got =>
        let got := firstn len got in
        Some (List.length got, got ++ skipn (List.length got) bytes)
    end.

Definition cursorUp (count : Z) (w : Window) : Window :=
  let w := setCursor w
    (w_cursor w -^ MinInt64 (MaxInt64 count 1) (w_cursor w /^ w_width w) *^ w_width w) in
  if w_cursor w <? w_offset w
  then setOffset w (w_cursor w /^ w_width w *^ w_width w)
  else w.

Definition cursorDown (count : Z) (w : Window) : Window :=
  let w := setCursor w
    (w_cursor w +^ MinInt64
       (MinInt64 (MaxInt64 count 1)
                 ((MaxInt64 (w_length w) 1 -^ 1) /^ w_width w -^ w_cursor w /^ w_width w)
        *^ w_width w)
       (MaxInt64 (w_length w) 1 -^ 1 -^ w_cursor w)) in
  if w_offset w +^ w_height w *^ w_width w <=? w_cursor w
  then setOffset w
    ((w_cursor w -^ w_height w *^ w_width w +^ w_width w) /^ w_width w *^ w_width w)
  else w.

Definition cursorLeft (count : Z) (w : Window) : Window :=
  setCursor w (w_cursor w -^ MinInt64 (MaxInt64 count 1) (w_cursor w %^ w_width w)).

Definition cursorRight (count : Z) (w : Window) : Window :=
  setCursor w
    (w_cursor w +^ MinInt64
       (MinInt64 (MaxInt64 count 1) (w_width w -^ 1 -^ w_cursor w %^ w_width w))
       (MaxInt64 (w_length w) 1 -^ 1 -^ w_cursor w)).

Definition cursorPrev (count : Z) (w : Window) : Window :=
  let w := setCursor w (w_cursor w -^ MinInt64 (MaxInt64 count 1) (w_cursor w)) in
  if w_cursor w <? w_offset w
  then setOffset w (w_cursor w /^ w_width w *^ w_width w)
  else w.

Definition cursorNext (count : Z) (w : Window) : Window :=
  let w := setCursor w
    (w_cursor w +^ MinInt64 (MaxInt64 count 1)
                            (MaxInt64 (w_length w) 1 -^ 1 -^ w_cursor w)) in
  if w_offset w +^ w_height w *^ w_width w <=? w_cursor w
  then setOffset w
    ((w_cursor w -^ w_height w *^ w_width w +^ w_width w) /^ w_width w *^ w_width w)
  else w.

Definition cursorHead (_ : Z) (w : Window) : Window :=
  setCursor w (w_cursor w -^ w_cursor w %^ w_width w).

Definition cursorEnd (count : Z) (w : Window) : Window :=
  let w := setCursor w
    (MinInt64 ((w_cursor w /^ w_width w +^ MaxInt64 count 1) *^ w_width w -^ 1)
              (MaxInt64 (w_length w) 1 -^ 1)) in
  if w_offset w +^ w_height w *^ w_width w <=? w_cursor w
  then setOffset w
    ((w_cursor w -^ w_height w *^ w_width w +^ w_width w) /^ w_width w *^ w_width w)
  else w.

Definition scrollUp (count : Z) (w : Window) : Window :=
  let w := setOffset w
    (w_offset w -^ MinInt64 (MaxInt64 count 1) (w_offset w /^ w_width w) *^ w_width w) in
  if w_offset w +^ w_height w *^ w_width w <=? w_cursor w
  then setCursor w
    (w_cursor w -^
       ((w_cursor w -^ w_offset w -^ w_height w *^ w_width w) /^ w_width w +^ 1)
       *^ w_width w)
  else w.

Definition scrollDown (count : Z) (w : Window) : Window :=
  let h := (MaxInt64 (w_length w) 1 +^ w_width w -^ 1) /^ w_width w -^ w_height w in
  let w := setOffset w
    (w_offset w +^ MinInt64 (MaxInt64 count 1) (h -^ w_offset w /^ w_width w) *^ w_width w) in
  if w_cursor w <? w_offset w
  then setCursor w
    (w_cursor w +^ MinInt64
       ((w_offset w -^ w_cursor w +^ w_width w -^ 1) /^ w_width w *^ w_width w)
       (MaxInt64 (w_length w) 1 -^ 1 -^ w_cursor w))
  else w.

Definition pageUp (w : Window) : Window :=
  let w := setOffset w
    (MaxInt64 (w_offset w -^ (w_height w -^ 2) *^ w_width w) 0) in
  if w_offset w =? 0 then setCursor w 0
  else if w_offset w +^ w_height w *^ w_width w <=? w_cursor w
  then setCursor w (w_offset w +^ (w_height w -^ 1) *^ w_width w)
  else w.

Definition pageDown (w : Window) : Window :=
  let offset :=
    MaxInt64 (((w_length w +^ w_width w -^ 1) /^ w_width w -^ w_height w) *^ w_width w) 0 in
  let w := setOffset w
    (MinInt64 (w_offset w +^ (w_height w -^ 2) *^ w_width w) offset) in
  if w_cursor w <? w_offset w then setCursor w (w_offset w)
  else if w_offset w =? offset
  then setCursor w
    (((MaxInt64 (w_length w) 1 +^ w_width w -^ 1) /^ w_width w -^ 1) *^ w_width w)
  else w.

Definition pageUpHalf (w : Window) : Window :=
  let w := setOffset w
    (MaxInt64 (w_offset w -^ MaxInt64 (w_height w /^ 2) 1 *^ w_width w) 0) in
  if w_offset w =? 0 then setCursor w 0
  else if w_offset w +^ w_height w *^ w_width w <=? w_cursor w
  then setCursor w (w_offset w +^ (w_height w -^ 1) *^ w_width w)
  else w.

Definition pageDownHalf (w : Window) : Window :=
  let offset :=
    MaxInt64 (((w_length w +^ w_width w -^ 1) /^ w_width w -^ w_height w) *^ w_width w) 0 in
  let w := setOffset w
    (MinInt64 (w_offset w +^ MaxInt64 (w_height w /^ 2) 1 *^ w_width w) offset) in
  if w_cursor w <? w_offset w then setCursor w (w_offset w)
  else if w_offset w =? offset
  then setCursor w
    (((MaxInt64 (w_length w) 1 +^ w_width w -^ 1) /^ w_width w -^ 1) *^ w_width w)
  else w.

Definition pageTop (w : Window) : Window :=
  setCursor (setOffset w 0) 0.

Definition pageEnd (w : Window) : Window :=
  let w := setOffset w
    (MaxInt64 (((w_length w +^ w_width w -^ 1) /^ w_width w -^ w_height w) *^ w_width w) 0) in
  setCursor w
    (((MaxInt64 (w_length w) 1 +^ w_width w -^ 1) /^ w_width w -^ 1) *^ w_width w).

Definition isDigit (b : byte) : bool :=
  let n := Z.of_N (Strings.Byte.to_N b) in (48 <=? n) && (n <=? 57).

Definition isWhite (b : byte) : bool :=
  let n := Z.of_N (Strings.Byte.to_N b) in
  (n =? 0) || (n =? 9) || (n =? 10) || (n =? 13) || (n =? 32).

(** [bytes[i]] for an index within the slice. *)
Definition at_ (bytes : list byte) (i : nat) : byte := nth i bytes x00.

(** [for i = s; i < 2*s && isWhite(bytes[i]); i++ {}] entered at [i], with
    [n] an upper bound of the iterations left: the value of [i] after the
    loop. *)
Fixpoint skipWhite (bytes : list byte) (s2 n i : nat) : nat :=
  match n with
  | O => i
  | S n' =>
      if (i <? s2)%nat && isWhite (at_ bytes i) then skipWhite bytes s2 n' (S i) else i
  end.

(** [for ; 0 < i && isDigit(bytes[i-1]); i-- {}]: the value of [i] after
    the loop. *)
Fixpoint backDigits (bytes : list byte) (i : nat) : nat :=
  match i with
  | O => O
  | S i' => if isDigit (at_ bytes i') then backDigits bytes i' else i
  end.

(** [for j = i; j < 2*s && isDigit(bytes[j]); j++ {}] entered at [j]. *)
Fixpoint skipDigits (bytes : list byte) (s2 n j : nat) : nat :=
  match n with
  | O => j
  | S n' =>
      if (j <? s2)%nat && isDigit (at_ bytes j) then skipDigits bytes s2 n' (S j) else j
  end.

(** [string(bytes[i:j])] *)
Definition sliceString (bytes : list byte) (i j : nat) : string :=
  string_of_list_ascii (map ascii_of_byte (firstn (j - i) (skipn i bytes))).

Definition jumpTo (w : Window) : Window :=
  let s := 50%nat in
  match readBytes w (MaxInt64 (w_cursor w -^ Z.of_nat s) 0) (2 * s) with
  | None => w
  | Some (_, bytes) =>
      let i := skipWhite bytes (2 * s) (2 * s - s) s in
      if (i =? 2 * s)%nat || negb (isDigit (at_ bytes i)) then w
      else
        let i := backDigits bytes i in
        let j := skipDigits bytes (2 * s) (2 * s - i) i in
        if (j =? 2 * s)%nat then w
        else
          let offset := fst (ParseInt (sliceString bytes i j)) in
          if (offset <=? 0) || (w_length w <=? offset) then w
          else
            let w' := setStack w (w_stack w ++ [mkPosition (w_cursor w) (w_offset w)]) in
            let w' := setCursor w' offset in
            setOffset w'
              (MaxInt64 (offset -^ offset %^ w_width w'
                         -^ MaxInt64 (w_height w' /^ 3) 0 *^ w_width w') 0)
  end.

Definition jumpBack (w : Window) : Window :=
  match List.length (w_stack w) with
  | O => w
  | S n =>
      let top := nth n (w_stack w) (mkPosition 0 0) in
      let w' := setCursor w (p_cursor top) in
      let w' := setOffset w' (p_offset top) in
      setStack w' (firstn n (w_stack w))
  end.

Definition startInsert (w : Window) : Window := setMode_ w ModeInsert.

Definition exitInsert (w : Window) : Window := setMode_ w ModeNormal.

(** ** The resolver as the specification words it

    The definitions of this section follow the specification of the
    resolver (its section 4.1 and the repeat-count rule of its data model),
    not the code; the theorems compare them with [Press]. *)

(** A key token that is a single ASCII digit. *)
Definition isDigitToken (k : Key) : bool :=
  match k with
  | String c EmptyString =>
      let b := Z.of_N (N_of_ascii c) in (48 <=? b) && (b <=? 57)
  | _ => false
  end.

Fixpoint takeDigits (ks : list Key) : list Key :=
  match ks with
  | k :: ks' => if isDigitToken k then k :: takeDigits ks' else []
  | [] => []
  end.

(** The repeat-count rule: the leading run of digit tokens of a window, of
    which a leading "0" is no part. *)
Definition countRun (win : list Key) : list Key :=
  match win with
  | k :: _ => if String.eqb k "0" then [] else takeDigits win
  | [] => []
  end.

(** The tokens of a window that are matched against the bindings, and the
    count parsed from the tokens stripped. *)
Definition remainder (counting : bool) (win : list Key) : list Key :=
  if counting then skipn (List.length (countRun win)) win else win.

(** The digit tokens of a run, written one after the other. *)
Definition joinKeys (ks : list Key) : string :=
  fold_right String.append EmptyString ks.

Definition parsedCount (counting : bool) (win : list Key) : Z :=
  if counting then fst (ParseInt (joinKeys (countRun win))) else 0.

(** The three results of comparing the remaining tokens with a binding. *)
Definition exactMatch (ks binding : list Key) : Prop := ks = binding.

Definition pendingMatch (ks binding : list Key) : Prop :=
  exists rest, rest <> [] /\ binding = ks ++ rest.

Definition noMatch (ks binding : list Key) : Prop :=
  ~ exactMatch ks binding /\ ~ pendingMatch ks binding.

(** The remaining tokens of the suffix-window at position [i] of [buf]. *)
Definition windowRest (km : KeyManager) (buf : list Key) (i : nat) : list Key :=
  remainder (km_count km) (skipn i buf).

Definition windowCount (km : KeyManager) (buf : list Key) (i : nat) : Z :=
  parsedCount (km_count km) (skipn i buf).

(** No suffix-window before [i], and in the window [i] no binding before
    the [n]-th, reports pending or exact match. *)
Definition nothingBefore (km : KeyManager) (buf : list Key) (i n : nat) : Prop :=
  forall i' n' b,
    (i' < i \/ (i' = i /\ n' < n))%nat ->
    (i' < List.length buf)%nat ->
    nth_error (km_keyEvents km) n' = Some b ->
    noMatch (windowRest km buf i') (ke_keys b).

(** The length of the longest binding registered. *)
Definition longestBinding (km : KeyManager) : nat :=
  fold_right (fun ke m => Nat.max (List.length (ke_keys ke)) m) O (km_keyEvents km).

(** ** Well-formed window states *)

(** The invariants of the data model on a viewport/cursor state. *)
Record stateInv (w : Window) : Prop := mkStateInv {
  inv_width : 0 < w_width w;
  inv_height : 0 < w_height w;
  inv_length : 0 <= w_length w;
  inv_offset : 0 <= w_offset w;
  inv_aligned : Z.rem (w_offset w) (w_width w) = 0;
  inv_cursor : 0 <= w_cursor w <= Z.max (w_length w - 1) 0;
  inv_shown : w_offset w <= w_cursor w < w_offset w + w_height w * w_width w
}.

(** Displayed-window containment. *)
Definition contained (w : Window) : Prop :=
  w_offset w <= w_cursor w < w_offset w + w_height w * w_width w.

(** ceil(a / b) for a positive [b], by floor division. *)
Definition ceilDiv (a b : Z) : Z := - ((- a) / b).

(** The offset bounds of the data model. *)
Definition offsetBounded (w : Window) : Prop :=
  0 <= w_offset w <= Z.max (ceilDiv (w_length w) (w_width w) - w_height w) 0 * w_width w
  /\ (w_offset w) mod (w_width w) = 0.

(** The comparison of [cmp], by structural recursion on both lists. *)
Fixpoint cmpList (kes ks : list Key) : cmpResult :=
  match kes, ks with
  | [], _ => keysEq
  | _ :: _, [] => keysPending
  | k :: kes', k' :: ks' => if String.eqb k k' then cmpList kes' ks' else keysNeq
  end.

(** From the window [s] on, nothing before the [n]-th binding of the window
    [i] reports pending or exact match. *)
Definition quietFrom (km : KeyManager) (s i n : nat) : Prop :=
  forall i' n' b,
    (s <= i')%nat ->
    (i' < i \/ (i' = i /\ n' < n))%nat ->
    nth_error (km_keyEvents km) n' = Some b ->
    noMatch (windowRest km (km_keys km) i') (ke_keys b).

(** A suffix-window of the pending sequence is held by a binding. *)
Definition heldBy (km : KeyManager) (i : nat) (b : keyEvent) : Prop :=
  (i < List.length (km_keys km))%nat
  /\ In b (km_keyEvents km)
  /\ pendingMatch (windowRest km (km_keys km) i) (ke_keys b).

(** Every binding is a single token. *)
Definition singleTokens (km : KeyManager) : Prop :=
  Forall (fun b => List.length (ke_keys b) = 1%nat) (km_keyEvents km).

(** ** The parts of [jumpTo] *)

(** The index at which the scan for white bytes stops, the two ends of the
    digit run found there, and the value parsed from the run. *)
Definition scanStop (bytes : list byte) : nat := skipWhite bytes 100 50 50.

Definition runStart (bytes : list byte) : nat := backDigits bytes (scanStop bytes).

Definition runEnd (bytes : list byte) : nat :=
  skipDigits bytes 100 (100 - runStart bytes) (runStart bytes).

Definition runValue (bytes : list byte) : Z :=
  fst (ParseInt (sliceString bytes (runStart bytes) (runEnd bytes))).

(** [jumpTo] finds a digit run in [bytes] that ends before the right edge. *)
Definition runFound (bytes : list byte) : bool :=
  negb ((scanStop bytes =? 100)%nat || negb (isDigit (at_ bytes (scanStop bytes))))
  && negb (runEnd bytes =? 100)%nat.

(** The state after a jump from [w] to the address [v]. *)
Definition jumped (w : Window) (v : Z) : Window :=
  mkWindow (w_buffer w) (w_height w) (w_width w)
    (MaxInt64 (v -^ v %^ w_width w -^ MaxInt64 (w_height w /^ 3) 0 *^ w_width w) 0)
    v (w_length w)
    (w_stack w ++ [mkPosition (w_cursor w) (w_offset w)]) (w_mode w).

(** The address of the first byte that [jumpTo] reads. *)
Definition readStart (w : Window) : Z := MaxInt64 (w_cursor w -^ 50) 0.

Definition setBuffer (w : Window) (b : Buffer) : Window :=
  mkWindow b (w_height w) (w_width w) (w_offset w) (w_cursor w)
           (w_length w) (w_stack w) (w_mode w).

(** [n] times [f]. *)
Fixpoint iter (A : Type) (n : nat) (f : A -> A) (x : A) : A :=
  match n with
  | O => x
  | S n' => iter A n' f (f x)
  end.
Arguments iter {A} n f x.

(** A file of 456 bytes that holds the text "  399 " at the address 50 and
    zero bytes elsewhere, and a window of 10 rows of 16 bytes over a buffer
    of these bytes with the length [len]. *)
Definition sampleData : list byte :=
  repeat x00 50
  ++ map byte_of_ascii (list_ascii_of_string "  399 ")
  ++ repeat x00 400.

Definition sampleWindow (offset cursor len : Z) : Window :=
  mkWindow (bufferOf sampleData) 10 16 offset cursor len [] ModeNormal.

(** The values of a state are small enough for the arithmetic of the
    navigation operations not to wrap around: the length plus one page and
    one row is an [int64]. *)
Definition noOverflow (w : Window) : Prop :=
  w_length w + (w_height w + 1) * w_width w <= Int64.max_int64.

(** ** The shared tails of the navigation operations

    [cursorUp] and [cursorPrev] end with the same conditional, and so do
    [cursorDown], [cursorNext] and [cursorEnd], the two page-up operations
    and the two page-down operations.  These are the conditionals, as
    functions of the state they are entered with. *)

Definition snapUp (w : Window) : Window :=
  if w_cursor w <? w_offset w
  then setOffset w (w_cursor w /^ w_width w *^ w_width w)
  else w.

Definition snapDown (w : Window) : Window :=
  if w_offset w +^ w_height w *^ w_width w <=? w_cursor w
  then setOffset w
    ((w_cursor w -^ w_height w *^ w_width w +^ w_width w) /^ w_width w *^ w_width w)
  else w.

Definition pageCursorUp (w : Window) : Window :=
  if w_offset w =? 0 then setCursor w 0
  else if w_offset w +^ w_height w *^ w_width w <=? w_cursor w
  then setCursor w (w_offset w +^ (w_height w -^ 1) *^ w_width w)
  else w.

Definition pageCursorDown (offset : Z) (w : Window) : Window :=
  if w_cursor w <? w_offset w then setCursor w (w_offset w)
  else if w_offset w =? offset
  then setCursor w
    (((MaxInt64 (w_length w) 1 +^ w_width w -^ 1) /^ w_width w -^ 1) *^ w_width w)
  else w.

(** The offset of the last page, as [pageDown], [pageDownHalf] and
    [pageEnd] compute it. *)
Definition lastPage (w : Window) : Z :=
  MaxInt64 (((w_length w +^ w_width w -^ 1) /^ w_width w -^ w_height w) *^ w_width w) 0.

(** The invariants of a state but for the containment of the cursor, with
    the absence of overflow. *)
Record preInv (w : Window) : Prop := mkPreInv {
  pre_width : 0 < w_width w;
  pre_height : 0 < w_height w;
  pre_length : 0 <= w_length w;
  pre_fits : noOverflow w;
  pre_offset : 0 <= w_offset w;
  pre_aligned : (w_offset w) mod (w_width w) = 0;
  pre_cursor : 0 <= w_cursor w <= Z.max (w_length w - 1) 0
}.

(** The operations on cursor and offset leave height, width and length as
    they are. *)
Definition sameShape (w w' : Window) : Prop :=
  w_height w' = w_height w /\ w_width w' = w_width w /\ w_length w' = w_length w.

(** ** The navigation operations as values

    The methods of [Window] that move cursor and offset, one constructor
    per method, with the count the method takes; [applyOp] calls the method
    that an operation names. *)
Inductive NavOp : Type :=
  | OpCursorUp (count : Z) | OpCursorDown (count : Z)
  | OpCursorLeft (count : Z) | OpCursorRight (count : Z)
  | OpCursorPrev (count : Z) | OpCursorNext (count : Z)
  | OpCursorHead (count : Z) | OpCursorEnd (count : Z)
  | OpScrollUp (count : Z) | OpScrollDown (count : Z)
  | OpPageUp | OpPageDown | OpPageUpHalf | OpPageDownHalf
  | OpPageTop | OpPageEnd | OpJumpTo | OpJumpBack.

Definition applyOp (op : NavOp) (w : Window) : Window :=
  match op with
  | OpCursorUp n => cursorUp n w
  | OpCursorDown n => cursorDown n w
  | OpCursorLeft n => cursorLeft n w
  | OpCursorRight n => cursorRight n w
  | OpCursorPrev n => cursorPrev n w
  | OpCursorNext n => cursorNext n w
  | OpCursorHead n => cursorHead n w
  | OpCursorEnd n => cursorEnd n w
  | OpScrollUp n => scrollUp n w
  | OpScrollDown n => scrollDown n w
  | OpPageUp => pageUp w
  | OpPageDown => pageDown w
  | OpPageUpHalf => pageUpHalf w
  | OpPageDownHalf => pageDownHalf w
  | OpPageTop => pageTop w
  | OpPageEnd => pageEnd w
  | OpJumpTo => jumpTo w
  | OpJumpBack => jumpBack w
  end.

Fixpoint applyOps (ops : list NavOp) (w : Window) : Window :=
  match ops with
  | [] => w
  | op :: ops' => applyOps ops' (applyOp op w)
  end.

(** A saved pair that is a position of the window [w]: within the data,
    the offset on a row boundary, the cursor displayed. *)
Definition goodPos (w : Window) (p : position) : Prop :=
  0 <= p_offset p /\ (p_offset p) mod (w_width w) = 0
  /\ 0 <= p_cursor p <= Z.max (w_length w - 1) 0
  /\ p_offset p <= p_cursor p < p_offset p + w_height w * w_width w.

(** The top pair of the jump stack, if there is one, shows its cursor. *)
Definition topContained (w : Window) : Prop :=
  forall st p, w_stack w = st ++ [p] ->
    p_offset p <= p_cursor p < p_offset p + w_height w * w_width w.

(** The top pair of the jump stack, if there is one, has its offset within
    the offset bounds. *)
Definition topBounded (w : Window) : Prop :=
  forall st p, w_stack w = st ++ [p] ->
    offsetBounded (setOffset w (p_offset p)).

(** The data has as many rows as the window, at least. *)
Definition fullPage (w : Window) : Prop :=
  w_height w <= (Z.max (w_length w) 1 + w_width w - 1) / w_width w.

(** A state with the invariants of the data model, without overflow, all
    pairs of whose jump stack are positions. *)
Record wellFormed (w : Window) : Prop := mkWellFormed {
  wf_pre : preInv w;
  wf_contained : contained w;
  wf_stack : Forall (goodPos w) (w_stack w)
}.

(** What the operations need beyond the invariants of the state: the two
    full-page operations two rows or more, [cursorEnd] a count whose rows do
    not overflow, [scrollDown] a full page of data. *)
Definition opGuard (op : NavOp) (w : Window) : Prop :=
  match op with
  | OpCursorEnd n => Z.max n 1 * w_width w + w_length w <= Int64.max_int64
  | OpPageUp | OpPageDown => 2 <= w_height w
  | OpScrollDown _ => fullPage w
  | _ => True
  end.

(** The same for the containment of the cursor alone. *)
Definition shownGuard (op : NavOp) (w : Window) : Prop :=
  match op with
  | OpCursorEnd n => Z.max n 1 * w_width w + w_length w <= Int64.max_int64
  | OpPageUp | OpPageDown => 2 <= w_height w
  | OpJumpBack => topContained w
  | _ => True
  end.

(** The same for the bounds of the offset; [jumpTo] is not among the
    operations that keep them. *)
Definition boundGuard (op : NavOp) (w : Window) : Prop :=
  match op with
  | OpCursorEnd n => Z.max n 1 * w_width w + w_length w <= Int64.max_int64
  | OpPageUp | OpPageDown => 2 <= w_height w
  | OpScrollDown _ => fullPage w
  | OpJumpBack => topBounded w
  | OpJumpTo => False
  | _ => True
  end.

(** ** Definitions for the further properties of the resolver *)



(** The event of the first binding that is the single token [k]. *)
Fixpoint firstBound (kes : list keyEvent) (k : Key) : EventType :=
  match kes with
  | [] => EventNop
  | b :: kes' =>
      match ke_keys b with
      | [a] => if String.eqb a k then ke_event b else firstBound kes' k
      | _ => firstBound kes' k
      end
  end.

(** The value of a run of digit bytes read as a decimal numeral. *)
Definition bytesDecimal (bs : list byte) : Z :=
  fold_left (fun acc b => acc * 10 + (Z.of_N (Strings.Byte.to_N b) - 48)) bs 0.

(** [bytes[i:j]] *)
Definition slice (bytes : list byte) (i j : nat) : list byte :=
  firstn (j - i) (skipn i bytes).

(** [jumpTo] finds a valid address in the state [w]: the read of the 100
    bytes succeeds, the scan finds a digit run, and the value of the run is
    an address strictly between 0 and the length. *)
Definition validAddress (w : Window) : Prop :=
  exists n bytes,
    readBytes w (readStart w) 100 = Some (n, bytes)
    /\ runFound bytes = true
    /\ 0 < runValue bytes < w_length w.

(** The value of the digit run that [jumpTo] finds in the state [w], 0 when
    the read fails. *)
Definition addressFound (w : Window) : Z :=
  match readBytes w (readStart w) 100 with
  | Some (_, bytes) => runValue bytes
  | None => 0
  end.

(** * Properties *)

(** ** The resolver *)

Lemma skipn_nth_cons (A : Type) (d : A) (l : list A) (i : nat) :
  (i < List.length l)%nat -> skipn i l = nth i l d :: skipn (S i) l.
Proof.
  revert i; induction l as [|a l IH]; intros i Hi; simpl in Hi; [lia|].
  destruct i as [|i]; [reflexivity|].
  change (skipn (S i) (a :: l)) with (skipn i l).
  change (nth (S i) (a :: l) d) with (nth i l d).
  rewrite (IH i) by lia. reflexivity.
Qed.

Lemma cmpFrom_cmpList (kes ks : list Key) (i : nat) :
  cmpFrom i kes ks = cmpList kes (skipn i ks).
Proof.
  revert i; induction kes as [|k kes IH]; intros i; cbn [cmpFrom].
  - reflexivity.
  - destruct (Nat.leb_spec (List.length ks) i) as [Hle|Hlt].
    + rewrite skipn_all2 by exact Hle. reflexivity.
    + rewrite (skipn_nth_cons Key EmptyString ks i Hlt).
      cbn [cmpList].
      destruct (String.eqb k (nth i ks EmptyString)); cbn [negb]; [apply IH|reflexivity].
Qed.

Lemma cmpList_eq (kes ks : list Key) :
  (List.length ks <= List.length kes)%nat ->
  cmpList kes ks = keysEq <-> exactMatch ks kes.
Proof.
  unfold exactMatch.
  revert ks; induction kes as [|k kes IH]; intros ks Hlen.
  - destruct ks; simpl in *; [tauto|lia].
  - destruct ks as [|k' ks]; simpl in *.
    + split; discriminate.
    + destruct (String.eqb_spec k k') as [->|Hne].
      * rewrite IH by lia. split; [intros ->; reflexivity|intros H; inversion H; reflexivity].
      * split; [discriminate|intros H; inversion H; congruence].
Qed.

Lemma cmpList_pending (kes ks : list Key) :
  cmpList kes ks = keysPending <-> pendingMatch ks kes.
Proof.
  unfold pendingMatch.
  revert ks; induction kes as [|k kes IH]; intros ks.
  - simpl. split; [discriminate|].
    intros (rest & Hne & Heq). symmetry in Heq.
    apply app_eq_nil in Heq. destruct Heq; contradiction.
  - destruct ks as [|k' ks]; simpl.
    + split; [intros _; exists (k :: kes); split; [discriminate|reflexivity]|reflexivity].
    + destruct (String.eqb_spec k k') as [->|Hne].
      * rewrite IH. split; intros (rest & Hr & Heq); exists rest; split; auto.
        -- simpl; congruence.
        -- simpl in Heq; congruence.
      * split; [discriminate|]. intros (rest & _ & Heq). simpl in Heq. congruence.
Qed.

Lemma pendingMatch_length (ks binding : list Key) :
  pendingMatch ks binding -> (List.length ks < List.length binding)%nat.
Proof.
  intros (rest & Hne & ->). rewrite length_app.
  destruct rest; [contradiction|simpl; lia].
Qed.

(** [cmp] decides the three results of the specification. *)
Lemma cmp_exact (ke : keyEvent) (ks : list Key) :
  cmp ke ks = keysEq <-> exactMatch ks (ke_keys ke).
Proof.
  unfold cmp. destruct (Nat.ltb_spec (List.length (ke_keys ke)) (List.length ks)) as [Hlt|Hle].
  - split; [discriminate|]. unfold exactMatch. intros ->. lia.
  - rewrite cmpFrom_cmpList. simpl. apply cmpList_eq. exact Hle.
Qed.

Lemma cmp_pending (ke : keyEvent) (ks : list Key) :
  cmp ke ks = keysPending <-> pendingMatch ks (ke_keys ke).
Proof.
  unfold cmp. destruct (Nat.ltb_spec (List.length (ke_keys ke)) (List.length ks)) as [Hlt|Hle].
  - split; [discriminate|]. intros H. apply pendingMatch_length in H. lia.
  - rewrite cmpFrom_cmpList. simpl. apply cmpList_pending.
Qed.

Lemma cmp_neq (ke : keyEvent) (ks : list Key) :
  cmp ke ks = keysNeq <-> noMatch ks (ke_keys ke).
Proof.
  unfold noMatch. rewrite <- cmp_exact, <- cmp_pending.
  destruct (cmp ke ks); split; intros H;
    try discriminate; try (split; discriminate); try reflexivity;
    destruct H as [H1 H2]; exfalso; auto.
Qed.

(** *** The digit run *)

Lemma isCountKey_succ (j : nat) (k : Key) : isCountKey (S j) k = isDigitToken k.
Proof.
  destruct k as [|c [|c' k']]; try reflexivity.
  unfold isCountKey, isDigitToken.
  change (0 <? S j)%nat with true. rewrite andb_true_r.
  set (b := Z.of_N (N_of_ascii c)).
  destruct (Z.leb_spec 49 b), (Z.leb_spec b 57), (Z.eqb_spec b 48), (Z.leb_spec 48 b);
    simpl; try reflexivity; lia.
Qed.

Lemma isDigitToken_single (k : Key) :
  isDigitToken k = true -> exists c, k = String c EmptyString.
Proof.
  destruct k as [|c [|c' k']]; simpl; try discriminate. intros _. exists c. reflexivity.
Qed.

Lemma isCountKey_zero (k : Key) :
  isCountKey 0 k = isDigitToken k && negb (String.eqb k "0").
Proof.
  destruct k as [|c [|c' k']]; try reflexivity.
  unfold isCountKey, isDigitToken.
  - change (0 <? 0)%nat with false. rewrite andb_false_r, orb_false_r.
    destruct (String.eqb_spec (String c EmptyString) "0") as [Heq|Hne].
    + inversion Heq; subst c. reflexivity.
    + assert (Hb : Z.of_N (N_of_ascii c) <> 48).
      { intros Hb. apply Hne. f_equal.
        rewrite <- (ascii_N_embedding c).
        replace (N_of_ascii c) with 48%N by lia. reflexivity. }
      set (b := Z.of_N (N_of_ascii c)) in *.
      destruct (Z.leb_spec 49 b), (Z.leb_spec b 57), (Z.leb_spec 48 b);
        simpl; try reflexivity; lia.
Qed.

Lemma numStrFrom_succ (j : nat) (keys : list Key) :
  numStrFrom (S j) keys = joinKeys (takeDigits keys)
  /\ String.length (numStrFrom (S j) keys) = List.length (takeDigits keys).
Proof.
  revert j; induction keys as [|k keys IH]; intros j; cbn [numStrFrom takeDigits].
  - split; reflexivity.
  - rewrite isCountKey_succ. destruct (isDigitToken k) eqn:Hk.
    + destruct (IH (S j)) as [IH1 IH2]. split.
      * simpl. rewrite IH1. reflexivity.
      * destruct (isDigitToken_single k Hk) as [c ->]. simpl. rewrite IH2. reflexivity.
    + split; reflexivity.
Qed.

(** The run that [Press] strips is the run of the repeat-count rule. *)
Lemma numStrFrom_countRun (win : list Key) :
  numStrFrom 0 win = joinKeys (countRun win)
  /\ String.length (numStrFrom 0 win) = List.length (countRun win).
Proof.
  destruct win as [|k keys]; [split; reflexivity|].
  cbn [numStrFrom countRun]. rewrite isCountKey_zero.
  destruct (String.eqb k "0") eqn:H0.
  - rewrite andb_false_r. split; reflexivity.
  - rewrite andb_true_r. cbn [takeDigits].
    destruct (isDigitToken k) eqn:Hk; [|split; reflexivity].
    destruct (numStrFrom_succ 0 keys) as [E1 E2]. split.
    + simpl. rewrite E1. reflexivity.
    + destruct (isDigitToken_single k Hk) as [c ->]. simpl. rewrite E2. reflexivity.
Qed.

(** *** The loop over the bindings *)

Lemma rangeKeyEvents_none (kes : list keyEvent) (keys : list Key) (count : Z) :
  rangeKeyEvents kes keys count = None <->
  (forall n b, nth_error kes n = Some b -> noMatch keys (ke_keys b)).
Proof.
  induction kes as [|ke kes IH]; cbn [rangeKeyEvents].
  - split; [intros _ [|n] b H; discriminate H|reflexivity].
  - destruct (cmp ke keys) eqn:Hc.
    + split; [discriminate|]. intros H.
      pose proof (H O ke eq_refl) as Hn. apply cmp_neq in Hn. congruence.
    + split; [discriminate|]. intros H.
      pose proof (H O ke eq_refl) as Hn. apply cmp_neq in Hn. congruence.
    + rewrite IH. split; intros H n b Hn.
      * destruct n as [|n]; [inversion Hn; subst; apply cmp_neq; exact Hc|].
        exact (H n b Hn).
      * exact (H (S n) b Hn).
Qed.

Lemma rangeKeyEvents_pending (kes : list keyEvent) (keys : list Key) (count : Z)
      (n : nat) (b : keyEvent) :
  nth_error kes n = Some b ->
  (forall n' b', (n' < n)%nat -> nth_error kes n' = Some b' -> noMatch keys (ke_keys b')) ->
  pendingMatch keys (ke_keys b) ->
  rangeKeyEvents kes keys count = Some (false, mkEvent EventNop 0).
Proof.
  revert n; induction kes as [|ke kes IH]; intros n Hn Hbefore Hp.
  - destruct n; discriminate Hn.
  - cbn [rangeKeyEvents]. destruct n as [|n].
    + inversion Hn; subst ke. apply cmp_pending in Hp. rewrite Hp. reflexivity.
    + assert (Hc : cmp ke keys = keysNeq).
      { apply cmp_neq. apply (Hbefore O ke); [lia|reflexivity]. }
      rewrite Hc. apply (IH n Hn); [|exact Hp].
      intros n' b' Hlt Hn'. apply (Hbefore (S n') b'); [lia|exact Hn'].
Qed.

Lemma rangeKeyEvents_exact (kes : list keyEvent) (keys : list Key) (count : Z)
      (n : nat) (b : keyEvent) :
  nth_error kes n = Some b ->
  (forall n' b', (n' < n)%nat -> nth_error kes n' = Some b' -> noMatch keys (ke_keys b')) ->
  exactMatch keys (ke_keys b) ->
  rangeKeyEvents kes keys count = Some (true, mkEvent (ke_event b) count).
Proof.
  revert n; induction kes as [|ke kes IH]; intros n Hn Hbefore Hp.
  - destruct n; discriminate Hn.
  - cbn [rangeKeyEvents]. destruct n as [|n].
    + inversion Hn; subst ke. apply cmp_exact in Hp. rewrite Hp. reflexivity.
    + assert (Hc : cmp ke keys = keysNeq).
      { apply cmp_neq. apply (Hbefore O ke); [lia|reflexivity]. }
      rewrite Hc. apply (IH n Hn); [|exact Hp].
      intros n' b' Hlt Hn'. apply (Hbefore (S n') b'); [lia|exact Hn'].
Qed.

(** *** The loop over the suffix-windows *)

Lemma pressLoop_step (km : KeyManager) (n i : nat) :
  pressLoop km (S n) i =
  match rangeKeyEvents (km_keyEvents km) (windowRest km (km_keys km) i)
                       (windowCount km (km_keys km) i) with
  | Some (true, ev) => (setKeys km [], ev)
  | Some (false, ev) => (km, ev)
  | None => pressLoop km n (S i)
  end.
Proof.
  cbn [pressLoop]. unfold windowRest, windowCount, remainder, parsedCount.
  destruct (km_count km); [|reflexivity].
  destruct (numStrFrom_countRun (skipn i (km_keys km))) as [E1 E2].
  rewrite E1 at 2. rewrite E2. reflexivity.
Qed.

Lemma quietFrom_succ (km : KeyManager) (s i n : nat) :
  quietFrom km s i n -> quietFrom km (S s) i n.
Proof.
  intros H i' n' b Hs Hlt Hn. apply (H i' n' b); [lia|exact Hlt|exact Hn].
Qed.

Lemma quietFrom_window (km : KeyManager) (s i n : nat) :
  quietFrom km s i n -> (s < i)%nat ->
  rangeKeyEvents (km_keyEvents km) (windowRest km (km_keys km) s)
                 (windowCount km (km_keys km) s) = None.
Proof.
  intros H Hlt. apply rangeKeyEvents_none. intros n' b Hn.
  apply (H s n' b); [lia|left; exact Hlt|exact Hn].
Qed.

Lemma pressLoop_pending (km : KeyManager) (fuel s i n : nat) (b : keyEvent) :
  (s <= i < s + fuel)%nat ->
  nth_error (km_keyEvents km) n = Some b ->
  quietFrom km s i n ->
  pendingMatch (windowRest km (km_keys km) i) (ke_keys b) ->
  pressLoop km fuel s = (km, mkEvent EventNop 0).
Proof.
  revert s; induction fuel as [|fuel IH]; intros s Hi Hn Hq Hp; [lia|].
  rewrite pressLoop_step.
  destruct (Nat.eq_dec s i) as [->|Hne].
  - rewrite (rangeKeyEvents_pending _ _ _ n b Hn); [reflexivity| |exact Hp].
    intros n' b' Hlt Hn'. apply (Hq i n' b'); [lia|right; lia|exact Hn'].
  - rewrite (quietFrom_window km s i n Hq) by lia.
    apply IH; [lia|exact Hn|apply quietFrom_succ; exact Hq|exact Hp].
Qed.

Lemma pressLoop_exact (km : KeyManager) (fuel s i n : nat) (b : keyEvent) :
  (s <= i < s + fuel)%nat ->
  nth_error (km_keyEvents km) n = Some b ->
  quietFrom km s i n ->
  exactMatch (windowRest km (km_keys km) i) (ke_keys b) ->
  pressLoop km fuel s =
  (setKeys km [], mkEvent (ke_event b) (windowCount km (km_keys km) i)).
Proof.
  revert s; induction fuel as [|fuel IH]; intros s Hi Hn Hq Hp; [lia|].
  rewrite pressLoop_step.
  destruct (Nat.eq_dec s i) as [->|Hne].
  - rewrite (rangeKeyEvents_exact _ _ _ n b Hn); [reflexivity| |exact Hp].
    intros n' b' Hlt Hn'. apply (Hq i n' b'); [lia|right; lia|exact Hn'].
  - rewrite (quietFrom_window km s i n Hq) by lia.
    apply IH; [lia|exact Hn|apply quietFrom_succ; exact Hq|exact Hp].
Qed.

Lemma pressLoop_none (km : KeyManager) (fuel s : nat) :
  (forall i n b, (s <= i < s + fuel)%nat ->
     nth_error (km_keyEvents km) n = Some b ->
     noMatch (windowRest km (km_keys km) i) (ke_keys b)) ->
  pressLoop km fuel s = (setKeys km [], mkEvent EventNop 0).
Proof.
  revert s; induction fuel as [|fuel IH]; intros s H; [reflexivity|].
  rewrite pressLoop_step.
  assert (E : rangeKeyEvents (km_keyEvents km) (windowRest km (km_keys km) s)
                (windowCount km (km_keys km) s) = None).
  { apply rangeKeyEvents_none. intros n b Hn. apply (H s n b); [lia|exact Hn]. }
  rewrite E. apply IH. intros i n b Hi Hn. apply (H i n b); [lia|exact Hn].
Qed.

Lemma nothingBefore_quiet (km : KeyManager) (k : Key) (i n : nat) :
  (i < List.length (km_keys km ++ [k]))%nat ->
  nothingBefore km (km_keys km ++ [k]) i n ->
  quietFrom (setKeys km (km_keys km ++ [k])) 0 i n.
Proof.
  intros Hi H i' n' b _ Hlt Hn. apply (H i' n' b); [exact Hlt|lia|exact Hn].
Qed.

(** C2. [Press] appends the token and scans the suffix-windows of the
    buffer from position 0 upward, in each window the bindings in
    registration order, after stripping the digit run when counting is
    enabled.  The first window and binding that report pending (the
    remainder is a strict, possibly empty, prefix of the binding) make
    [Press] return no event and keep the whole buffer; the first that
    report an exact match clear the buffer and return the binding's command
    with the parsed count, which is 0 when counting is disabled or no digit
    was stripped; when no window and no binding report either, the buffer
    is cleared and no event is returned.  In Normal mode "g","g" resolves
    page-top and "g","x" drops the "g" and resolves delete-byte. *)
Theorem Press_resolves (km : KeyManager) (k : Key) :
  let buf := km_keys km ++ [k] in
  (forall i n b,
      (i < List.length buf)%nat ->
      nth_error (km_keyEvents km) n = Some b ->
      nothingBefore km buf i n ->
      pendingMatch (windowRest km buf i) (ke_keys b) ->
      Press km k = (setKeys km buf, mkEvent EventNop 0))
  /\ (forall i n b,
      (i < List.length buf)%nat ->
      nth_error (km_keyEvents km) n = Some b ->
      nothingBefore km buf i n ->
      exactMatch (windowRest km buf i) (ke_keys b) ->
      Press km k = (setKeys km [], mkEvent (ke_event b) (windowCount km buf i)))
  /\ ((forall i n b,
      (i < List.length buf)%nat ->
      nth_error (km_keyEvents km) n = Some b ->
      noMatch (windowRest km buf i) (ke_keys b)) ->
      Press km k = (setKeys km [], mkEvent EventNop 0))
  /\ (km_count km = false -> forall i, windowCount km buf i = 0)
  /\ (forall i, countRun (skipn i buf) = [] -> windowCount km buf i = 0)
  /\ pressAll normalKM ["g"; "g"]%string
     = (normalKM, [mkEvent EventNop 0; mkEvent EventPageTop 0])
  /\ pressAll normalKM ["g"; "x"]%string
     = (normalKM, [mkEvent EventNop 0; mkEvent EventDeleteByte 0]).
Proof.
  intros buf. unfold Press.
  set (km1 := setKeys km (km_keys km ++ [k])).
  change (km_keys km1) with buf.
  refine (conj _ (conj _ (conj _ (conj _ (conj _ (conj _ _)))))).
  - intros i n b Hi Hn Hq Hp.
    apply (pressLoop_pending km1 (List.length buf) 0 i n b);
      [lia|exact Hn|apply nothingBefore_quiet; assumption|exact Hp].
  - intros i n b Hi Hn Hq Hp.
    apply (pressLoop_exact km1 (List.length buf) 0 i n b);
      [lia|exact Hn|apply nothingBefore_quiet; assumption|exact Hp].
  - intros H. apply (pressLoop_none km1 (List.length buf) 0).
    intros i n b Hi Hn. apply (H i n b); [lia|exact Hn].
  - intros Hc i. unfold windowCount, parsedCount. rewrite Hc. reflexivity.
  - intros i Hr. unfold windowCount, parsedCount. rewrite Hr.
    destruct (km_count km); reflexivity.
  - vm_compute. reflexivity.
  - vm_compute. reflexivity.
Qed.

Lemma Press_resolves_witness :
  Press (Register (NewKeyManager false) EventQuit ["Z"; "Q"]%string) "Z"%string
  = (setKeys (Register (NewKeyManager false) EventQuit ["Z"; "Q"]%string) ["Z"%string],
     mkEvent EventNop 0).
Proof.
  apply (proj1 (Press_resolves
                  (Register (NewKeyManager false) EventQuit ["Z"; "Q"]%string) "Z"%string)
               O O (mkKeyEvent ["Z"; "Q"]%string EventQuit)).
  - simpl. lia.
  - reflexivity.
  - intros i' n' b H. lia.
  - exists ["Q"%string]. split; [discriminate|reflexivity].
Defined.

(** *** The repeat count *)

Lemma isCountKey_iff (j : nat) (k : Key) :
  isCountKey j k = true <->
  isDigitToken k = true /\ (k = "0"%string -> (0 < j)%nat).
Proof.
  destruct j as [|j].
  - rewrite isCountKey_zero, andb_true_iff, negb_true_iff.
    split; intros [H1 H2]; split; try exact H1.
    + intros ->. discriminate H2.
    + destruct (String.eqb_spec k "0"); [|reflexivity].
      specialize (H2 e). lia.
  - rewrite isCountKey_succ. split; [intros H; split; [exact H|lia]|tauto].
Qed.

Lemma takeDigits_nth (l : list Key) (j : nat) (k : Key) :
  nth_error (takeDigits l) j = Some k ->
  nth_error l j = Some k /\ isDigitToken k = true.
Proof.
  revert j; induction l as [|a l IH]; intros j; cbn [takeDigits].
  - destruct j; discriminate.
  - destruct (isDigitToken a) eqn:Ha; [|destruct j; discriminate].
    destruct j as [|j]; simpl.
    + intros H; inversion H; subst. split; [reflexivity|exact Ha].
    + apply IH.
Qed.

Lemma takeDigits_stop (l : list Key) (k : Key) :
  nth_error l (List.length (takeDigits l)) = Some k -> isDigitToken k = false.
Proof.
  induction l as [|a l IH]; cbn [takeDigits].
  - discriminate.
  - destruct (isDigitToken a) eqn:Ha; simpl.
    + exact IH.
    + intros H; inversion H; subst; exact Ha.
Qed.

(** C3. In a counting resolver the digit run stripped from a window is the
    run of the repeat-count rule: it is made of single ASCII digit tokens,
    a token "1" to "9" is accepted at every index and a token "0" only at
    an index greater than 0, that is after a digit token of the same
    window, and the run stops at the first token that is not accepted.
    With the default Normal-mode bindings, "1","2","j" yields cursor-down
    with count 12 and "0" alone yields row-head. *)
Theorem count_parsing :
  (forall j k, isCountKey j k = true <->
               isDigitToken k = true /\ (k = "0"%string -> (0 < j)%nat))
  /\ (forall win, numStrFrom 0 win = joinKeys (countRun win)
                  /\ String.length (numStrFrom 0 win) = List.length (countRun win))
  /\ (forall win j k, nth_error (countRun win) j = Some k ->
        nth_error win j = Some k /\ isDigitToken k = true
        /\ (k = "0"%string -> (0 < j)%nat))
  /\ (forall win k, nth_error win (List.length (countRun win)) = Some k ->
        isDigitToken k = false \/ (countRun win = [] /\ k = "0"%string))
  /\ pressAll normalKM ["1"; "2"; "j"]%string
     = (normalKM, [mkEvent EventNop 0; mkEvent EventNop 0; mkEvent EventCursorDown 12])
  /\ fst (Press normalKM "1"%string) = setKeys normalKM ["1"%string]
  /\ Press normalKM "0"%string = (normalKM, mkEvent EventCursorHead 0).
Proof.
  refine (conj _ (conj _ (conj _ (conj _ (conj _ (conj _ _)))))).
  - exact isCountKey_iff.
  - exact numStrFrom_countRun.
  - intros win j k. destruct win as [|a win]; cbn [countRun].
    + destruct j; discriminate.
    + destruct (String.eqb_spec a "0") as [->|Hne]; [destruct j; discriminate|].
      intros H. destruct (takeDigits_nth _ _ _ H) as [H1 H2].
      split; [exact H1|split; [exact H2|]].
      intros ->. destruct j as [|j]; [|lia].
      simpl in H1. inversion H1. contradiction.
  - intros win k. destruct win as [|a win]; cbn [countRun].
    + discriminate.
    + destruct (String.eqb_spec a "0") as [->|Hne].
      * simpl. intros H; inversion H. right. split; reflexivity.
      * intros H. left. exact (takeDigits_stop _ _ H).
  - vm_compute. reflexivity.
  - vm_compute. reflexivity.
  - vm_compute. reflexivity.
Qed.

(** *** The length of the pending sequence *)

Lemma rangeKeyEvents_hold (kes : list keyEvent) (keys : list Key) (count : Z) (ev : Event) :
  rangeKeyEvents kes keys count = Some (false, ev) ->
  exists b, In b kes /\ pendingMatch keys (ke_keys b).
Proof.
  induction kes as [|ke kes IH]; cbn [rangeKeyEvents]; [discriminate|].
  destruct (cmp ke keys) eqn:Hc.
  - discriminate.
  - intros _. exists ke. split; [left; reflexivity|apply cmp_pending; exact Hc].
  - intros H. destruct (IH H) as (b & Hb & Hp). exists b. split; [right; exact Hb|exact Hp].
Qed.

Lemma longestBinding_ge (km : KeyManager) (b : keyEvent) :
  In b (km_keyEvents km) -> (List.length (ke_keys b) <= longestBinding km)%nat.
Proof.
  unfold longestBinding. induction (km_keyEvents km) as [|ke kes IH]; simpl.
  - contradiction.
  - intros [->|H]; [lia|specialize (IH H); lia].
Qed.

Lemma pressLoop_keys (km : KeyManager) (fuel s : nat) :
  km_keys (fst (pressLoop km fuel s)) = []
  \/ (fst (pressLoop km fuel s) = km
      /\ exists i b, (s <= i < s + fuel)%nat
                     /\ In b (km_keyEvents km)
                     /\ pendingMatch (windowRest km (km_keys km) i) (ke_keys b)).
Proof.
  revert s; induction fuel as [|fuel IH]; intros s.
  - left. reflexivity.
  - rewrite pressLoop_step.
    destruct (rangeKeyEvents _ _ _) as [[[|] ev]|] eqn:Hr.
    + left. reflexivity.
    + right. split; [reflexivity|].
      destruct (rangeKeyEvents_hold _ _ _ _ Hr) as (b & Hb & Hp).
      exists s, b. split; [lia|split; assumption].
    + destruct (IH (S s)) as [H|(H & i & b & Hi & Hb & Hp)]; [left; exact H|].
      right. split; [exact H|]. exists i, b. split; [lia|split; assumption].
Qed.

Lemma Press_keys (km : KeyManager) (k : Key) :
  km_keyEvents (fst (Press km k)) = km_keyEvents km
  /\ km_count (fst (Press km k)) = km_count km
  /\ (km_keys (fst (Press km k)) = []
      \/ (km_keys (fst (Press km k)) = km_keys km ++ [k]
          /\ exists i b, heldBy (fst (Press km k)) i b)).
Proof.
  unfold Press. set (km1 := setKeys km (km_keys km ++ [k])).
  assert (Hshape : forall fuel s,
             km_keyEvents (fst (pressLoop km1 fuel s)) = km_keyEvents km
             /\ km_count (fst (pressLoop km1 fuel s)) = km_count km).
  { induction fuel as [|fuel IH]; intros s; [split; reflexivity|].
    rewrite pressLoop_step.
    destruct (rangeKeyEvents _ _ _) as [[[|] ev]|]; try (split; reflexivity). apply IH. }
  destruct (Hshape (List.length (km_keys km1)) O) as [H1 H2].
  split; [exact H1|split; [exact H2|]].
  destruct (pressLoop_keys km1 (List.length (km_keys km1)) 0)
    as [H|(H & i & b & Hi & Hb & Hp)]; [left; exact H|].
  right. rewrite H. split; [reflexivity|].
  exists i, b. split; [lia|split; assumption].
Qed.

Lemma pressAll_snoc (km : KeyManager) (ks : list Key) (k : Key) :
  fst (pressAll km (ks ++ [k])) = fst (Press (fst (pressAll km ks)) k).
Proof.
  revert km; induction ks as [|a ks IH]; intros km; simpl.
  - destruct (Press km k). reflexivity.
  - destruct (Press km a) as [km1 ev]. specialize (IH km1).
    destruct (pressAll km1 (ks ++ [k])), (pressAll km1 ks). exact IH.
Qed.

Lemma pressAll_shape (km : KeyManager) (ks : list Key) :
  km_keyEvents (fst (pressAll km ks)) = km_keyEvents km
  /\ km_count (fst (pressAll km ks)) = km_count km.
Proof.
  revert km; induction ks as [|a ks IH]; intros km; simpl; [split; reflexivity|].
  destruct (Press_keys km a) as (H1 & H2 & _).
  destruct (Press km a) as [km1 ev]. specialize (IH km1).
  destruct (pressAll km1 ks). simpl in *. rewrite <- H1, <- H2. exact IH.
Qed.

(** C8, as the code has it.  After every call of [Press], in every
    sequence of calls, the pending sequence is empty, or one of its
    suffix-windows, once its count digits are stripped, is a strict prefix
    of a registered binding and therefore shorter than the longest binding.
    The pending sequence itself keeps the count digits and the tokens before
    that window. *)
Theorem pending_window_bounded (km : KeyManager) (ks : list Key) (k : Key) :
  let km' := fst (pressAll km (ks ++ [k])) in
  km_keys km' = []
  \/ exists i b,
       heldBy km' i b
       /\ In b (km_keyEvents km)
       /\ (List.length (windowRest km' (km_keys km') i) < longestBinding km)%nat.
Proof.
  intros km'. unfold km'. rewrite pressAll_snoc.
  destruct (pressAll_shape km ks) as [S1 S2].
  set (km0 := fst (pressAll km ks)) in *.
  destruct (Press_keys km0 k) as (H1 & H2 & [H|(H & i & b & Hh)]); [left; exact H|].
  right. exists i, b. split; [exact Hh|].
  destruct Hh as (Hi & Hb & Hp).
  rewrite H1, S1 in Hb. split; [exact Hb|].
  apply pendingMatch_length in Hp.
  assert (Hl := longestBinding_ge km b Hb). lia.
Qed.

(** C8 as stated fails: after "1","2","3" the default Normal-mode resolver
    holds three tokens, one more than its longest binding has. *)
Lemma pending_length_counterexample :
  ~ (forall (km : KeyManager) (ks : list Key),
        km_keys km = [] ->
        (List.length (km_keys (fst (pressAll km ks))) <= longestBinding km)%nat
        \/ km_keys (fst (pressAll km ks)) = []).
Proof.
  intros H. specialize (H normalKM ["1"; "2"; "3"]%string eq_refl).
  vm_compute in H. destruct H as [H|H]; [|discriminate H].
  repeat match type of H with
         | le (S _) (S _) => apply le_S_n in H
         end.
  inversion H.
Qed.

(** *** The default registry *)

Lemma load_store_same (h : Heap) (p : ptr) (km km0 : KeyManager) :
  load h p = Some km0 -> load (store h p km) p = Some km.
Proof.
  unfold load. revert p; induction h as [|x h IH]; intros [|p]; simpl; try discriminate.
  - reflexivity.
  - apply IH.
Qed.

Lemma load_store_other (h : Heap) (p q : ptr) (km : KeyManager) :
  p <> q -> load (store h p km) q = load h q.
Proof.
  unfold load. revert p q; induction h as [|x h IH]; intros [|p] [|q] H; simpl;
    try reflexivity; try contradiction.
  apply IH. congruence.
Qed.

Lemma store_load_id (h : Heap) (p : ptr) (km : KeyManager) :
  load h p = Some km -> store h p km = h.
Proof.
  unfold load. revert p; induction h as [|x h IH]; intros [|p]; simpl; try discriminate.
  - intros H; inversion H; reflexivity.
  - intros H. rewrite (IH p H). reflexivity.
Qed.

(** Pressing a key on one key manager leaves every other one as it is. *)
Lemma PressAt_frame (h : Heap) (p q : ptr) (k : Key) :
  p <> q -> load (fst (PressAt h p k)) q = load h q.
Proof.
  intros H. unfold PressAt. destruct (load h p) as [km|]; [|reflexivity].
  destruct (Press km k) as [km' ev]. simpl. apply load_store_other. exact H.
Qed.

Lemma rangeKeyEvents_single (kes : list keyEvent) (k : Key) (count : Z) :
  Forall (fun b => List.length (ke_keys b) = 1%nat) kes ->
  rangeKeyEvents kes [k] count = None
  \/ exists ev, rangeKeyEvents kes [k] count = Some (true, ev).
Proof.
  induction 1 as [|b kes Hb _ IH]; cbn [rangeKeyEvents]; [left; reflexivity|].
  destruct b as [[|a [|a' l]] e]; simpl in Hb; try discriminate.
  unfold cmp. simpl.
  destruct (String.eqb a k); simpl; [right; eexists; reflexivity|exact IH].
Qed.

(** A key manager without counting whose bindings are single tokens and
    with nothing pending has nothing pending after a key. *)
Lemma Press_single (km : KeyManager) (k : Key) :
  singleTokens km -> km_count km = false -> km_keys km = [] ->
  fst (Press km k) = km.
Proof.
  intros Hs Hc Hk. unfold Press. rewrite Hk. simpl app.
  change (List.length (km_keys (setKeys km [k]))) with 1%nat.
  rewrite pressLoop_step.
  change (km_keys (setKeys km [k])) with [k].
  change (km_keyEvents (setKeys km [k])) with (km_keyEvents km).
  assert (Hw : windowRest (setKeys km [k]) [k] 0 = [k]).
  { unfold windowRest, remainder. simpl. rewrite Hc. reflexivity. }
  assert (Hid : setKeys (setKeys km [k]) [] = km).
  { destruct km; simpl in *. subst. reflexivity. }
  rewrite Hw.
  destruct (rangeKeyEvents_single (km_keyEvents km) k
              (windowCount (setKeys km [k]) [k] 0) Hs) as [E|[ev E]];
    rewrite E; exact Hid.
Qed.

Lemma pressAllAt_single (h : Heap) (p : ptr) (km : KeyManager) (ks : list Key) :
  load h p = Some km ->
  singleTokens km -> km_count km = false -> km_keys km = [] ->
  fst (pressAllAt h p ks) = h.
Proof.
  intros Hl Hs Hc Hk. induction ks as [|k ks IH]; [reflexivity|].
  cbn [pressAllAt]. unfold PressAt. rewrite Hl.
  pose proof (Press_single km k Hs Hc Hk) as E.
  destruct (Press km k) as [km' ev]. simpl in E. subst km'.
  rewrite (store_load_id h p km Hl).
  destruct (pressAllAt h p ks) as [h2 evs]. exact IH.
Qed.

(** C9, as the code has it.  The default registry maps the four modes to
    three key managers: Normal and CommandLine have one each, Insert and
    Replace share one, with its bindings and its pending sequence.  The
    bindings of the shared key manager are single tokens and it does not
    count, so that no key pressed on it leaves anything pending: keys fed
    in Insert mode change neither the pending sequence nor the later
    results in Replace mode, and conversely.  A key pressed on one key
    manager leaves the key managers behind other pointers as they are. *)
Theorem registry_sharing :
  defaultModes ModeNormal = Some 0%nat
  /\ defaultModes ModeInsert = Some 1%nat
  /\ defaultModes ModeReplace = Some 1%nat
  /\ defaultModes ModeCmdline = Some 2%nat
  /\ (forall m p ks,
        m = ModeInsert \/ m = ModeReplace ->
        defaultModes m = Some p ->
        fst (pressAllAt defaultHeap p ks) = defaultHeap)
  /\ (forall p q ks ks',
        defaultModes ModeInsert = Some p ->
        defaultModes ModeReplace = Some q ->
        snd (pressAllAt (fst (pressAllAt defaultHeap p ks)) q ks')
        = snd (pressAllAt defaultHeap q ks')
        /\ snd (pressAllAt (fst (pressAllAt defaultHeap q ks)) p ks')
           = snd (pressAllAt defaultHeap p ks'))
  /\ (forall h p q k, p <> q -> load (fst (PressAt h p k)) q = load h q).
Proof.
  assert (Hshared : forall ks, fst (pressAllAt defaultHeap 1%nat ks) = defaultHeap).
  { intros ks.
    assert (Hl : exists km, load defaultHeap 1%nat = Some km /\ singleTokens km
                            /\ km_count km = false /\ km_keys km = []).
    { eexists. split; [vm_compute; reflexivity|].
      split; [|split; reflexivity].
      unfold singleTokens. simpl. repeat constructor. }
    destruct Hl as (km & Hl & Hs & Hc & Hk).
    exact (pressAllAt_single defaultHeap 1%nat km ks Hl Hs Hc Hk). }
  refine (conj _ (conj _ (conj _ (conj _ (conj _ (conj _ _)))))); try reflexivity.
  - intros m p ks [-> | ->] Hp; vm_compute in Hp; inversion Hp; subst p; apply Hshared.
  - intros p q ks ks' Hp Hq. vm_compute in Hp, Hq. inversion Hp; inversion Hq; subst p q.
    rewrite Hshared. split; reflexivity.
  - exact PressAt_frame.
Qed.

Lemma registry_sharing_witness :
  fst (pressAllAt defaultHeap 1%nat ["up"; "escape"; "1"]%string) = defaultHeap.
Proof.
  apply (proj1 (proj2 (proj2 (proj2 (proj2 registry_sharing)))) ModeInsert 1%nat).
  - left. reflexivity.
  - reflexivity.
Defined.

(** C9 as stated fails: Insert and Replace have the same key manager. *)
Lemma registry_independence_counterexample :
  ~ (forall m1 m2 p1 p2,
        m1 <> m2 ->
        defaultModes m1 = Some p1 -> defaultModes m2 = Some p2 ->
        p1 <> p2).
Proof.
  intros H.
  apply (H ModeInsert ModeReplace 1%nat 1%nat); [discriminate|reflexivity|reflexivity|reflexivity].
Qed.

(** What is configured through the Insert-mode pointer is the configuration
    of Replace mode too, and a chord begun in one mode is pending in the
    other. *)
Lemma shared_manager_observable :
  let h := RegisterAt defaultHeap 1%nat EventQuit ["Z"; "Q"]%string in
  managerOf h defaultModes ModeReplace <> managerOf defaultHeap defaultModes ModeReplace
  /\ option_map km_keys (managerOf (fst (PressAt h 1%nat "Z"%string)) defaultModes ModeReplace)
     = Some ["Z"%string].
Proof.
  split; [|vm_compute; reflexivity].
  vm_compute. intros H. inversion H.
Qed.

(** ** Jumps *)

Lemma jumpTo_unfold (w : Window) :
  jumpTo w =
  match readBytes w (readStart w) 100 with
  | None => w
  | Some (_, bytes) =>
      if runFound bytes
         && negb ((runValue bytes <=? 0) || (w_length w <=? runValue bytes))
      then jumped w (runValue bytes)
      else w
  end.
Proof.
  unfold jumpTo, readStart. change (Z.of_nat 50) with 50. change (2 * 50)%nat with 100%nat.
  destruct (readBytes w (MaxInt64 (w_cursor w -^ 50) 0) 100) as [[n bytes]|]; [|reflexivity].
  unfold runFound, runValue, runEnd, runStart, scanStop.
  change (100 - 50)%nat with 50%nat.
  destruct ((skipWhite bytes 100 50 50 =? 100)%nat
            || negb (isDigit (at_ bytes (skipWhite bytes 100 50 50)))); [reflexivity|].
  cbn [negb andb].
  destruct (skipDigits bytes 100 _ _ =? 100)%nat; [reflexivity|].
  cbn [negb andb].
  destruct ((_ <=? 0) || (w_length w <=? _)); reflexivity.
Qed.

Lemma jumpBack_push (w : Window) (st : list position) (c o : Z) :
  w_stack w = st ++ [mkPosition c o] ->
  jumpBack w = setStack (setOffset (setCursor w c) o) st.
Proof.
  intros H. unfold jumpBack. rewrite H, length_app, Nat.add_comm. cbn [List.length Nat.add].
  rewrite app_nth2 by lia. rewrite Nat.sub_diag. cbn [nth p_cursor p_offset].
  rewrite firstn_app, Nat.sub_diag, firstn_all. cbn [firstn]. rewrite app_nil_r.
  unfold setStack, setOffset, setCursor. simpl. reflexivity.
Qed.

Lemma jumpBack_jumped (w : Window) (v : Z) : jumpBack (jumped w v) = w.
Proof.
  rewrite (jumpBack_push _ (w_stack w) (w_cursor w) (w_offset w)) by reflexivity.
  destruct w; reflexivity.
Qed.

Lemma jumpTo_cases (w : Window) :
  jumpTo w = w \/ exists v, jumpTo w = jumped w v.
Proof.
  rewrite jumpTo_unfold.
  destruct (readBytes w (readStart w) 100) as [[n bytes]|]; [|left; reflexivity].
  destruct (_ && _); [right; eexists; reflexivity|left; reflexivity].
Qed.

Lemma jumped_neq (w : Window) (v : Z) : jumped w v <> w.
Proof.
  intros H. apply (f_equal w_stack) in H. simpl in H.
  apply (f_equal (@List.length position)) in H. rewrite length_app in H. simpl in H. lia.
Qed.

Lemma jumpTo_valid (w : Window) :
  validAddress w -> jumpTo w = jumped w (addressFound w).
Proof.
  intros (n & bytes & Hr & Hf & Hv). unfold addressFound.
  rewrite jumpTo_unfold, Hr, Hf. cbn [snd].
  assert (E : (runValue bytes <=? 0) || (w_length w <=? runValue bytes) = false).
  { apply orb_false_iff. split; apply Z.leb_gt; lia. }
  rewrite E. reflexivity.
Qed.

Lemma jumpTo_changed (w : Window) : jumpTo w <> w -> validAddress w.
Proof.
  intros Hne. rewrite jumpTo_unfold in Hne. unfold validAddress.
  destruct (readBytes w (readStart w) 100) as [[n bytes]|]; [|contradiction].
  destruct (runFound bytes) eqn:Hf; [|contradiction].
  destruct ((runValue bytes <=? 0) || (w_length w <=? runValue bytes)) eqn:Hv;
    [contradiction|].
  apply orb_false_iff in Hv. destruct Hv as [Hv1 Hv2]. apply Z.leb_gt in Hv1, Hv2.
  exists n, bytes. split; [reflexivity|]. split; [exact Hf|]. lia.
Qed.

Lemma iter_succ (A : Type) (n : nat) (f : A -> A) (x : A) :
  iter (S n) f x = f (iter n f x).
Proof.
  revert x; induction n as [|n IH]; intros x; [reflexivity|].
  change (iter (S (S n)) f x) with (iter (S n) f (f x)). rewrite IH. reflexivity.
Qed.

(** C5. A jump that finds a valid address, that is whose read succeeds and
    whose scan finds a digit run of a value [v] with [0 < v < length],
    moves the cursor to [v] and pushes the pair (cursor, offset) it leaves,
    nothing else, onto the jump stack; the jump back that follows pops that
    pair and restores the state, cursor and offset as they were; [n] nested
    jumps that each find a valid address are undone by [n] jumps back, last
    in first out: each jump back restores the top pair and removes it; on
    an empty stack a jump back changes nothing.  A jump changes the state
    exactly when it finds a valid address. *)
Theorem jump_round_trip :
  (forall w, validAddress w ->
     w_stack (jumpTo w) = w_stack w ++ [mkPosition (w_cursor w) (w_offset w)]
     /\ w_cursor (jumpTo w) = addressFound w
     /\ jumpTo w <> w)
  /\ (forall w, validAddress w -> jumpBack (jumpTo w) = w)
  /\ (forall w st c o, w_stack w = st ++ [mkPosition c o] ->
        w_cursor (jumpBack w) = c /\ w_offset (jumpBack w) = o
        /\ w_stack (jumpBack w) = st)
  /\ (forall n w,
        (forall i, (i < n)%nat -> validAddress (iter i jumpTo w)) ->
        iter n jumpBack (iter n jumpTo w) = w)
  /\ (forall w, w_stack w = [] -> jumpBack w = w)
  /\ (forall w, jumpTo w <> w <-> validAddress w).
Proof.
  refine (conj _ (conj _ (conj _ (conj _ (conj _ _))))).
  - intros w Hv. rewrite (jumpTo_valid w Hv).
    split; [reflexivity|]. split; [reflexivity|]. apply jumped_neq.
  - intros w Hv. rewrite (jumpTo_valid w Hv). apply jumpBack_jumped.
  - intros w st c o H. rewrite (jumpBack_push w st c o H). repeat split.
  - induction n as [|n IH]; intros w H; [reflexivity|].
    rewrite (iter_succ _ n jumpTo w). cbn [iter].
    rewrite (jumpTo_valid _ (H n ltac:(lia))), jumpBack_jumped.
    apply IH. intros i Hi. apply H. lia.
  - intros w H. unfold jumpBack. rewrite H. reflexivity.
  - intros w. split; [apply jumpTo_changed|].
    intros Hv. rewrite (jumpTo_valid w Hv). apply jumped_neq.
Qed.

Lemma jump_round_trip_witness :
  jumpBack (jumpTo (sampleWindow 48 52 400)) = sampleWindow 48 52 400.
Proof.
  apply (proj1 (proj2 jump_round_trip)).
  unfold validAddress. eexists. eexists.
  split; [vm_compute; reflexivity|].
  split; [vm_compute; reflexivity|].
  vm_compute. split; reflexivity.
Defined.

Lemma ParseInt_error (s : string) :
  snd (ParseInt s) = false ->
  fst (ParseInt s) = 0 \/ fst (ParseInt s) = Int64.max_int64
  \/ fst (ParseInt s) = Int64.min_int64.
Proof.
  unfold ParseInt. destruct s as [|c s]; [left; reflexivity|].
  cbv zeta.
  set (body := if ((c =? "-")%char || (c =? "+")%char) then s else String c s).
  destruct body as [|c' s']; [left; reflexivity|].
  destruct (parseDigits 0 (String c' s')) as [un|]; [|left; reflexivity].
  destruct (negb (c =? "-")%char && (Int64.max_int64 <? un));
    [right; left; reflexivity|].
  destruct ((c =? "-")%char && (- Int64.min_int64 <? un));
    [right; right; reflexivity|].
  simpl. discriminate.
Qed.

(** C6. [jumpTo] moves the cursor, and pushes the pair it leaves, only when
    the digit run it finds parses to a value [v] with [0 < v < length];
    when the read fails, when no digit run is found, when the run does not
    parse or its value is out of range, [jumpTo] returns the state it was
    given: cursor, offset and jump stack are unchanged, and nothing is
    reported. *)
Theorem jumpTo_valid_or_unchanged (w : Window) :
  (jumpTo w <> w ->
     exists n bytes,
       readBytes w (readStart w) 100 = Some (n, bytes)
       /\ runFound bytes = true
       /\ 0 < runValue bytes < w_length w
       /\ jumpTo w = jumped w (runValue bytes)
       /\ w_cursor (jumpTo w) = runValue bytes
       /\ w_stack (jumpTo w) = w_stack w ++ [mkPosition (w_cursor w) (w_offset w)])
  /\ (readBytes w (readStart w) 100 = None -> jumpTo w = w)
  /\ (forall n bytes,
        readBytes w (readStart w) 100 = Some (n, bytes) ->
        runFound bytes = false -> jumpTo w = w)
  /\ (forall n bytes,
        readBytes w (readStart w) 100 = Some (n, bytes) ->
        runValue bytes <= 0 \/ w_length w <= runValue bytes -> jumpTo w = w)
  /\ (forall n bytes,
        readBytes w (readStart w) 100 = Some (n, bytes) ->
        w_length w <= Int64.max_int64 ->
        snd (ParseInt (sliceString bytes (runStart bytes) (runEnd bytes))) = false ->
        jumpTo w = w).
Proof.
  assert (Hout : forall n bytes,
             readBytes w (readStart w) 100 = Some (n, bytes) ->
             runValue bytes <= 0 \/ w_length w <= runValue bytes -> jumpTo w = w).
  { intros n bytes Hr Hv. rewrite jumpTo_unfold, Hr.
    assert (E : (runValue bytes <=? 0) || (w_length w <=? runValue bytes) = true).
    { apply orb_true_iff. destruct Hv; [left|right]; apply Z.leb_le; assumption. }
    rewrite E, andb_false_r. reflexivity. }
  refine (conj _ (conj _ (conj _ (conj Hout _)))).
  - intros Hne. rewrite jumpTo_unfold in Hne |- *.
    destruct (readBytes w (readStart w) 100) as [[n bytes]|]; [|contradiction].
    destruct (runFound bytes) eqn:Hf; [|contradiction].
    destruct ((runValue bytes <=? 0) || (w_length w <=? runValue bytes)) eqn:Hv;
      [contradiction|].
    apply orb_false_iff in Hv. destruct Hv as [Hv1 Hv2].
    apply Z.leb_gt in Hv1, Hv2.
    exists n, bytes. cbn [andb negb]. repeat split; try reflexivity; assumption.
  - intros Hr. rewrite jumpTo_unfold, Hr. reflexivity.
  - intros n bytes Hr Hf. rewrite jumpTo_unfold, Hr, Hf. reflexivity.
  - intros n bytes Hr Hl Herr. apply (Hout n bytes Hr). unfold runValue.
    destruct (ParseInt_error _ Herr) as [E|[E|E]]; rewrite E;
      unfold Int64.max_int64, Int64.min_int64 in *; lia.
Qed.

Lemma jumpTo_valid_or_unchanged_witness :
  jumpTo (mkWindow brokenBuffer 10 16 0 0 400 [] ModeNormal)
  = mkWindow brokenBuffer 10 16 0 0 400 [] ModeNormal
  /\ jumpTo (sampleWindow 48 52 399) = sampleWindow 48 52 399.
Proof.
  split.
  - apply (proj1 (proj2 (jumpTo_valid_or_unchanged _))). reflexivity.
  - apply (proj1 (proj2 (proj2 (proj2 (jumpTo_valid_or_unchanged _))))
             100%nat (snd (match readBytes (sampleWindow 48 52 399) 2 100 with
                         | Some r => r | None => (O, []) end))).
    + vm_compute. reflexivity.
    + right. vm_compute. discriminate.
Defined.

(** *** The scan of [jumpTo] *)

Lemma skipWhite_spec (bytes : list byte) (s2 n i : nat) :
  (i <= s2)%nat -> (s2 - i <= n)%nat ->
  let r := skipWhite bytes s2 n i in
  (i <= r <= s2)%nat
  /\ (forall k, (i <= k < r)%nat -> isWhite (at_ bytes k) = true)
  /\ ((r < s2)%nat -> isWhite (at_ bytes r) = false).
Proof.
  revert i; induction n as [|n IH]; intros i Hi Hn; cbn [skipWhite].
  - assert (i = s2) by lia. subst. repeat split; try lia; intros; lia.
  - destruct (Nat.ltb_spec i s2) as [Hlt|Hge]; cbn [andb].
    + destruct (isWhite (at_ bytes i)) eqn:Hw.
      * destruct (IH (S i)) as (H1 & H2 & H3); [lia|lia|].
        split; [lia|]. split; [|exact H3].
        intros k Hk. destruct (Nat.eq_dec k i) as [->|Hne]; [exact Hw|].
        apply H2. lia.
      * repeat split; try lia. intros _. exact Hw.
    + repeat split; try lia; intros; lia.
Qed.

Lemma skipDigits_spec (bytes : list byte) (s2 n j : nat) :
  (j <= s2)%nat -> (s2 - j <= n)%nat ->
  let r := skipDigits bytes s2 n j in
  (j <= r <= s2)%nat
  /\ (forall k, (j <= k < r)%nat -> isDigit (at_ bytes k) = true)
  /\ ((r < s2)%nat -> isDigit (at_ bytes r) = false).
Proof.
  revert j; induction n as [|n IH]; intros j Hj Hn; cbn [skipDigits].
  - assert (j = s2) by lia. subst. repeat split; try lia; intros; lia.
  - destruct (Nat.ltb_spec j s2) as [Hlt|Hge]; cbn [andb].
    + destruct (isDigit (at_ bytes j)) eqn:Hw.
      * destruct (IH (S j)) as (H1 & H2 & H3); [lia|lia|].
        split; [lia|]. split; [|exact H3].
        intros k Hk. destruct (Nat.eq_dec k j) as [->|Hne]; [exact Hw|].
        apply H2. lia.
      * repeat split; try lia. intros _. exact Hw.
    + repeat split; try lia; intros; lia.
Qed.

Lemma backDigits_spec (bytes : list byte) (i : nat) :
  let r := backDigits bytes i in
  (r <= i)%nat
  /\ (forall k, (r <= k < i)%nat -> isDigit (at_ bytes k) = true)
  /\ (forall r', r = S r' -> isDigit (at_ bytes r') = false).
Proof.
  induction i as [|i IH]; cbn [backDigits].
  - split; [lia|split; [intros; lia|intros; discriminate]].
  - destruct (isDigit (at_ bytes i)) eqn:Hd.
    + destruct IH as (H1 & H2 & H3). split; [lia|]. split; [|exact H3].
      intros k Hk. destruct (Nat.eq_dec k i) as [->|Hne]; [exact Hd|]. apply H2. lia.
    + split; [lia|split; [intros; lia|]].
      intros r' Hr. inversion Hr; subst. exact Hd.
Qed.

Lemma isDigit_not_white (b : byte) : isDigit b = true -> isWhite b = false.
Proof.
  unfold isDigit, isWhite. set (n := Z.of_N (Strings.Byte.to_N b)).
  intros H. apply andb_true_iff in H. destruct H as [H1 H2].
  apply Z.leb_le in H1, H2.
  repeat match goal with
         | |- context [?x =? ?y] => destruct (Z.eqb_spec x y); [lia|]
         end.
  reflexivity.
Qed.

(** The scan stops at the first byte from index 50 on that is not white. *)
Lemma scanStop_spec (bytes : list byte) :
  (50 <= scanStop bytes <= 100)%nat
  /\ (forall k, (50 <= k < scanStop bytes)%nat -> isWhite (at_ bytes k) = true)
  /\ ((scanStop bytes < 100)%nat -> isWhite (at_ bytes (scanStop bytes)) = false).
Proof. apply (skipWhite_spec bytes 100 50 50); lia. Qed.

Lemma scanStop_at (bytes : list byte) (i0 : nat) :
  (50 <= i0 < 100)%nat ->
  (forall k, (50 <= k < i0)%nat -> isWhite (at_ bytes k) = true) ->
  isWhite (at_ bytes i0) = false ->
  scanStop bytes = i0.
Proof.
  intros Hi Hw Hn. destruct (scanStop_spec bytes) as (H1 & H2 & H3).
  destruct (Nat.lt_trichotomy (scanStop bytes) i0) as [Hlt|[Heq|Hgt]].
  - rewrite Hw in H3 by lia. specialize (H3 ltac:(lia)). discriminate.
  - exact Heq.
  - rewrite H2 in Hn by lia. discriminate.
Qed.

Lemma runFound_white (bytes : list byte) :
  (forall k, (50 <= k < 100)%nat -> isWhite (at_ bytes k) = true) ->
  runFound bytes = false.
Proof.
  intros Hw. destruct (scanStop_spec bytes) as (H1 & H2 & H3).
  assert (E : scanStop bytes = 100%nat).
  { destruct (Nat.eq_dec (scanStop bytes) 100) as [E|Hne]; [exact E|].
    rewrite Hw in H3 by lia. specialize (H3 ltac:(lia)). discriminate. }
  unfold runFound. rewrite E. reflexivity.
Qed.

Lemma runFound_edge (bytes : list byte) (i0 : nat) :
  (50 <= i0 < 100)%nat ->
  (forall k, (50 <= k < i0)%nat -> isWhite (at_ bytes k) = true) ->
  (forall k, (i0 <= k < 100)%nat -> isDigit (at_ bytes k) = true) ->
  runFound bytes = false.
Proof.
  intros Hi Hw Hd.
  assert (E : scanStop bytes = i0).
  { apply scanStop_at; [exact Hi|exact Hw|]. apply isDigit_not_white, Hd. lia. }
  unfold runFound, runEnd, runStart. rewrite E.
  destruct (backDigits_spec bytes i0) as (B1 & B2 & _).
  set (r := backDigits bytes i0) in *.
  destruct (skipDigits_spec bytes 100 (100 - r) r) as (S1 & S2 & S3); [lia|lia|].
  set (e := skipDigits bytes 100 (100 - r) r) in *.
  assert (Ee : e = 100%nat).
  { destruct (Nat.eq_dec e 100) as [Ee|Hne]; [exact Ee|].
    specialize (S3 ltac:(lia)).
    destruct (Nat.lt_ge_cases e i0) as [Hlt|Hge].
    - rewrite B2 in S3 by lia. discriminate.
    - rewrite Hd in S3 by lia. discriminate. }
  rewrite Ee. apply andb_false_r.
Qed.

Lemma runFound_other (bytes : list byte) :
  isWhite (at_ bytes 50) = false -> isDigit (at_ bytes 50) = false ->
  scanStop bytes = 50%nat /\ runFound bytes = false.
Proof.
  intros Hw Hd.
  assert (E : scanStop bytes = 50%nat).
  { apply scanStop_at; [lia|intros; lia|exact Hw]. }
  split; [exact E|]. unfold runFound. rewrite E, Hd. reflexivity.
Qed.

(** *** 64-bit arithmetic without overflow *)

Lemma wrap_fits (z : Z) : Int64.fits z -> Int64.wrap z = z.
Proof.
  unfold Int64.fits, Int64.min_int64, Int64.max_int64, Int64.wrap.
  change (2 ^ 63) with 9223372036854775808.
  change (2 ^ 64) with 18446744073709551616.
  intros H. rewrite Z.mod_small by lia. lia.
Qed.

Lemma MinInt64_min (x y : Z) : MinInt64 x y = Z.min x y.
Proof. unfold MinInt64. destruct (Z.ltb_spec x y); lia. Qed.

Lemma MaxInt64_max (x y : Z) : MaxInt64 x y = Z.max x y.
Proof. unfold MaxInt64. destruct (Z.ltb_spec x y); lia. Qed.

(** *** What [jumpTo] reads *)

Lemma readStart_max (w : Window) :
  0 <= w_cursor w <= Int64.max_int64 ->
  readStart w = Z.max (w_cursor w - 50) 0.
Proof.
  intros H. unfold readStart, Int64.sub. rewrite MaxInt64_max, wrap_fits; [reflexivity|].
  unfold Int64.fits, Int64.min_int64, Int64.max_int64 in *. lia.
Qed.

Lemma readBytes_length (w : Window) (pos : Z) (len n : nat) (bytes : list byte) :
  readBytes w pos len = Some (n, bytes) ->
  List.length bytes = len /\ (n <= len)%nat.
Proof.
  unfold readBytes. destruct (negb (buf_seek (w_buffer w) pos)); [discriminate|].
  destruct (buf_read (w_buffer w) pos len) as [got|]; [|discriminate].
  intros H; inversion H; subst; clear H.
  rewrite length_app, length_skipn, repeat_length.
  assert (Hl : (List.length (firstn len got) <= len)%nat) by apply firstn_le_length.
  split; lia.
Qed.

Lemma readBytes_bufferOf (w : Window) (data : list byte) (pos : Z) (len : nat) :
  w_buffer w = bufferOf data -> 0 <= pos ->
  exists n bytes,
    readBytes w pos len = Some (n, bytes)
    /\ forall k, (k < len)%nat -> at_ bytes k = nth (Z.to_nat pos + k) data x00.
Proof.
  intros Hb Hpos. unfold readBytes. rewrite Hb. cbn [bufferOf buf_seek buf_read negb].
  destruct (Z.ltb_spec pos 0) as [Hneg|_]; [lia|].
  eexists. eexists. split; [reflexivity|].
  intros k Hk. unfold at_.
  rewrite firstn_firstn, Nat.min_id.
  set (rest := skipn (Z.to_nat pos) data).
  assert (Hn : nth (Z.to_nat pos + k) data x00 = nth k rest x00).
  { unfold rest. rewrite nth_skipn. reflexivity. }
  rewrite Hn.
  destruct (Nat.lt_ge_cases k (List.length (firstn len rest))) as [Hlt|Hge].
  - rewrite app_nth1 by exact Hlt.
    rewrite length_firstn in Hlt. rewrite nth_firstn.
    destruct (Nat.ltb_spec k len); [reflexivity|lia].
  - rewrite app_nth2 by exact Hge. rewrite nth_skipn.
    rewrite length_firstn in Hge |- *.
    assert (Hrest : (List.length rest <= k)%nat) by lia.
    rewrite (nth_overflow rest) by exact Hrest.
    destruct (Nat.lt_ge_cases (Nat.min len (List.length rest) + (k - Nat.min len (List.length rest))) len) as [Hin|Hout].
    + apply nth_repeat_lt. exact Hin.
    + apply nth_overflow. rewrite repeat_length. exact Hout.
Qed.

Lemma jumpTo_setBuffer (w : Window) (b' : Buffer) :
  option_map snd (readBytes (setBuffer w b') (readStart w) 100)
  = option_map snd (readBytes w (readStart w) 100) ->
  jumpTo (setBuffer w b') = setBuffer (jumpTo w) b'.
Proof.
  intros H. rewrite !jumpTo_unfold.
  change (readStart (setBuffer w b')) with (readStart w).
  destruct (readBytes (setBuffer w b') (readStart w) 100) as [[n1 bytes1]|],
           (readBytes w (readStart w) 100) as [[n2 bytes2]|];
    simpl in H; try discriminate; [|reflexivity].
  inversion H; subst bytes2.
  change (w_length (setBuffer w b')) with (w_length w).
  destruct (runFound bytes1
            && negb ((runValue bytes1 <=? 0) || (w_length w <=? runValue bytes1)));
    [|reflexivity].
  unfold jumped, setBuffer.
  cbn [w_buffer w_height w_width w_offset w_cursor w_length w_stack w_mode].
  reflexivity.
Qed.

(** C10. [jumpTo] reads 100 bytes from the address max(cursor - 50, 0) on
    and its result depends on the buffer through these bytes only; the scan
    begins at the index 50 of the slice, the byte at the address
    max(cursor, 50) of the data, also when the cursor is below 50; when the
    byte there is neither white nor a digit nothing is found; when the white
    bytes skipped reach the right edge of the slice, or the digit run
    reaches it, nothing is found either. *)
Theorem jumpTo_scan_window (w : Window) :
  (0 <= w_cursor w <= Int64.max_int64 ->
     readStart w = Z.max (w_cursor w - 50) 0
     /\ readStart w + 50 = Z.max (w_cursor w) 50)
  /\ (forall n bytes,
        readBytes w (readStart w) 100 = Some (n, bytes) ->
        List.length bytes = 100%nat /\ (n <= 100)%nat
        /\ (50 <= scanStop bytes <= 100)%nat
        /\ (forall k, (50 <= k < scanStop bytes)%nat -> isWhite (at_ bytes k) = true))
  /\ (forall b',
        option_map snd (readBytes (setBuffer w b') (readStart w) 100)
        = option_map snd (readBytes w (readStart w) 100) ->
        jumpTo (setBuffer w b') = setBuffer (jumpTo w) b')
  /\ (forall data,
        w_buffer w = bufferOf data ->
        0 <= w_cursor w <= Int64.max_int64 ->
        exists n bytes,
          readBytes w (readStart w) 100 = Some (n, bytes)
          /\ at_ bytes 50 = nth (Z.to_nat (Z.max (w_cursor w) 50)) data x00)
  /\ (forall n bytes,
        readBytes w (readStart w) 100 = Some (n, bytes) ->
        isWhite (at_ bytes 50) = false -> isDigit (at_ bytes 50) = false ->
        scanStop bytes = 50%nat /\ jumpTo w = w)
  /\ (forall n bytes,
        readBytes w (readStart w) 100 = Some (n, bytes) ->
        (forall k, (50 <= k < 100)%nat -> isWhite (at_ bytes k) = true) ->
        jumpTo w = w)
  /\ (forall n bytes i0,
        readBytes w (readStart w) 100 = Some (n, bytes) ->
        (50 <= i0 < 100)%nat ->
        (forall k, (50 <= k < i0)%nat -> isWhite (at_ bytes k) = true) ->
        (forall k, (i0 <= k < 100)%nat -> isDigit (at_ bytes k) = true) ->
        jumpTo w = w)
  /\ w_cursor (jumpTo (sampleWindow 0 0 400)) = 399.
Proof.
  assert (Hnone : forall n bytes,
             readBytes w (readStart w) 100 = Some (n, bytes) ->
             runFound bytes = false -> jumpTo w = w).
  { intros n bytes Hr Hf. rewrite jumpTo_unfold, Hr, Hf. reflexivity. }
  refine (conj _ (conj _ (conj _ (conj _ (conj _ (conj _ (conj _ _))))))).
  - intros Hc. rewrite (readStart_max w Hc). split; lia.
  - intros n bytes Hr. destruct (readBytes_length _ _ _ _ _ Hr) as [H1 H2].
    destruct (scanStop_spec bytes) as (S1 & S2 & _).
    split; [exact H1|split; [exact H2|split; [exact S1|exact S2]]].
  - apply jumpTo_setBuffer.
  - intros data Hb Hc.
    assert (Hpos : 0 <= readStart w) by (rewrite (readStart_max w Hc); lia).
    destruct (readBytes_bufferOf w data (readStart w) 100 Hb Hpos) as (n & bytes & Hr & Hat).
    exists n, bytes. split; [exact Hr|].
    rewrite (Hat 50%nat) by lia. f_equal.
    rewrite (readStart_max w Hc). lia.
  - intros n bytes Hr Hw Hd. destruct (runFound_other bytes Hw Hd) as [E Hf].
    split; [exact E|exact (Hnone n bytes Hr Hf)].
  - intros n bytes Hr Hw. exact (Hnone n bytes Hr (runFound_white bytes Hw)).
  - intros n bytes i0 Hr Hi Hw Hd.
    exact (Hnone n bytes Hr (runFound_edge bytes i0 Hi Hw Hd)).
  - vm_compute. reflexivity.
Qed.

Lemma jumpTo_scan_window_witness :
  jumpTo (mkWindow (bufferOf (repeat x00 200)) 10 16 0 0 200 [] ModeNormal)
  = mkWindow (bufferOf (repeat x00 200)) 10 16 0 0 200 [] ModeNormal.
Proof.
  apply (proj1 (proj2 (proj2 (proj2 (proj2 (proj2 (jumpTo_scan_window _))))))
           100%nat (repeat x00 100)).
  - vm_compute. reflexivity.
  - intros k Hk.
    assert (E : at_ (repeat x00 100) k = x00).
    { unfold at_. apply nth_repeat_lt. lia. }
    rewrite E. reflexivity.
Defined.

(** ** Navigation: arithmetic without overflow

    Under the invariants of the state and [noOverflow] no operation of the
    navigation engine wraps around; the tactics of this section replace
    the 64-bit operations by the operations of [Z], innermost first, each
    under the proof that its result is an [int64]. *)

Lemma add_fits (a b : Z) : Int64.fits (a + b) -> a +^ b = a + b.
Proof. apply wrap_fits. Qed.

Lemma sub_fits (a b : Z) : Int64.fits (a - b) -> a -^ b = a - b.
Proof. apply wrap_fits. Qed.

Lemma mul_fits (a b : Z) : Int64.fits (a * b) -> a *^ b = a * b.
Proof. apply wrap_fits. Qed.

Lemma quo_div (a b : Z) : 0 <= a <= Int64.max_int64 -> 0 < b -> a /^ b = a / b.
Proof.
  intros Ha Hb. unfold Int64.quo. rewrite Z.quot_div_nonneg by lia.
  apply wrap_fits. unfold Int64.fits, Int64.min_int64, Int64.max_int64 in *.
  pose proof (Z.div_pos a b ltac:(lia) Hb).
  pose proof (Z.div_le_upper_bound a b a Hb ltac:(nia)). lia.
Qed.

Lemma rem_mod (a b : Z) : 0 <= a -> 0 < b -> a %^ b = a mod b.
Proof. intros. unfold Int64.rem. apply Z.rem_mod_nonneg; lia. Qed.

Ltac no_i64 t :=
  lazymatch t with
  | context [Int64.add _ _] => fail
  | context [Int64.sub _ _] => fail
  | context [Int64.mul _ _] => fail
  | context [Int64.quo _ _] => fail
  | context [Int64.rem _ _] => fail
  | _ => idtac
  end.

(** The two bounds of every quotient by a positive [d] in the goal and the
    hypotheses, and every remainder by [d] written with its quotient. *)
Ltac div_facts :=
  repeat match goal with
  | Hd : 0 < ?d |- context [?a mod ?d] => rewrite (Z.mod_eq a d) by lia
  | Hd : 0 < ?d, H : context [?a mod ?d] |- _ => rewrite (Z.mod_eq a d) in H by lia
  end;
  repeat match goal with
  | Hd : 0 < ?d |- context [?a / ?d] =>
      lazymatch goal with
      | _ : d * (a / d) <= a |- _ => fail
      | _ => pose proof (Z.mul_div_le a d Hd); pose proof (Z.mul_succ_div_gt a d Hd)
      end
  | Hd : 0 < ?d, H : context [?a / ?d] |- _ =>
      lazymatch goal with
      | _ : d * (a / d) <= a |- _ => fail
      | _ => pose proof (Z.mul_div_le a d Hd); pose proof (Z.mul_succ_div_gt a d Hd)
      end
  end.

Ltac solve_bound :=
  unfold Int64.fits, Int64.min_int64, Int64.max_int64 in *;
  div_facts; (lia || nia).

Ltac unwrap :=
  repeat match goal with
  | |- context [Int64.add ?a ?b] => no_i64 a; no_i64 b; rewrite (add_fits a b) by solve_bound
  | |- context [Int64.sub ?a ?b] => no_i64 a; no_i64 b; rewrite (sub_fits a b) by solve_bound
  | |- context [Int64.mul ?a ?b] => no_i64 a; no_i64 b; rewrite (mul_fits a b) by solve_bound
  | |- context [Int64.quo ?a ?b] => no_i64 a; no_i64 b; rewrite (quo_div a b) by solve_bound
  | |- context [Int64.rem ?a ?b] => no_i64 a; no_i64 b; rewrite (rem_mod a b) by solve_bound
  end.

Ltac fields :=
  cbn [w_buffer w_height w_width w_offset w_cursor w_length w_stack w_mode] in *.

(** The comparison of a conditional whose operands are free of 64-bit
    operations is decided both ways. *)
Ltac split_if :=
  match goal with
  | |- context [if ?a <=? ?b then _ else _] =>
      no_i64 a; no_i64 b; destruct (Z.leb_spec a b)
  | |- context [if ?a <? ?b then _ else _] =>
      no_i64 a; no_i64 b; destruct (Z.ltb_spec a b)
  | |- context [if ?a =? ?b then _ else _] =>
      no_i64 a; no_i64 b; destruct (Z.eqb_spec a b)
  end; fields.

Ltac open_state w H :=
  destruct w as [b h d o c L st m];
  destruct H as [Hd Hh HL Ho Ha Hc Hs];
  unfold noOverflow, contained, setCursor, setOffset in *; fields;
  rewrite Z.rem_mod_nonneg in Ha by lia.

Lemma stateInv_intro (b : Buffer) (h d o c L : Z) (st : list position) (m : Mode) :
  0 < d -> 0 < h -> 0 <= L -> 0 <= o -> o mod d = 0 ->
  0 <= c <= Z.max (L - 1) 0 -> o <= c < o + h * d ->
  stateInv (mkWindow b h d o c L st m).
Proof.
  intros. constructor; fields; try assumption.
  rewrite Z.rem_mod_nonneg by lia. assumption.
Qed.

(** *** Rows *)

Lemma row_le (d : Z) (Hd : 0 < d) (a : Z) : a / d * d <= a.
Proof. pose proof (Z.mul_div_le a d Hd). lia. Qed.

Lemma row_gt (d : Z) (Hd : 0 < d) (a : Z) : a < a / d * d + d.
Proof. pose proof (Z.mul_succ_div_gt a d Hd). lia. Qed.

Lemma row_nonneg (d : Z) (Hd : 0 < d) (a : Z) : 0 <= a -> 0 <= a / d * d.
Proof. intros Ha. pose proof (Z.div_pos a d Ha Hd). nia. Qed.

Lemma row_aligned (d : Z) (Hd : 0 < d) (a : Z) : (a / d * d) mod d = 0.
Proof. apply Z_mod_mult. Qed.

Lemma row_mod (d : Z) (Hd : 0 < d) (a : Z) : a / d * d = a - a mod d.
Proof. rewrite (Z.mod_eq a d) by lia. lia. Qed.

Lemma aligned_row (d : Z) (Hd : 0 < d) (o : Z) : o mod d = 0 -> o / d * d = o.
Proof. intros H. rewrite (row_mod d Hd), H. lia. Qed.

Lemma row_shift (d : Z) (Hd : 0 < d) (a k : Z) : (a + k * d) / d * d = a / d * d + k * d.
Proof. rewrite Z.div_add by lia. lia. Qed.

Lemma row_mono (d : Z) (Hd : 0 < d) (a b : Z) : a <= b -> a / d * d <= b / d * d.
Proof. intros H. pose proof (Z.div_le_mono a b d Hd H). nia. Qed.

Lemma aligned_le_row (d : Z) (Hd : 0 < d) (o a : Z) : o mod d = 0 -> o <= a -> o <= a / d * d.
Proof. intros Ho H. rewrite <- (aligned_row d Hd o Ho). apply (row_mono d Hd). exact H. Qed.

Lemma aligned_above (d : Z) (Hd : 0 < d) (o a : Z) : o mod d = 0 -> a < o -> a / d * d + d <= o.
Proof.
  intros Ho H. rewrite <- (aligned_row d Hd o Ho).
  assert (Hq : a / d < o / d).
  { apply Z.div_lt_upper_bound; [exact Hd|]. rewrite Z.mul_comm, (aligned_row d Hd o Ho). exact H. }
  nia.
Qed.

Lemma aligned_add (d : Z) (Hd : 0 < d) (a b : Z) : a mod d = 0 -> b mod d = 0 -> (a + b) mod d = 0.
Proof.
  intros Ha Hb. rewrite Z.add_mod by lia. rewrite Ha, Hb. reflexivity.
Qed.

Lemma aligned_sub (d : Z) (Hd : 0 < d) (a b : Z) : a mod d = 0 -> b mod d = 0 -> (a - b) mod d = 0.
Proof.
  intros Ha Hb. rewrite Zminus_mod. rewrite Ha, Hb. reflexivity.
Qed.

Lemma aligned_mul (d : Z) (Hd : 0 < d) (k : Z) : (k * d) mod d = 0.
Proof. apply Z_mod_mult. Qed.

Lemma mul_le_rows (d : Z) (Hd : 0 < d) (k m : Z) : k <= m -> k * d <= m * d.
Proof. intros. nia. Qed.

Lemma mul_lt_rows (d : Z) (Hd : 0 < d) (k m : Z) : k < m -> k * d + d <= m * d.
Proof. intros. nia. Qed.

(** Rounding up to rows: [ceilDiv] as the code computes it. *)
Lemma ceilDiv_code (d : Z) (Hd : 0 < d) (a : Z) : (a + d - 1) / d = ceilDiv a d.
Proof.
  unfold ceilDiv.
  pose proof (Z.mul_div_le (a + d - 1) d Hd). pose proof (Z.mul_succ_div_gt (a + d - 1) d Hd).
  pose proof (Z.mul_div_le (- a) d Hd). pose proof (Z.mul_succ_div_gt (- a) d Hd).
  nia.
Qed.

Lemma last_row (d : Z) (Hd : 0 < d) (a : Z) : ((a + d - 1) / d - 1) * d = (a - 1) / d * d.
Proof.
  replace (a + d - 1) with (a - 1 + 1 * d) by lia.
  rewrite Z.div_add by lia. lia.
Qed.

(** *** The shared tails *)

Lemma stateInv_preInv (w : Window) : stateInv w -> noOverflow w -> preInv w.
Proof.
  intros [Hd Hh HL Ho Ha Hc Hs] Hno. constructor; try assumption.
  rewrite Z.rem_mod_nonneg in Ha by lia. exact Ha.
Qed.

Lemma preInv_stateInv (w : Window) : preInv w -> contained w -> stateInv w.
Proof.
  intros [Hd Hh HL Hno Ho Ha Hc] Hs. constructor; try assumption.
  rewrite Z.rem_mod_nonneg by lia. exact Ha.
Qed.

Ltac open_pre w H :=
  destruct w as [b h d o c L st m];
  destruct H as [Hd Hh HL Hno Ho Ha Hc];
  unfold noOverflow, contained, offsetBounded, setCursor, setOffset in *; fields.

Ltac close_pre :=
  constructor; unfold noOverflow; fields; try assumption.

Lemma max0_rows (d x : Z) : 0 < d -> x * d <= Z.max x 0 * d /\ 0 <= Z.max x 0 * d.
Proof. intros. destruct (Z.max_spec x 0) as [[? ->]|[? ->]]; nia. Qed.

Lemma snapDown_inv (w : Window) :
  preInv w -> w_offset w <= w_cursor w ->
  preInv (snapDown w) /\ contained (snapDown w)
  /\ w_cursor (snapDown w) = w_cursor w
  /\ w_offset w <= w_offset (snapDown w)
  /\ (offsetBounded w -> offsetBounded (snapDown w)).
Proof.
  intros H Hoc. open_pre w H. unfold snapDown, setOffset; fields.
  assert (Hhd : d <= h * d) by nia.
  assert (HcL : c <= L) by lia.
  unwrap. split_if.
  - assert (E : (c - h * d + d) / d * d = c / d * d - (h - 1) * d).
    { replace (c - h * d + d) with (c + (1 - h) * d) by lia.
      rewrite (row_shift d Hd). lia. }
    assert (Hrow : o + h * d <= c / d * d).
    { apply (aligned_le_row d Hd); [|assumption].
      apply (aligned_add d Hd); [exact Ha|apply (aligned_mul d Hd)]. }
    pose proof (row_le d Hd c) as R1. pose proof (row_gt d Hd c) as R2.
    unwrap. rewrite E.
    assert (Hh1 : (h - 1) * d = h * d - d) by lia.
    split; [|split; [|split; [|split]]].
    + close_pre; try lia.
      apply (aligned_sub d Hd); [apply (row_aligned d Hd)|apply (aligned_mul d Hd)].
    + lia.
    + reflexivity.
    + lia.
    + intros [[_ Hb] _]. split.
      * split; [lia|].
        assert (HL1 : 1 <= L) by lia.
        pose proof (row_mono d Hd c (L - 1) ltac:(lia)) as Rm.
        rewrite <- (last_row d Hd L), (ceilDiv_code d Hd L) in Rm.
        pose proof (max0_rows d (ceilDiv L d - h) Hd) as [M1 M2].
        lia.
      * apply (aligned_sub d Hd); [apply (row_aligned d Hd)|apply (aligned_mul d Hd)].
  - split; [|split; [|split; [|split]]]; try reflexivity; try lia; try tauto.
    close_pre.
Qed.

Lemma snapUp_inv (w : Window) :
  preInv w -> w_cursor w < w_offset w + w_height w * w_width w ->
  preInv (snapUp w) /\ contained (snapUp w)
  /\ w_cursor (snapUp w) = w_cursor w
  /\ w_offset (snapUp w) <= w_offset w
  /\ (offsetBounded w -> offsetBounded (snapUp w)).
Proof.
  intros H Hoc. open_pre w H. unfold snapUp, setOffset; fields.
  assert (Hhd : d <= h * d) by nia.
  assert (HcL : c <= L) by lia.
  pose proof (row_le d Hd c) as R1. pose proof (row_gt d Hd c) as R2.
  pose proof (row_nonneg d Hd c ltac:(lia)) as R3.
  split_if.
  - unwrap.
    split; [|split; [|split; [|split]]].
    + close_pre; try lia. apply (row_aligned d Hd).
    + lia.
    + reflexivity.
    + lia.
    + intros [[_ Hb] _]. split; [lia|apply (row_aligned d Hd)].
  - split; [|split; [|split; [|split]]]; try reflexivity; try lia; try tauto.
    close_pre.
Qed.

(** *** Cursor motions *)

Lemma preInv_setCursor (w : Window) (c' : Z) :
  preInv w -> 0 <= c' <= Z.max (w_length w - 1) 0 -> preInv (setCursor w c').
Proof. intros H Hc'. open_pre w H. close_pre. Qed.

Lemma clamp_rows (d n q : Z) :
  0 < d -> 0 <= q -> 0 <= Z.min (Z.max n 1) q * d <= q * d.
Proof.
  intros Hd Hq.
  assert (0 <= Z.min (Z.max n 1) q <= q) by lia. nia.
Qed.

Ltac bounds := unfold Int64.fits, Int64.min_int64, Int64.max_int64 in *; lia.

(** A cursor moved up, then [snapUp]. *)
Lemma moveUp_inv (w : Window) (c' : Z) :
  preInv w -> contained w -> 0 <= c' <= w_cursor w ->
  let w' := snapUp (setCursor w c') in
  preInv w' /\ contained w' /\ w_cursor w' = c'
  /\ w_offset w' <= w_offset w
  /\ (offsetBounded w -> offsetBounded w').
Proof.
  intros H Hs Hc' w'. subst w'.
  assert (Hp : preInv (setCursor w c')).
  { apply preInv_setCursor; [exact H|]. destruct H. lia. }
  destruct (snapUp_inv (setCursor w c') Hp) as (I1 & I2 & I3 & I4 & I5).
  { destruct w; unfold contained, setCursor in *; fields. lia. }
  split; [exact I1|split; [exact I2|split; [|split]]].
  - rewrite I3. destruct w; reflexivity.
  - destruct w; exact I4.
  - intros Hb. apply I5. destruct w; exact Hb.
Qed.

(** A cursor moved down, then [snapDown]. *)
Lemma moveDown_inv (w : Window) (c' : Z) :
  preInv w -> contained w -> w_cursor w <= c' <= Z.max (w_length w - 1) 0 ->
  let w' := snapDown (setCursor w c') in
  preInv w' /\ contained w' /\ w_cursor w' = c'
  /\ w_offset w <= w_offset w'
  /\ (offsetBounded w -> offsetBounded w').
Proof.
  intros H Hs Hc' w'. subst w'.
  assert (Hp : preInv (setCursor w c')).
  { apply preInv_setCursor; [exact H|]. destruct H. lia. }
  destruct (snapDown_inv (setCursor w c') Hp) as (I1 & I2 & I3 & I4 & I5).
  { destruct w; unfold contained, setCursor in *; fields. lia. }
  split; [exact I1|split; [exact I2|split; [|split]]].
  - rewrite I3. destruct w; reflexivity.
  - destruct w; exact I4.
  - intros Hb. apply I5. destruct w; exact Hb.
Qed.

(** A cursor moved within its row. *)
Lemma moveRow_inv (w : Window) (c' : Z) :
  preInv w -> contained w ->
  w_cursor w - w_cursor w mod w_width w <= c'
    < w_cursor w - w_cursor w mod w_width w + w_width w ->
  c' <= Z.max (w_length w - 1) 0 ->
  let w' := setCursor w c' in
  preInv w' /\ contained w' /\ w_cursor w' = c' /\ w_offset w' = w_offset w
  /\ (offsetBounded w -> offsetBounded w').
Proof.
  intros H Hs Hrow Hc' w'. unfold w'. open_pre w H.
  rewrite <- (row_mod d Hd c) in Hrow.
  pose proof (aligned_le_row d Hd o c Ha ltac:(lia)) as R1.
  assert (R2 : c / d * d + d <= o + h * d).
  { apply (aligned_above d Hd); [|lia].
    apply (aligned_add d Hd); [exact Ha|apply (aligned_mul d Hd)]. }
  split; [close_pre; lia|]. split; [lia|]. split; [reflexivity|]. split; [reflexivity|tauto].
Qed.

Lemma cursorUp_eq (count : Z) (w : Window) :
  preInv w ->
  cursorUp count w
  = snapUp (setCursor w
      (w_cursor w - Z.min (Z.max count 1) (w_cursor w / w_width w) * w_width w)).
Proof.
  intros H. open_pre w H. unfold cursorUp, snapUp, setCursor, setOffset; fields.
  rewrite ?MinInt64_min, ?MaxInt64_max.
  pose proof (row_le d Hd c) as R1.
  pose proof (Z.div_pos c d ltac:(lia) Hd) as R3.
  pose proof (clamp_rows d count (c / d) Hd R3) as R4.
  rewrite (quo_div c d) by bounds.
  rewrite (mul_fits _ d) by bounds.
  rewrite (sub_fits c _) by bounds.
  reflexivity.
Qed.

Lemma cursorUp_inv (count : Z) (w : Window) :
  preInv w -> contained w ->
  preInv (cursorUp count w) /\ contained (cursorUp count w)
  /\ w_cursor (cursorUp count w)
     = w_cursor w - Z.min (Z.max count 1) (w_cursor w / w_width w) * w_width w
  /\ w_offset (cursorUp count w) <= w_offset w
  /\ (offsetBounded w -> offsetBounded (cursorUp count w)).
Proof.
  intros H Hs. rewrite (cursorUp_eq count w H).
  apply moveUp_inv; [exact H|exact Hs|].
  destruct H as [Hd Hh HL Hno Ho Ha Hc].
  pose proof (row_le (w_width w) Hd (w_cursor w)).
  pose proof (Z.div_pos (w_cursor w) (w_width w) ltac:(lia) Hd) as R3.
  pose proof (clamp_rows (w_width w) count _ Hd R3). lia.
Qed.

Lemma cursorPrev_eq (count : Z) (w : Window) :
  preInv w ->
  cursorPrev count w
  = snapUp (setCursor w (w_cursor w - Z.min (Z.max count 1) (w_cursor w))).
Proof.
  intros H. open_pre w H. unfold cursorPrev, snapUp, setCursor, setOffset; fields.
  rewrite ?MinInt64_min, ?MaxInt64_max.
  rewrite (sub_fits c _) by bounds.
  reflexivity.
Qed.

Lemma cursorPrev_inv (count : Z) (w : Window) :
  preInv w -> contained w ->
  preInv (cursorPrev count w) /\ contained (cursorPrev count w)
  /\ w_cursor (cursorPrev count w) = w_cursor w - Z.min (Z.max count 1) (w_cursor w)
  /\ w_offset (cursorPrev count w) <= w_offset w
  /\ (offsetBounded w -> offsetBounded (cursorPrev count w)).
Proof.
  intros H Hs. rewrite (cursorPrev_eq count w H).
  apply moveUp_inv; [exact H|exact Hs|].
  destruct H as [Hd Hh HL Hno Ho Ha Hc]. lia.
Qed.

(** The row of the last byte is no row before that of the cursor. *)
Lemma rows_left (d c L' : Z) :
  0 < d -> 0 <= c <= L' ->
  0 <= L' / d - c / d /\ (L' / d - c / d) * d <= L' - c + d.
Proof.
  intros Hd Hc.
  pose proof (Z.div_le_mono c L' d Hd ltac:(lia)).
  pose proof (row_le d Hd L'). pose proof (row_gt d Hd c). lia.
Qed.

Lemma cursorDown_eq (count : Z) (w : Window) :
  preInv w ->
  cursorDown count w
  = snapDown (setCursor w
      (w_cursor w
       + Z.min (Z.min (Z.max count 1)
                      ((Z.max (w_length w) 1 - 1) / w_width w - w_cursor w / w_width w)
                * w_width w)
               (Z.max (w_length w) 1 - 1 - w_cursor w))).
Proof.
  intros H. open_pre w H. unfold cursorDown, snapDown, setCursor, setOffset; fields.
  rewrite ?MinInt64_min, ?MaxInt64_max.
  set (L' := Z.max L 1 - 1). assert (HL' : L' = Z.max (L - 1) 0) by lia.
  assert (Hd1 : d <= h * d) by nia.
  pose proof (Z.div_pos c d ltac:(lia) Hd) as Q1.
  pose proof (Z.div_pos L' d ltac:(lia) Hd) as Q2.
  pose proof (row_le d Hd c) as R1. pose proof (row_le d Hd L') as R2.
  assert (Q3 : c / d <= c) by nia. assert (Q4 : L' / d <= L') by nia.
  destruct (rows_left d c L' Hd ltac:(lia)) as [Q5 Q6].
  pose proof (clamp_rows d count (L' / d - c / d) Hd Q5) as Q7.
  rewrite (sub_fits (Z.max L 1) 1) by bounds. fold L'.
  rewrite (quo_div L' d) by bounds.
  rewrite (quo_div c d) by bounds.
  rewrite (sub_fits (L' / d) (c / d)) by bounds.
  rewrite (mul_fits (Z.min (Z.max count 1) (L' / d - c / d)) d) by bounds.
  rewrite (sub_fits L' c) by bounds.
  rewrite (add_fits c _) by bounds.
  reflexivity.
Qed.

Lemma cursorDown_inv (count : Z) (w : Window) :
  preInv w -> contained w ->
  preInv (cursorDown count w) /\ contained (cursorDown count w)
  /\ w_cursor (cursorDown count w)
     = w_cursor w
       + Z.min (Z.min (Z.max count 1)
                      ((Z.max (w_length w) 1 - 1) / w_width w - w_cursor w / w_width w)
                * w_width w)
               (Z.max (w_length w) 1 - 1 - w_cursor w)
  /\ w_offset w <= w_offset (cursorDown count w)
  /\ (offsetBounded w -> offsetBounded (cursorDown count w)).
Proof.
  intros H Hs. rewrite (cursorDown_eq count w H).
  apply moveDown_inv; [exact H|exact Hs|].
  destruct H as [Hd Hh HL Hno Ho Ha Hc].
  destruct (rows_left (w_width w) (w_cursor w) (Z.max (w_length w) 1 - 1) Hd ltac:(lia))
    as [Q5 Q6].
  pose proof (clamp_rows (w_width w) count _ Hd Q5). lia.
Qed.

Lemma cursorNext_eq (count : Z) (w : Window) :
  preInv w ->
  cursorNext count w
  = snapDown (setCursor w
      (w_cursor w + Z.min (Z.max count 1) (Z.max (w_length w) 1 - 1 - w_cursor w))).
Proof.
  intros H. open_pre w H. unfold cursorNext, snapDown, setCursor, setOffset; fields.
  rewrite ?MinInt64_min, ?MaxInt64_max.
  assert (Hd1 : d <= h * d) by nia.
  rewrite (sub_fits (Z.max L 1) 1) by bounds.
  rewrite (sub_fits _ c) by bounds.
  rewrite (add_fits c _) by bounds.
  reflexivity.
Qed.

Lemma cursorNext_inv (count : Z) (w : Window) :
  preInv w -> contained w ->
  preInv (cursorNext count w) /\ contained (cursorNext count w)
  /\ w_cursor (cursorNext count w)
     = w_cursor w + Z.min (Z.max count 1) (Z.max (w_length w) 1 - 1 - w_cursor w)
  /\ w_offset w <= w_offset (cursorNext count w)
  /\ (offsetBounded w -> offsetBounded (cursorNext count w)).
Proof.
  intros H Hs. rewrite (cursorNext_eq count w H).
  apply moveDown_inv; [exact H|exact Hs|].
  destruct H as [Hd Hh HL Hno Ho Ha Hc]. lia.
Qed.

Lemma cursorEnd_eq (count : Z) (w : Window) :
  preInv w ->
  Z.max count 1 * w_width w + w_length w <= Int64.max_int64 ->
  cursorEnd count w
  = snapDown (setCursor w
      (Z.min ((w_cursor w / w_width w + Z.max count 1) * w_width w - 1)
             (Z.max (w_length w) 1 - 1))).
Proof.
  intros H Hn. open_pre w H. unfold cursorEnd, snapDown, setCursor, setOffset; fields.
  rewrite ?MinInt64_min, ?MaxInt64_max.
  pose proof (Z.div_pos c d ltac:(lia) Hd) as Q1.
  pose proof (row_le d Hd c) as R1.
  assert (Q3 : c / d <= c) by nia.
  assert (Q4 : Z.max count 1 <= Z.max count 1 * d) by nia.
  rewrite (quo_div c d) by bounds.
  rewrite (add_fits (c / d) _) by bounds.
  rewrite (mul_fits (c / d + Z.max count 1) d) by bounds.
  rewrite (sub_fits _ 1) by bounds.
  rewrite (sub_fits (Z.max L 1) 1) by bounds.
  reflexivity.
Qed.

Lemma cursorEnd_inv (count : Z) (w : Window) :
  preInv w -> contained w ->
  Z.max count 1 * w_width w + w_length w <= Int64.max_int64 ->
  preInv (cursorEnd count w) /\ contained (cursorEnd count w)
  /\ w_cursor (cursorEnd count w)
     = Z.min ((w_cursor w / w_width w + Z.max count 1) * w_width w - 1)
             (Z.max (w_length w) 1 - 1)
  /\ w_offset w <= w_offset (cursorEnd count w)
  /\ (offsetBounded w -> offsetBounded (cursorEnd count w)).
Proof.
  intros H Hs Hn. rewrite (cursorEnd_eq count w H Hn).
  apply moveDown_inv; [exact H|exact Hs|].
  destruct H as [Hd Hh HL Hno Ho Ha Hc].
  pose proof (row_gt (w_width w) Hd (w_cursor w)).
  assert (w_width w <= Z.max count 1 * w_width w) by nia. lia.
Qed.

Lemma cursorLeft_inv (count : Z) (w : Window) :
  preInv w -> contained w ->
  preInv (cursorLeft count w) /\ contained (cursorLeft count w)
  /\ w_cursor (cursorLeft count w)
     = w_cursor w - Z.min (Z.max count 1) (w_cursor w mod w_width w)
  /\ w_offset (cursorLeft count w) = w_offset w
  /\ (offsetBounded w -> offsetBounded (cursorLeft count w)).
Proof.
  intros H Hs.
  assert (E : cursorLeft count w
              = setCursor w (w_cursor w - Z.min (Z.max count 1) (w_cursor w mod w_width w))).
  { unfold cursorLeft. rewrite ?MinInt64_min, ?MaxInt64_max.
    destruct H as [Hd Hh HL Hno Ho Ha Hc]. unfold noOverflow in Hno.
    pose proof (Z.mod_pos_bound (w_cursor w) (w_width w) Hd).
    rewrite (rem_mod (w_cursor w) (w_width w)) by lia.
    rewrite sub_fits; [reflexivity|]. assert (w_width w <= w_height w * w_width w) by nia.
    bounds. }
  rewrite E. apply moveRow_inv; [exact H|exact Hs| |].
  - destruct H as [Hd Hh HL Hno Ho Ha Hc].
    pose proof (Z.mod_pos_bound (w_cursor w) (w_width w) Hd). lia.
  - destruct H as [Hd Hh HL Hno Ho Ha Hc].
    pose proof (Z.mod_pos_bound (w_cursor w) (w_width w) Hd). lia.
Qed.

Lemma cursorRight_inv (count : Z) (w : Window) :
  preInv w -> contained w ->
  preInv (cursorRight count w) /\ contained (cursorRight count w)
  /\ w_cursor (cursorRight count w)
     = w_cursor w
       + Z.min (Z.min (Z.max count 1) (w_width w - 1 - w_cursor w mod w_width w))
               (Z.max (w_length w) 1 - 1 - w_cursor w)
  /\ w_offset (cursorRight count w) = w_offset w
  /\ (offsetBounded w -> offsetBounded (cursorRight count w)).
Proof.
  intros H Hs.
  assert (Hm : 0 <= w_cursor w mod w_width w < w_width w).
  { destruct H as [Hd Hh HL Hno Ho Ha Hc]. apply Z.mod_pos_bound. exact Hd. }
  assert (E : cursorRight count w
              = setCursor w
                  (w_cursor w
                   + Z.min (Z.min (Z.max count 1) (w_width w - 1 - w_cursor w mod w_width w))
                           (Z.max (w_length w) 1 - 1 - w_cursor w))).
  { unfold cursorRight. rewrite ?MinInt64_min, ?MaxInt64_max.
    destruct H as [Hd Hh HL Hno Ho Ha Hc]. unfold noOverflow in Hno.
    assert (w_width w <= w_height w * w_width w) by nia.
    rewrite (rem_mod (w_cursor w) (w_width w)) by lia.
    rewrite (sub_fits (w_width w) 1) by bounds.
    rewrite (sub_fits (w_width w - 1) _) by bounds.
    rewrite (sub_fits (Z.max (w_length w) 1) 1) by bounds.
    rewrite (sub_fits (Z.max (w_length w) 1 - 1) _) by bounds.
    rewrite add_fits; [reflexivity|]. bounds. }
  rewrite E. apply moveRow_inv; [exact H|exact Hs| |].
  - destruct H as [Hd Hh HL Hno Ho Ha Hc]. lia.
  - destruct H as [Hd Hh HL Hno Ho Ha Hc]. lia.
Qed.

Lemma cursorHead_inv (count : Z) (w : Window) :
  preInv w -> contained w ->
  preInv (cursorHead count w) /\ contained (cursorHead count w)
  /\ w_cursor (cursorHead count w) = w_cursor w - w_cursor w mod w_width w
  /\ w_offset (cursorHead count w) = w_offset w
  /\ (offsetBounded w -> offsetBounded (cursorHead count w)).
Proof.
  intros H Hs.
  assert (Hm : 0 <= w_cursor w mod w_width w < w_width w).
  { destruct H as [Hd Hh HL Hno Ho Ha Hc]. apply Z.mod_pos_bound. exact Hd. }
  assert (E : cursorHead count w = setCursor w (w_cursor w - w_cursor w mod w_width w)).
  { unfold cursorHead.
    destruct H as [Hd Hh HL Hno Ho Ha Hc]. unfold noOverflow in Hno.
    assert (w_width w <= w_height w * w_width w) by nia.
    rewrite (rem_mod (w_cursor w) (w_width w)) by lia.
    rewrite sub_fits; [reflexivity|]. bounds. }
  rewrite E. apply moveRow_inv; [exact H|exact Hs| |].
  - lia.
  - destruct H as [Hd Hh HL Hno Ho Ha Hc]. lia.
Qed.

(** *** Scrolling *)

Lemma scrollUp_inv (count : Z) (w : Window) :
  preInv w -> contained w ->
  preInv (scrollUp count w) /\ contained (scrollUp count w)
  /\ w_offset (scrollUp count w)
     = w_offset w - Z.min (Z.max count 1) (w_offset w / w_width w) * w_width w
  /\ w_cursor (scrollUp count w) <= w_cursor w
  /\ (w_cursor w < w_offset (scrollUp count w) + w_height w * w_width w ->
      w_cursor (scrollUp count w) = w_cursor w)
  /\ (offsetBounded w -> offsetBounded (scrollUp count w)).
Proof.
  intros H Hs. open_pre w H. unfold scrollUp, setCursor, setOffset; fields.
  rewrite ?MinInt64_min, ?MaxInt64_max.
  assert (Hd1 : d <= h * d) by nia.
  pose proof (Z.div_pos o d ltac:(lia) Hd) as Q1.
  pose proof (aligned_row d Hd o Ha) as R1.
  pose proof (clamp_rows d count (o / d) Hd Q1) as Q2.
  rewrite (quo_div o d) by bounds.
  rewrite (mul_fits (Z.min (Z.max count 1) (o / d)) d) by bounds.
  rewrite (sub_fits o _) by bounds.
  set (k := Z.min (Z.max count 1) (o / d)) in *.
  assert (Ha' : (o - k * d) mod d = 0).
  { apply (aligned_sub d Hd); [exact Ha|apply (aligned_mul d Hd)]. }
  set (o' := o - k * d) in *.
  assert (Ho' : 0 <= o' <= o) by (unfold o'; lia).
  rewrite (mul_fits h d) by bounds.
  rewrite (add_fits o' _) by bounds.
  split_if.
  - set (e := c - o' - h * d).
    pose proof (row_le d Hd e) as E1. pose proof (row_gt d Hd e) as E2.
    pose proof (row_nonneg d Hd e ltac:(unfold e; lia)) as E3.
    assert (Q3 : 0 <= e / d) by (apply Z.div_pos; [unfold e; lia|exact Hd]).
    assert (Q4 : e / d <= e) by nia.
    rewrite (sub_fits c o') by bounds.
    rewrite (sub_fits (c - o') _) by bounds. fold e.
    rewrite (quo_div e d) by (unfold e in *; bounds).
    rewrite (add_fits (e / d) 1) by (unfold e in *; bounds).
    rewrite (mul_fits (e / d + 1) d) by (unfold e in *; bounds).
    rewrite (sub_fits c _) by (unfold e in *; bounds).
    unfold e in *.
    split; [close_pre; lia|]. split; [lia|]. split; [reflexivity|].
    split; [lia|]. split; [lia|].
    intros [[_ Hb] _]. split; [lia|exact Ha'].
  - split; [close_pre; lia|]. split; [lia|]. split; [reflexivity|].
    split; [lia|]. split; [reflexivity|].
    intros [[_ Hb] _]. split; [lia|exact Ha'].
Qed.

Lemma quot_self (d a : Z) : 0 < d -> 0 <= a -> 0 <= a / d <= a.
Proof.
  intros Hd Ha. pose proof (Z.div_pos a d Ha Hd). pose proof (Z.mul_div_le a d Hd). nia.
Qed.

(** The number of rows of the data, counting one row for empty data, as
    [scrollDown] rounds it up. *)
Lemma rows_code (d L : Z) :
  0 < d -> 0 <= L ->
  let R := (Z.max L 1 + d - 1) / d in
  (R - 1) * d <= Z.max L 1 - 1 < R * d /\ 1 <= R
  /\ (1 <= L -> R = ceilDiv L d) /\ ceilDiv 0 d = 0.
Proof.
  intros Hd HL R. unfold R.
  pose proof (last_row d Hd (Z.max L 1)) as E.
  pose proof (row_le d Hd (Z.max L 1 - 1)). pose proof (row_gt d Hd (Z.max L 1 - 1)).
  assert (0 <= (Z.max L 1 - 1) / d) by (apply Z.div_pos; lia).
  assert (E2 : (Z.max L 1 + d - 1) / d = (Z.max L 1 - 1) / d + 1).
  { replace (Z.max L 1 + d - 1) with (Z.max L 1 - 1 + 1 * d) by lia.
    rewrite Z.div_add by lia. reflexivity. }
  rewrite E2. split; [lia|]. split; [lia|]. split.
  - intros HL1. rewrite <- (ceilDiv_code d Hd L). rewrite <- E2.
    replace (Z.max L 1) with L by lia. reflexivity.
  - unfold ceilDiv. change (- 0) with 0. rewrite Z.div_0_l by lia. reflexivity.
Qed.

Lemma scrollDown_inv (count : Z) (w : Window) :
  preInv w -> contained w ->
  let hh := (Z.max (w_length w) 1 + w_width w - 1) / w_width w - w_height w in
  contained (scrollDown count w)
  /\ w_offset (scrollDown count w)
     = w_offset w + Z.min (Z.max count 1) (hh - w_offset w / w_width w) * w_width w
  /\ 0 <= w_cursor (scrollDown count w) <= Z.max (w_length w - 1) 0
  /\ w_cursor w <= w_cursor (scrollDown count w)
  /\ (w_offset (scrollDown count w) <= w_cursor w ->
      w_cursor (scrollDown count w) = w_cursor w)
  /\ (0 <= hh -> preInv (scrollDown count w))
  /\ (0 <= hh -> offsetBounded w -> offsetBounded (scrollDown count w)).
Proof.
  intros H Hs hh. subst hh. open_pre w H. unfold scrollDown, setCursor, setOffset; fields.
  rewrite ?MinInt64_min, ?MaxInt64_max.
  assert (Hd1 : d <= h * d) by (clear - Hd Hh; nia).
  destruct (rows_code d L Hd HL) as (R1 & R2 & R3 & R4).
  set (R := (Z.max L 1 + d - 1) / d) in *.
  pose proof (Z.div_pos o d ltac:(lia) Hd) as Q1.
  pose proof (aligned_row d Hd o Ha) as A1.
  assert (RL : R <= Z.max L 1) by (clear - R1 R2 Hd; nia).
  rewrite (add_fits (Z.max L 1) d) by bounds.
  rewrite (sub_fits (Z.max L 1 + d) 1) by bounds.
  rewrite (quo_div (Z.max L 1 + d - 1) d) by bounds. fold R.
  assert (Qh : h <= h * d) by (clear - Hd Hh; nia).
  assert (Qo : o / d <= o) by (apply (quot_self d o Hd Ho)).
  rewrite (sub_fits R h) by bounds.
  rewrite (quo_div o d) by bounds.
  rewrite (sub_fits (R - h) (o / d)) by bounds.
  set (k := Z.min (Z.max count 1) (R - h - o / d)).
  assert (Hk : k <= R - h - o / d) by (unfold k; lia).
  assert (Hk1 : k * d <= (R - h - o / d) * d) by (apply (mul_le_rows d Hd); exact Hk).
  assert (Hk2 : (R - h - o / d) * d = R * d - h * d - o) by lia.
  assert (Hk3 : 0 <= k * d \/ k = R - h - o / d).
  { destruct (Z.le_gt_cases 0 k) as [Hp|Hn]; [left; clear - Hp Hd; nia|right; unfold k in *; lia]. }
  assert (Hk4 : k * d <= 0 \/ d <= k * d).
  { destruct (Z.le_gt_cases k 0) as [Hp|Hn]; [left; clear - Hp Hd; nia|right; clear - Hn Hd; nia]. }
  rewrite (mul_fits k d) by (destruct Hk3 as [?|E]; [|rewrite E in *]; bounds).
  rewrite (add_fits o (k * d)) by (destruct Hk3 as [?|E]; [|rewrite E in *]; bounds).
  assert (Ha' : (o + k * d) mod d = 0).
  { apply (aligned_add d Hd); [exact Ha|apply (aligned_mul d Hd)]. }
  set (o' := o + k * d) in *.
  assert (Ho1 : o' <= R * d - h * d) by (unfold o'; lia).
  assert (Ho2 : o <= o' \/ o' = R * d - h * d).
  { destruct Hk3 as [?|E]; [left; unfold o'; lia|right; unfold o'; rewrite E; lia]. }
  assert (Ho3 : - (h * d) <= o').
  { destruct Ho2; lia. }
  assert (Hpre : 0 <= R - h -> 0 <= o').
  { intros Hr. destruct Ho2 as [?|E]; [lia|]. rewrite E.
    assert (0 <= (R - h) * d) by (clear - Hr Hd; nia). lia. }
  assert (Hbound : 0 <= R - h ->
                   o' <= Z.max (ceilDiv L d - h) 0 * d).
  { intros Hr. pose proof (max0_rows d (ceilDiv L d - h) Hd) as [M1 M2].
    destruct (Z.le_gt_cases 1 L) as [HL1|HL0].
    - rewrite <- (R3 HL1) in *. lia.
    - assert (L = 0) by lia. subst L. rewrite R4 in *.
      assert (R = 1) by (clear - R1 R2 Hd; nia). assert (h = 1) by lia. subst. lia. }
  split_if.
  - assert (Hoo : o < o') by lia.
    clear Hk3 Hk4 Ho2 Hk Hk1 Hk2 Ho3 A1 Q1 Qo.
    set (e := o' - c + d - 1).
    pose proof (row_le d Hd e) as E1. pose proof (row_gt d Hd e) as E2.
    pose proof (quot_self d e Hd ltac:(unfold e; lia)) as Q3.
    rewrite (sub_fits o' c) by bounds.
    rewrite (add_fits (o' - c) d) by bounds.
    rewrite (sub_fits (o' - c + d) 1) by bounds. fold e.
    rewrite (quo_div e d) by (unfold e in *; bounds).
    rewrite (mul_fits (e / d) d) by (unfold e in *; bounds).
    rewrite (sub_fits (Z.max L 1) 1) by bounds.
    rewrite (sub_fits (Z.max L 1 - 1) c) by bounds.
    rewrite (add_fits c _) by (unfold e in *; bounds).
    assert (E3 : o' - c <= e / d * d).
    { replace e with ((o' - c - 1) + 1 * d) by (unfold e; lia).
      rewrite (row_shift d Hd). pose proof (row_gt d Hd (o' - c - 1)). lia. }
    unfold e in *.
    split; [lia|]. split; [reflexivity|]. split; [lia|]. split; [lia|].
    split; [intros; lia|]. split.
    + intros Hr. specialize (Hpre Hr). close_pre; lia.
    + intros Hr [[_ Hb] _]. specialize (Hpre Hr). specialize (Hbound Hr).
      split; [lia|exact Ha'].
  - split; [destruct Ho2; lia|]. split; [reflexivity|]. split; [lia|]. split; [lia|].
    split; [reflexivity|]. split.
    + intros Hr. specialize (Hpre Hr). close_pre; lia.
    + intros Hr [[_ Hb] _]. specialize (Hpre Hr). specialize (Hbound Hr).
      split; [lia|exact Ha'].
Qed.

(** *** Pages *)

Lemma rows_ge (d h : Z) : 0 < d -> 0 < h -> d <= h * d.
Proof. intros. nia. Qed.

Lemma max_rows (d x : Z) : 0 < d -> Z.max (x * d) 0 = Z.max x 0 * d.
Proof. intros. destruct (Z.max_spec x 0) as [[? ->]|[? ->]]; nia. Qed.

Lemma aligned_max0 (d x : Z) : 0 < d -> x mod d = 0 -> (Z.max x 0) mod d = 0.
Proof.
  intros Hd Hx. destruct (Z.max_spec x 0) as [[? ->]|[? ->]]; [|exact Hx].
  apply Z.mod_0_l. lia.
Qed.

Lemma aligned_min (d x y : Z) : x mod d = 0 -> y mod d = 0 -> (Z.min x y) mod d = 0.
Proof. intros Hx Hy. destruct (Z.min_spec x y) as [[? ->]|[? ->]]; assumption. Qed.

(** The offset of the last page is the upper bound of [offsetBounded]. *)
Lemma lastPage_eq (w : Window) :
  preInv w ->
  lastPage w = Z.max (ceilDiv (w_length w) (w_width w) - w_height w) 0 * w_width w.
Proof.
  intros H. open_pre w H. unfold lastPage; fields. rewrite ?MaxInt64_max.
  pose proof (rows_ge d h Hd Hh) as Hd1.
  pose proof (quot_self d (L + d - 1) Hd ltac:(lia)) as Q1.
  pose proof (row_le d Hd (L + d - 1)) as Q2.
  assert (Q3 : h <= h * d) by (clear - Hd Hh; nia).
  rewrite (add_fits L d) by bounds.
  rewrite (sub_fits (L + d) 1) by bounds.
  rewrite (quo_div (L + d - 1) d) by bounds.
  rewrite (sub_fits _ h) by bounds.
  rewrite (mul_fits _ d) by bounds.
  rewrite (ceilDiv_code d Hd L). apply max_rows. exact Hd.
Qed.

Lemma lastPage_range (w : Window) :
  preInv w ->
  0 <= lastPage w <= Z.max (w_length w - 1) 0
  /\ (lastPage w) mod (w_width w) = 0
  /\ lastPage w <= (Z.max (w_length w) 1 - 1) / w_width w * w_width w
       < lastPage w + w_height w * w_width w.
Proof.
  intros H. rewrite (lastPage_eq w H). open_pre w H.
  destruct (rows_code d L Hd HL) as (R1 & R2 & R3 & R4).
  pose proof (last_row d Hd (Z.max L 1)) as E. rewrite <- E.
  set (R := (Z.max L 1 + d - 1) / d) in *.
  pose proof (max0_rows d (ceilDiv L d - h) Hd) as [M1 M2].
  pose proof (rows_ge d h Hd Hh) as Hd1.
  rewrite <- (max_rows d _ Hd) in *.
  assert (A : (Z.max ((ceilDiv L d - h) * d) 0) mod d = 0).
  { apply (aligned_max0 d _ Hd). apply (aligned_mul d Hd). }
  destruct (Z.le_gt_cases 1 L) as [HL1|HL0].
  - rewrite <- (R3 HL1) in *.
    assert (0 <= (R - 1) * d) by (clear - R2 Hd; nia).
    split; [lia|]. split; [exact A|]. lia.
  - assert (L = 0) by lia. subst L. rewrite R4 in *.
    assert (R = 1) by (clear - R1 R2 Hd; nia).
    assert (E0 : Z.max ((0 - h) * d) 0 = 0) by lia.
    rewrite E0 in *. split; [lia|]. split; [exact A|]. lia.
Qed.

Lemma offsetBounded_lastPage (w : Window) :
  preInv w ->
  (offsetBounded w <-> 0 <= w_offset w <= lastPage w).
Proof.
  intros H. rewrite (lastPage_eq w H). unfold offsetBounded.
  destruct H as [Hd Hh HL Hno Ho Ha Hc]. tauto.
Qed.

Lemma preInv_setOffset (w : Window) (o' : Z) :
  preInv w -> 0 <= o' -> o' mod w_width w = 0 -> preInv (setOffset w o').
Proof. intros H Ho' Ha'. open_pre w H. close_pre. Qed.

Lemma pageCursorUp_inv (w : Window) :
  preInv w -> w_offset w <= w_cursor w ->
  preInv (pageCursorUp w) /\ contained (pageCursorUp w)
  /\ w_offset (pageCursorUp w) = w_offset w
  /\ w_cursor (pageCursorUp w) <= w_cursor w.
Proof.
  intros H Hoc. open_pre w H. unfold pageCursorUp, setCursor; fields.
  pose proof (rows_ge d h Hd Hh) as Hd1.
  split_if.
  - split; [close_pre; lia|]. split; [lia|]. split; [reflexivity|lia].
  - rewrite (mul_fits h d) by bounds.
    rewrite (add_fits o (h * d)) by bounds.
    split_if.
    + assert (E : (h - 1) * d = h * d - d) by lia.
      rewrite (sub_fits h 1) by (clear - Hh Hd Hno Hd1 HL; assert (h <= h * d) by nia; bounds).
      rewrite (mul_fits (h - 1) d) by bounds.
      rewrite (add_fits o _) by bounds.
      split; [close_pre; lia|]. split; [lia|]. split; [reflexivity|lia].
    + split; [close_pre; lia|]. split; [lia|]. split; [reflexivity|lia].
Qed.

Lemma pageCursorDown_inv (w : Window) :
  preInv w ->
  w_offset w <= lastPage w ->
  (w_offset w <= w_cursor w ->
   w_cursor w < w_offset w + w_height w * w_width w \/ w_offset w = lastPage w) ->
  preInv (pageCursorDown (lastPage w) w) /\ contained (pageCursorDown (lastPage w) w)
  /\ w_offset (pageCursorDown (lastPage w) w) = w_offset w.
Proof.
  intros H Hlp Hcase.
  destruct (lastPage_range w H) as (P1 & P2 & P3).
  set (LP := lastPage w) in *. clearbody LP.
  open_pre w H. unfold pageCursorDown, setCursor; fields. rewrite ?MaxInt64_max.
  pose proof (rows_ge d h Hd Hh) as Hd1.
  destruct (rows_code d L Hd HL) as (R1 & R2 & R3 & R4).
  pose proof (last_row d Hd (Z.max L 1)) as E.
  set (R := (Z.max L 1 + d - 1) / d) in *.
  assert (RL : 1 <= R <= Z.max L 1) by (clear - R1 R2 Hd; nia).
  split_if.
  - split; [close_pre; lia|]. split; [lia|]. reflexivity.
  - split_if.
    + rewrite (add_fits (Z.max L 1) d) by bounds.
      rewrite (sub_fits (Z.max L 1 + d) 1) by bounds.
      rewrite (quo_div (Z.max L 1 + d - 1) d) by bounds. fold R.
      rewrite (sub_fits R 1) by bounds.
      rewrite (mul_fits (R - 1) d) by bounds.
      rewrite E in *.
      split; [close_pre; lia|]. split; [lia|]. reflexivity.
    + split; [close_pre; lia|]. split; [lia|]. reflexivity.
Qed.

Lemma pageUp_tail (w : Window) :
  pageUp w
  = pageCursorUp (setOffset w
      (MaxInt64 (w_offset w -^ (w_height w -^ 2) *^ w_width w) 0)).
Proof.
  destruct w. unfold pageUp, pageCursorUp, pageCursorDown, lastPage, setOffset, setCursor.
  fields. reflexivity.
Qed.

Lemma pageUpHalf_tail (w : Window) :
  pageUpHalf w
  = pageCursorUp (setOffset w
      (MaxInt64 (w_offset w -^ MaxInt64 (w_height w /^ 2) 1 *^ w_width w) 0)).
Proof.
  destruct w. unfold pageUpHalf, pageCursorUp, pageCursorDown, lastPage, setOffset, setCursor.
  fields. reflexivity.
Qed.

Lemma pageDown_tail (w : Window) :
  pageDown w
  = pageCursorDown (lastPage w) (setOffset w
      (MinInt64 (w_offset w +^ (w_height w -^ 2) *^ w_width w) (lastPage w))).
Proof.
  destruct w. unfold pageDown, pageCursorUp, pageCursorDown, lastPage, setOffset, setCursor.
  fields. reflexivity.
Qed.

Lemma pageDownHalf_tail (w : Window) :
  pageDownHalf w
  = pageCursorDown (lastPage w) (setOffset w
      (MinInt64 (w_offset w +^ MaxInt64 (w_height w /^ 2) 1 *^ w_width w) (lastPage w))).
Proof.
  destruct w. unfold pageDownHalf, pageCursorUp, pageCursorDown, lastPage, setOffset, setCursor.
  fields. reflexivity.
Qed.

Lemma lastPage_setOffset (w : Window) (o' : Z) : lastPage (setOffset w o') = lastPage w.
Proof. destruct w. unfold lastPage, setOffset. fields. reflexivity. Qed.

Lemma pageCursorUp_shape (w : Window) : sameShape w (pageCursorUp w).
Proof.
  unfold pageCursorUp, sameShape. destruct w; unfold setCursor; fields.
  repeat match goal with |- context [if ?b then _ else _] => destruct b end;
    fields; repeat split; reflexivity.
Qed.

Lemma pageCursorDown_shape (offset : Z) (w : Window) :
  sameShape w (pageCursorDown offset w).
Proof.
  unfold pageCursorDown, sameShape. destruct w; unfold setCursor; fields.
  repeat match goal with |- context [if ?b then _ else _] => destruct b end;
    fields; repeat split; reflexivity.
Qed.

Lemma offsetBounded_shape (w w' : Window) :
  sameShape w w' ->
  (offsetBounded w' <->
   (0 <= w_offset w'
      <= Z.max (ceilDiv (w_length w) (w_width w) - w_height w) 0 * w_width w
    /\ w_offset w' mod w_width w = 0)).
Proof. intros (E1 & E2 & E3). unfold offsetBounded. rewrite E1, E2, E3. tauto. Qed.

Lemma lastPage_shape (w w' : Window) : sameShape w w' -> lastPage w' = lastPage w.
Proof. intros (E1 & E2 & E3). unfold lastPage. rewrite E1, E2, E3. reflexivity. Qed.

(** An offset moved up by [k] rows, not below 0, then [pageCursorUp]. *)
Lemma pageUpBy_inv (w : Window) (k : Z) :
  preInv w -> contained w -> 0 <= k ->
  let w' := pageCursorUp (setOffset w (Z.max (w_offset w - k * w_width w) 0)) in
  preInv w' /\ contained w'
  /\ w_offset w' = Z.max (w_offset w - k * w_width w) 0
  /\ w_cursor w' <= w_cursor w
  /\ (offsetBounded w -> offsetBounded w').
Proof.
  intros H Hs Hk w'. subst w'.
  assert (Hkd : 0 <= k * w_width w).
  { destruct H as [Hd Hh HL Hno Ho Ha Hc]. clear - Hk Hd. nia. }
  assert (Ha' : (Z.max (w_offset w - k * w_width w) 0) mod w_width w = 0).
  { destruct H as [Hd Hh HL Hno Ho Ha Hc]. apply (aligned_max0 _ _ Hd).
    apply (aligned_sub _ Hd); [exact Ha|apply (aligned_mul _ Hd)]. }
  set (o1 := Z.max (w_offset w - k * w_width w) 0) in *.
  assert (Ho1 : 0 <= o1 <= w_offset w) by (destruct H; unfold o1; lia).
  assert (Hp : preInv (setOffset w o1)).
  { apply preInv_setOffset; [exact H|lia|exact Ha']. }
  destruct (pageCursorUp_inv (setOffset w o1) Hp) as (I1 & I2 & I3 & I4).
  { destruct w; unfold contained, setOffset in *; fields. lia. }
  split; [exact I1|]. split; [exact I2|]. split; [rewrite I3; destruct w; reflexivity|].
  split; [destruct w; exact I4|].
  intros Hb.
  assert (Hsh : sameShape w (pageCursorUp (setOffset w o1))).
  { destruct (pageCursorUp_shape (setOffset w o1)) as (E1 & E2 & E3).
    unfold sameShape. rewrite E1, E2, E3. destruct w; repeat split; reflexivity. }
  apply (offsetBounded_shape _ _ Hsh). rewrite I3.
  replace (w_offset (setOffset w o1)) with o1 by (destruct w; reflexivity).
  destruct Hb as [[_ Hb] _]. split; [lia|exact Ha'].
Qed.

Lemma pageUp_inv (w : Window) :
  preInv w -> contained w -> 2 <= w_height w ->
  preInv (pageUp w) /\ contained (pageUp w)
  /\ w_offset (pageUp w) = Z.max (w_offset w - (w_height w - 2) * w_width w) 0
  /\ w_cursor (pageUp w) <= w_cursor w
  /\ (offsetBounded w -> offsetBounded (pageUp w)).
Proof.
  intros H Hs H2. rewrite pageUp_tail, MaxInt64_max.
  assert (E : w_offset w -^ (w_height w -^ 2) *^ w_width w
              = w_offset w - (w_height w - 2) * w_width w).
  { open_pre w H. pose proof (rows_ge d h Hd Hh) as Hd1.
    assert (0 <= (h - 2) * d <= h * d) by (clear - H2 Hd; nia).
    assert (h <= h * d) by (clear - Hh Hd; nia).
    rewrite (sub_fits h 2) by bounds.
    rewrite (mul_fits (h - 2) d) by bounds.
    rewrite (sub_fits o _) by bounds. reflexivity. }
  rewrite E. apply pageUpBy_inv; [exact H|exact Hs|lia].
Qed.

Lemma half_page (h : Z) : 0 < h -> 1 <= Z.max (h / 2) 1 <= h.
Proof. intros Hh. pose proof (quot_self 2 h ltac:(lia) ltac:(lia)). lia. Qed.

Lemma pageUpHalf_inv (w : Window) :
  preInv w -> contained w ->
  preInv (pageUpHalf w) /\ contained (pageUpHalf w)
  /\ w_offset (pageUpHalf w)
     = Z.max (w_offset w - Z.max (w_height w / 2) 1 * w_width w) 0
  /\ w_cursor (pageUpHalf w) <= w_cursor w
  /\ (offsetBounded w -> offsetBounded (pageUpHalf w)).
Proof.
  intros H Hs. rewrite pageUpHalf_tail, !MaxInt64_max.
  assert (E : w_offset w -^ Z.max (w_height w /^ 2) 1 *^ w_width w
              = w_offset w - Z.max (w_height w / 2) 1 * w_width w).
  { open_pre w H. pose proof (rows_ge d h Hd Hh) as Hd1.
    pose proof (half_page h Hh) as Hk.
    assert (h <= h * d) by (clear - Hh Hd; nia).
    assert (0 <= Z.max (h / 2) 1 * d <= h * d) by (clear - Hk Hd; nia).
    rewrite (quo_div h 2) by bounds.
    rewrite (mul_fits _ d) by bounds.
    rewrite (sub_fits o _) by bounds. reflexivity. }
  rewrite E. apply pageUpBy_inv; [exact H|exact Hs|].
  destruct H as [Hd Hh HL Hno Ho Ha Hc]. pose proof (half_page _ Hh). lia.
Qed.

(** An offset moved down by [k] rows, not beyond the last page, then
    [pageCursorDown]. *)
Lemma pageDownBy_inv (w : Window) (k : Z) :
  preInv w -> contained w -> 0 <= k ->
  let w' := pageCursorDown (lastPage w)
              (setOffset w (Z.min (w_offset w + k * w_width w) (lastPage w))) in
  preInv w' /\ contained w'
  /\ w_offset w' = Z.min (w_offset w + k * w_width w) (lastPage w)
  /\ offsetBounded w'.
Proof.
  intros H Hs Hk w'. subst w'.
  destruct (lastPage_range w H) as (P1 & P2 & P3).
  assert (Hkd : 0 <= k * w_width w).
  { destruct H as [Hd Hh HL Hno Ho Ha Hc]. clear - Hk Hd. nia. }
  assert (Ha' : (Z.min (w_offset w + k * w_width w) (lastPage w)) mod w_width w = 0).
  { destruct H as [Hd Hh HL Hno Ho Ha Hc]. apply aligned_min; [|exact P2].
    apply (aligned_add _ Hd); [exact Ha|apply (aligned_mul _ Hd)]. }
  set (o1 := Z.min (w_offset w + k * w_width w) (lastPage w)) in *.
  assert (Ho1 : 0 <= o1 <= lastPage w) by (destruct H; unfold o1; lia).
  assert (Ho2 : o1 = lastPage w \/ w_offset w <= o1) by (unfold o1; lia).
  assert (Hp : preInv (setOffset w o1)).
  { apply preInv_setOffset; [exact H|lia|exact Ha']. }
  pose proof (pageCursorDown_inv (setOffset w o1) Hp) as I.
  rewrite lastPage_setOffset in I.
  destruct I as (I1 & I2 & I3).
  { destruct w; unfold setOffset; fields. lia. }
  { destruct w; unfold contained, setOffset in *; fields. intros _.
    destruct Ho2 as [->|Hle]; [right; reflexivity|left; lia]. }
  split; [exact I1|]. split; [exact I2|].
  assert (E : w_offset (pageCursorDown (lastPage w) (setOffset w o1)) = o1).
  { rewrite I3. destruct w; reflexivity. }
  split; [exact E|].
  apply (offsetBounded_lastPage _ I1). rewrite E.
  assert (EL : lastPage (pageCursorDown (lastPage w) (setOffset w o1)) = lastPage w).
  { rewrite (lastPage_shape (setOffset w o1)); [apply lastPage_setOffset|].
    apply pageCursorDown_shape. }
  rewrite EL. exact Ho1.
Qed.

Lemma pageDown_inv (w : Window) :
  preInv w -> contained w -> 2 <= w_height w ->
  preInv (pageDown w) /\ contained (pageDown w)
  /\ w_offset (pageDown w)
     = Z.min (w_offset w + (w_height w - 2) * w_width w) (lastPage w)
  /\ offsetBounded (pageDown w).
Proof.
  intros H Hs H2. rewrite pageDown_tail, MinInt64_min.
  assert (E : w_offset w +^ (w_height w -^ 2) *^ w_width w
              = w_offset w + (w_height w - 2) * w_width w).
  { open_pre w H. pose proof (rows_ge d h Hd Hh) as Hd1.
    assert (0 <= (h - 2) * d <= h * d) by (clear - H2 Hd; nia).
    assert (h <= h * d) by (clear - Hh Hd; nia).
    rewrite (sub_fits h 2) by bounds.
    rewrite (mul_fits (h - 2) d) by bounds.
    rewrite (add_fits o _) by bounds. reflexivity. }
  rewrite E. apply pageDownBy_inv; [exact H|exact Hs|lia].
Qed.

Lemma pageDownHalf_inv (w : Window) :
  preInv w -> contained w ->
  preInv (pageDownHalf w) /\ contained (pageDownHalf w)
  /\ w_offset (pageDownHalf w)
     = Z.min (w_offset w + Z.max (w_height w / 2) 1 * w_width w) (lastPage w)
  /\ offsetBounded (pageDownHalf w).
Proof.
  intros H Hs. rewrite pageDownHalf_tail, MinInt64_min, MaxInt64_max.
  assert (E : w_offset w +^ Z.max (w_height w /^ 2) 1 *^ w_width w
              = w_offset w + Z.max (w_height w / 2) 1 * w_width w).
  { open_pre w H. pose proof (rows_ge d h Hd Hh) as Hd1.
    pose proof (half_page h Hh) as Hk.
    assert (h <= h * d) by (clear - Hh Hd; nia).
    assert (0 <= Z.max (h / 2) 1 * d <= h * d) by (clear - Hk Hd; nia).
    rewrite (quo_div h 2) by bounds.
    rewrite (mul_fits _ d) by bounds.
    rewrite (add_fits o _) by bounds. reflexivity. }
  rewrite E. apply pageDownBy_inv; [exact H|exact Hs|].
  destruct H as [Hd Hh HL Hno Ho Ha Hc]. pose proof (half_page _ Hh). lia.
Qed.

(** *** Top, end and jumps *)

Lemma pageTop_inv (w : Window) :
  0 < w_width w -> 0 < w_height w -> 0 <= w_length w -> noOverflow w ->
  preInv (pageTop w) /\ contained (pageTop w)
  /\ w_offset (pageTop w) = 0 /\ w_cursor (pageTop w) = 0
  /\ offsetBounded (pageTop w).
Proof.
  intros Hd Hh HL Hno. destruct w as [b h d o c L st m].
  unfold pageTop, contained, offsetBounded, noOverflow, setCursor, setOffset in *; fields.
  pose proof (rows_ge d h Hd Hh). pose proof (max0_rows d (ceilDiv L d - h) Hd) as [M1 M2].
  split; [constructor; unfold noOverflow; fields; try lia; apply Z.mod_0_l; lia|].
  split; [lia|]. split; [reflexivity|]. split; [reflexivity|].
  split; [lia|apply Z.mod_0_l; lia].
Qed.

Lemma pageEnd_eq (w : Window) :
  0 < w_width w -> 0 < w_height w -> 0 <= w_length w -> noOverflow w ->
  pageEnd w
  = setCursor (setOffset w (lastPage w))
      ((Z.max (w_length w) 1 - 1) / w_width w * w_width w).
Proof.
  intros Hd Hh HL Hno. destruct w as [b h d o c L st m].
  unfold pageEnd, lastPage, noOverflow, setCursor, setOffset in *; fields.
  rewrite ?MaxInt64_max.
  pose proof (rows_ge d h Hd Hh) as Hd1.
  destruct (rows_code d L Hd HL) as (R1 & R2 & R3 & R4).
  pose proof (last_row d Hd (Z.max L 1)) as E.
  set (R := (Z.max L 1 + d - 1) / d) in *.
  assert (RL : 1 <= R <= Z.max L 1) by (clear - R1 R2 Hd; nia).
  rewrite (add_fits (Z.max L 1) d) by bounds.
  rewrite (sub_fits (Z.max L 1 + d) 1) by bounds.
  rewrite (quo_div (Z.max L 1 + d - 1) d) by bounds. fold R.
  rewrite (sub_fits R 1) by bounds.
  rewrite (mul_fits (R - 1) d) by bounds.
  rewrite E. reflexivity.
Qed.

Lemma pageEnd_inv (w : Window) :
  0 < w_width w -> 0 < w_height w -> 0 <= w_length w -> noOverflow w ->
  preInv (pageEnd w) /\ contained (pageEnd w)
  /\ w_offset (pageEnd w)
     = Z.max (ceilDiv (w_length w) (w_width w) - w_height w) 0 * w_width w
  /\ w_cursor (pageEnd w) = (Z.max (w_length w) 1 - 1) / w_width w * w_width w
  /\ offsetBounded (pageEnd w).
Proof.
  intros Hd Hh HL Hno. rewrite (pageEnd_eq w Hd Hh HL Hno).
  destruct (pageTop_inv w Hd Hh HL Hno) as (P & _).
  assert (ELP : lastPage (pageTop w) = lastPage w).
  { destruct w; unfold lastPage, pageTop, setCursor, setOffset; fields. reflexivity. }
  destruct (lastPage_range _ P) as (P1 & P2 & P3).
  pose proof (lastPage_eq _ P) as P4.
  rewrite ELP in *.
  replace (w_length (pageTop w)) with (w_length w) in * by (destruct w; reflexivity).
  replace (w_width (pageTop w)) with (w_width w) in * by (destruct w; reflexivity).
  replace (w_height (pageTop w)) with (w_height w) in * by (destruct w; reflexivity).
  set (LP := lastPage w) in *. clearbody LP.
  destruct w as [b h d o c L st m].
  unfold contained, offsetBounded, noOverflow, setCursor, setOffset in *; fields.
  pose proof (row_le d Hd (Z.max L 1 - 1)).
  split; [constructor; unfold noOverflow; fields; try lia|].
  split; [lia|]. split; [exact P4|]. split; [reflexivity|].
  split; [lia|exact P2].
Qed.

Lemma jumped_inv (w : Window) (v : Z) :
  preInv w -> 0 < v < w_length w ->
  preInv (jumped w v) /\ contained (jumped w v)
  /\ w_cursor (jumped w v) = v
  /\ w_offset (jumped w v)
     = Z.max (v - v mod w_width w - Z.max (w_height w / 3) 0 * w_width w) 0
  /\ w_stack (jumped w v) = w_stack w ++ [mkPosition (w_cursor w) (w_offset w)].
Proof.
  intros H Hv. open_pre w H. unfold jumped; fields. rewrite ?MaxInt64_max.
  pose proof (rows_ge d h Hd Hh) as Hd1.
  pose proof (Z.mod_pos_bound v d Hd) as Hm.
  pose proof (quot_self 3 h ltac:(lia) ltac:(lia)) as Q1.
  pose proof (Z.mul_div_le h 3 ltac:(lia)) as Q2.
  assert (Q3 : 0 <= Z.max (h / 3) 0 * d /\ Z.max (h / 3) 0 * d + d <= h * d).
  { assert (0 <= Z.max (h / 3) 0 /\ Z.max (h / 3) 0 + 1 <= h) by lia.
    clear - H Hd. nia. }
  assert (Q4 : h <= h * d) by (clear - Hh Hd; nia).
  rewrite (rem_mod v d) by lia.
  rewrite (sub_fits v (v mod d)) by bounds.
  rewrite (quo_div h 3) by bounds.
  rewrite (mul_fits _ d) by bounds.
  rewrite (sub_fits (v - v mod d) _) by bounds.
  assert (A : (Z.max (v - v mod d - Z.max (h / 3) 0 * d) 0) mod d = 0).
  { apply (aligned_max0 d _ Hd). apply (aligned_sub d Hd); [|apply (aligned_mul d Hd)].
    rewrite <- (row_mod d Hd v). apply (row_aligned d Hd). }
  split; [close_pre; lia|]. split; [lia|]. repeat split; reflexivity.
Qed.

(** C7. With width 16, height 10 and length 400, [pageEnd] sets the offset
    to 240 and the cursor to 384, and [pageTop] after it sets both to 0.
    In general [pageEnd] sets the offset to
    max((ceil(length/width) - height) * width, 0) and the cursor to the
    first byte of the row of the last byte, and [pageTop] sets cursor and
    offset to 0. *)
Theorem page_end_and_top :
  (forall b o c st m,
     let w := mkWindow b 10 16 o c 400 st m in
     w_offset (pageEnd w) = 240 /\ w_cursor (pageEnd w) = 384
     /\ w_offset (pageTop (pageEnd w)) = 0 /\ w_cursor (pageTop (pageEnd w)) = 0)
  /\ (forall w,
        0 < w_width w -> 0 < w_height w -> 0 <= w_length w -> noOverflow w ->
        w_offset (pageEnd w)
        = Z.max ((ceilDiv (w_length w) (w_width w) - w_height w) * w_width w) 0
        /\ w_cursor (pageEnd w) = Z.max (w_length w - 1) 0 / w_width w * w_width w
        /\ (w_cursor (pageEnd w)) mod (w_width w) = 0
        /\ w_cursor (pageEnd w) <= Z.max (w_length w - 1) 0
             < w_cursor (pageEnd w) + w_width w)
  /\ (forall w, w_offset (pageTop w) = 0 /\ w_cursor (pageTop w) = 0).
Proof.
  split; [|split].
  - intros b o c st m w. subst w. vm_compute. repeat split; reflexivity.
  - intros w Hd Hh HL Hno.
    destruct (pageEnd_inv w Hd Hh HL Hno) as (_ & _ & E1 & E2 & _).
    rewrite E1, E2, (max_rows _ _ Hd).
    replace (Z.max (w_length w) 1 - 1) with (Z.max (w_length w - 1) 0) by lia.
    split; [reflexivity|]. split; [reflexivity|].
    split; [apply (row_aligned _ Hd)|].
    pose proof (row_le _ Hd (Z.max (w_length w - 1) 0)).
    pose proof (row_gt _ Hd (Z.max (w_length w - 1) 0)). lia.
  - intros w. destruct w. split; reflexivity.
Qed.

Lemma page_end_and_top_witness :
  w_offset (pageEnd (sampleWindow 0 0 1000)) = 848
  /\ w_cursor (pageEnd (sampleWindow 0 0 1000)) = 992.
Proof.
  destruct (proj1 (proj2 page_end_and_top) (sampleWindow 0 0 1000)) as (E1 & E2 & _).
  - simpl. lia.
  - simpl. lia.
  - simpl. lia.
  - unfold noOverflow, Int64.max_int64. simpl. lia.
  - rewrite E1, E2. split; reflexivity.
Defined.

(** *** What the operations leave as it is *)

Ltac split_ifs :=
  repeat match goal with |- context [if ?b then _ else _] => destruct b end.

(** Every operation but the two jumps keeps the jump stack; every operation
    keeps buffer, height, width, length and mode. *)
Lemma applyOp_frame (op : NavOp) (w : Window) :
  w_buffer (applyOp op w) = w_buffer w
  /\ w_mode (applyOp op w) = w_mode w
  /\ sameShape w (applyOp op w)
  /\ (op <> OpJumpTo -> op <> OpJumpBack -> w_stack (applyOp op w) = w_stack w).
Proof.
  unfold sameShape.
  destruct op; cbn [applyOp];
    try (unfold cursorUp, cursorDown, cursorLeft, cursorRight, cursorPrev, cursorNext,
           cursorHead, cursorEnd, scrollUp, scrollDown, pageUp, pageDown, pageUpHalf,
           pageDownHalf, pageTop, pageEnd;
         destruct w; unfold setCursor, setOffset; fields; split_ifs; fields;
         repeat split; reflexivity).
  - destruct (jumpTo_cases w) as [E|[v E]]; rewrite E.
    + repeat split; try reflexivity.
    + destruct w; unfold jumped; fields.
      repeat split; try reflexivity; intros C; contradiction.
  - unfold jumpBack. destruct (List.length (w_stack w)).
    + repeat split; try reflexivity.
    + destruct w; unfold setStack, setOffset, setCursor; fields.
      repeat split; try reflexivity; intros _ C; contradiction.
Qed.

Lemma goodPos_shape (w w' : Window) (p : position) :
  sameShape w w' -> goodPos w p -> goodPos w' p.
Proof. intros (E1 & E2 & E3). unfold goodPos. rewrite E1, E2, E3. tauto. Qed.

Lemma stack_kept (op : NavOp) (w : Window) :
  op <> OpJumpTo -> op <> OpJumpBack ->
  Forall (goodPos w) (w_stack w) ->
  Forall (goodPos (applyOp op w)) (w_stack (applyOp op w)).
Proof.
  intros N1 N2 Hst. destruct (applyOp_frame op w) as (_ & _ & Hsh & Hs).
  rewrite (Hs N1 N2). revert Hst. apply Forall_impl.
  intros p. apply goodPos_shape. exact Hsh.
Qed.

(** *** Every operation on a well-formed state *)

Lemma NavOp_jump (op : NavOp) :
  (op = OpJumpTo \/ op = OpJumpBack) \/ (op <> OpJumpTo /\ op <> OpJumpBack).
Proof. destruct op; try (right; split; discriminate); left; [left|right]; reflexivity. Qed.


Lemma applyOp_nav (op : NavOp) (w : Window) :
  preInv w -> contained w ->
  op <> OpJumpTo -> op <> OpJumpBack ->
  shownGuard op w ->
  contained (applyOp op w)
  /\ (opGuard op w -> preInv (applyOp op w))
  /\ (boundGuard op w -> offsetBounded w -> offsetBounded (applyOp op w)).
Proof.
  intros H Hs N1 N2 G.
  destruct op; cbn [applyOp shownGuard opGuard boundGuard] in *;
    try contradiction.
  - destruct (cursorUp_inv count w H Hs) as (I1 & I2 & _ & _ & I5). tauto.
  - destruct (cursorDown_inv count w H Hs) as (I1 & I2 & _ & _ & I5). tauto.
  - destruct (cursorLeft_inv count w H Hs) as (I1 & I2 & _ & _ & I5). tauto.
  - destruct (cursorRight_inv count w H Hs) as (I1 & I2 & _ & _ & I5). tauto.
  - destruct (cursorPrev_inv count w H Hs) as (I1 & I2 & _ & _ & I5). tauto.
  - destruct (cursorNext_inv count w H Hs) as (I1 & I2 & _ & _ & I5). tauto.
  - destruct (cursorHead_inv count w H Hs) as (I1 & I2 & _ & _ & I5). tauto.
  - destruct (cursorEnd_inv count w H Hs G) as (I1 & I2 & _ & _ & I5). tauto.
  - destruct (scrollUp_inv count w H Hs) as (I1 & I2 & _ & _ & _ & I5). tauto.
  - destruct (scrollDown_inv count w H Hs) as (I1 & _ & _ & _ & _ & I5 & I6).
    unfold fullPage. split; [exact I1|]. split; intros F.
    + apply I5. lia.
    + apply I6. lia.
  - destruct (pageUp_inv w H Hs G) as (I1 & I2 & _ & _ & I5). tauto.
  - destruct (pageDown_inv w H Hs G) as (I1 & I2 & _ & I5). tauto.
  - destruct (pageUpHalf_inv w H Hs) as (I1 & I2 & _ & _ & I5). tauto.
  - destruct (pageDownHalf_inv w H Hs) as (I1 & I2 & _ & I5). tauto.
  - destruct H as [Hd Hh HL Hno Ho Ha Hc].
    destruct (pageTop_inv w Hd Hh HL Hno) as (I1 & I2 & _ & _ & I5). tauto.
  - destruct H as [Hd Hh HL Hno Ho Ha Hc].
    destruct (pageEnd_inv w Hd Hh HL Hno) as (I1 & I2 & _ & _ & I5). tauto.
Qed.

Lemma stack_cases (A : Type) (l : list A) : l = [] \/ exists st p, l = st ++ [p].
Proof.
  destruct l as [|a l]; [left; reflexivity|right].
  destruct (exists_last (l := a :: l)) as (st & p & E); [discriminate|].
  exists st, p. exact E.
Qed.

(** [jumpTo] moves to an address within the data, or leaves the state. *)
Lemma jumpTo_moves (w : Window) :
  jumpTo w = w \/ exists v, 0 < v < w_length w /\ jumpTo w = jumped w v.
Proof.
  rewrite jumpTo_unfold.
  destruct (readBytes w (readStart w) 100) as [[n bytes]|]; [|left; reflexivity].
  destruct (runFound bytes); cbn [andb]; [|left; reflexivity].
  destruct ((runValue bytes <=? 0) || (w_length w <=? runValue bytes)) eqn:Hv;
    cbn [negb]; [left; reflexivity|].
  apply orb_false_iff in Hv. destruct Hv as [Hv1 Hv2].
  apply Z.leb_gt in Hv1, Hv2.
  right. exists (runValue bytes). split; [lia|reflexivity].
Qed.

Lemma goodPos_current (w : Window) :
  preInv w -> contained w -> goodPos w (mkPosition (w_cursor w) (w_offset w)).
Proof.
  intros [Hd Hh HL Hno Ho Ha Hc] Hs. unfold goodPos, contained in *. simpl. tauto.
Qed.

Lemma jumpTo_inv (w : Window) :
  preInv w -> contained w ->
  preInv (jumpTo w) /\ contained (jumpTo w)
  /\ (Forall (goodPos w) (w_stack w) ->
      Forall (goodPos (jumpTo w)) (w_stack (jumpTo w))).
Proof.
  intros H Hs.
  destruct (jumpTo_moves w) as [E|(v & Hv & E)]; rewrite E.
  - split; [exact H|]. split; [exact Hs|]. tauto.
  - destruct (jumped_inv w v H Hv) as (I1 & I2 & _ & _ & I5).
    split; [exact I1|]. split; [exact I2|].
    intros Hst. rewrite I5.
    assert (Hsh : sameShape w (jumped w v)).
    { destruct w; unfold sameShape, jumped; fields. repeat split; reflexivity. }
    apply Forall_app. split.
    + revert Hst. apply Forall_impl. intros p. apply goodPos_shape. exact Hsh.
    + constructor; [|constructor].
      apply (goodPos_shape w _ _ Hsh). apply goodPos_current; assumption.
Qed.

Lemma jumpBack_inv (w : Window) :
  preInv w -> contained w -> Forall (goodPos w) (w_stack w) ->
  preInv (jumpBack w) /\ contained (jumpBack w)
  /\ Forall (goodPos (jumpBack w)) (w_stack (jumpBack w)).
Proof.
  intros H Hs Hst.
  destruct (stack_cases _ (w_stack w)) as [E|(st & p & E)].
  - assert (Ej : jumpBack w = w) by (unfold jumpBack; rewrite E; reflexivity).
    rewrite Ej. tauto.
  - rewrite (jumpBack_push w st (p_cursor p) (p_offset p))
      by (rewrite E; destruct p; reflexivity).
    rewrite E in Hst. apply Forall_app in Hst. destruct Hst as [Hst Hp].
    inversion Hp as [|p' l Hgood _]; subst. clear Hp.
    destruct Hgood as (G1 & G2 & G3 & G4).
    destruct H as [Hd Hh HL Hno Ho Ha Hc].
    destruct w as [b h d o c L sk m]; unfold setStack, setOffset, setCursor, contained,
      goodPos, noOverflow in *; fields.
    split; [constructor; unfold noOverflow; fields; assumption|].
    split; [exact G4|]. exact Hst.
Qed.

(** Every navigation operation takes a well-formed state to a well-formed
    state, under the guard of the operation. *)
Lemma applyOp_wellFormed (op : NavOp) (w : Window) :
  wellFormed w -> opGuard op w -> wellFormed (applyOp op w).
Proof.
  intros [H Hs Hst] G.
  destruct (NavOp_jump op) as [[-> | ->]|[N1 N2]].
  - destruct (jumpTo_inv w H Hs) as (I1 & I2 & I3). constructor; auto.
  - destruct (jumpBack_inv w H Hs Hst) as (I1 & I2 & I3). constructor; auto.
  - assert (G' : shownGuard op w).
    { destruct op; cbn [shownGuard opGuard] in *; try exact G; try exact I.
      exfalso; apply N2; reflexivity. }
    destruct (applyOp_nav op w H Hs N1 N2 G') as (I1 & I2 & _).
    constructor; [exact (I2 G)|exact I1|apply stack_kept; assumption].
Qed.

Lemma applyOps_wellFormed (ops : list NavOp) (w : Window) :
  wellFormed w ->
  (forall op w', In op ops -> wellFormed w' -> opGuard op w') ->
  wellFormed (applyOps ops w).
Proof.
  revert w; induction ops as [|op ops IH]; intros w Hw G; cbn [applyOps]; [exact Hw|].
  apply IH.
  - apply applyOp_wellFormed; [exact Hw|]. apply G; [left; reflexivity|exact Hw].
  - intros op' w' Hin. apply G. right. exact Hin.
Qed.

(** *** The containment of the cursor *)

(** C1, as the code has it.  From a state with the invariants of the data
    model and without overflow, every navigation operation, with any count,
    yields a state whose cursor is displayed, offset <= cursor < offset +
    height * width, under the guard of the operation: [jumpBack] restores
    the top pair of the jump stack as it is, so that pair has to show its
    cursor; [pageUp] and [pageDown] are taken with two rows or more and
    [cursorEnd] with a count whose rows do not overflow. *)
Theorem navigation_keeps_cursor_shown (op : NavOp) (w : Window) :
  stateInv w -> noOverflow w -> shownGuard op w ->
  contained (applyOp op w).
Proof.
  intros Hinv Hno G.
  pose proof (stateInv_preInv w Hinv Hno) as H.
  assert (Hs : contained w) by (destruct Hinv; assumption).
  destruct (NavOp_jump op) as [[-> | ->]|[N1 N2]].
  - destruct (jumpTo_inv w H Hs) as (_ & I2 & _). exact I2.
  - cbn [applyOp shownGuard] in *.
    destruct (stack_cases _ (w_stack w)) as [E|(st & p & E)].
    + assert (Ej : jumpBack w = w) by (unfold jumpBack; rewrite E; reflexivity).
      rewrite Ej. exact Hs.
    + specialize (G st p E).
      rewrite (jumpBack_push w st (p_cursor p) (p_offset p))
        by (rewrite E; destruct p; reflexivity).
      destruct w; unfold contained, setStack, setOffset, setCursor in *; fields. exact G.
  - destruct (applyOp_nav op w H Hs N1 N2 G) as (I1 & _). exact I1.
Qed.

Lemma navigation_keeps_cursor_shown_witness :
  contained (applyOp (OpCursorEnd 3) (sampleWindow 48 52 400))
  /\ contained (applyOp OpPageDown (sampleWindow 48 52 400)).
Proof.
  assert (Hinv : stateInv (sampleWindow 48 52 400)).
  { constructor; simpl; try lia; reflexivity. }
  assert (Hno : noOverflow (sampleWindow 48 52 400)).
  { unfold noOverflow, Int64.max_int64. simpl. lia. }
  split.
  - apply navigation_keeps_cursor_shown; [exact Hinv|exact Hno|].
    unfold shownGuard, Int64.max_int64. simpl. lia.
  - apply navigation_keeps_cursor_shown; [exact Hinv|exact Hno|].
    unfold shownGuard. simpl. lia.
Defined.

(** C1 as stated fails: the invariants listed say nothing of the jump
    stack, and [jumpBack] restores the pair on its top as it is. *)
Lemma cursor_shown_counterexample :
  let w := mkWindow (bufferOf []) 10 16 0 0 400 [mkPosition 300 0] ModeNormal in
  stateInv w /\ ~ contained (applyOp OpJumpBack w).
Proof.
  split.
  - constructor; simpl; try lia; reflexivity.
  - unfold contained. simpl. lia.
Qed.

(** With a single row [pageUp] moves the offset down and [pageDown] moves
    it up, away from the cursor. *)
Lemma page_single_row :
  let w := mkWindow (bufferOf []) 1 16 0 0 100 [] ModeNormal in
  stateInv w
  /\ w_offset (pageUp w) = 16 /\ w_cursor (pageUp w) = 0
  /\ w_offset (pageDown w) = -16 /\ w_cursor (pageDown w) = 0.
Proof.
  split; [constructor; simpl; try lia; reflexivity|].
  vm_compute. repeat split; reflexivity.
Qed.

(** [cursorEnd] multiplies the count by the width before it clamps: with
    the count 2^60 and 16 bytes a row the product wraps around. *)
Lemma cursorEnd_wraps :
  let w := mkWindow (bufferOf []) 10 16 0 0 100 [] ModeNormal in
  stateInv w /\ w_cursor (cursorEnd (2 ^ 60) w) = -1.
Proof.
  split; [constructor; simpl; try lia; reflexivity|].
  vm_compute. reflexivity.
Qed.

(** *** The bounds of the offset *)

Lemma offsetBounded_jumpBack (w : Window) :
  topBounded w -> offsetBounded w -> offsetBounded (jumpBack w).
Proof.
  intros G Hb.
  destruct (stack_cases _ (w_stack w)) as [E|(st & p & E)].
  - assert (Ej : jumpBack w = w) by (unfold jumpBack; rewrite E; reflexivity).
    rewrite Ej. exact Hb.
  - specialize (G st p E).
    rewrite (jumpBack_push w st (p_cursor p) (p_offset p))
      by (rewrite E; destruct p; reflexivity).
    destruct w; unfold offsetBounded, setStack, setOffset, setCursor in *; fields. exact G.
Qed.

(** C4, as the code has it.  From a state with the invariants of the data
    model whose offset is within the bounds, without overflow, every
    navigation operation but [jumpTo] leaves the offset a multiple of the
    width between 0 and max(ceil(length/width) - height, 0) * width, under
    the guard of the operation: [scrollDown] is taken on data of a full
    page or more, [jumpBack] with the offset of the top pair within the
    bounds, [pageUp] and [pageDown] with two rows or more, [cursorEnd] with
    a count whose rows do not overflow.  After [jumpTo] the offset is a
    multiple of the width from 0 to the cursor: when the jump is made, the
    row of the address less a third of the page, not below 0. *)
Theorem navigation_keeps_offset_bounds :
  (forall op w,
     stateInv w -> noOverflow w -> offsetBounded w -> boundGuard op w ->
     offsetBounded (applyOp op w))
  /\ (forall w,
        stateInv w -> noOverflow w ->
        0 <= w_offset (jumpTo w) <= w_cursor (jumpTo w)
        /\ (w_offset (jumpTo w)) mod (w_width w) = 0
        /\ (jumpTo w <> w ->
            w_offset (jumpTo w)
            = Z.max (w_cursor (jumpTo w) - w_cursor (jumpTo w) mod w_width w
                     - Z.max (w_height w / 3) 0 * w_width w) 0)).
Proof.
  split.
  - intros op w Hinv Hno Hb G.
    pose proof (stateInv_preInv w Hinv Hno) as H.
    assert (Hs : contained w) by (destruct Hinv; assumption).
    destruct (NavOp_jump op) as [[-> | ->]|[N1 N2]].
    + contradiction.
    + apply offsetBounded_jumpBack; assumption.
    + assert (G' : shownGuard op w).
      { destruct op; cbn [shownGuard boundGuard] in *; try exact G; try exact I.
        exfalso; apply N2; reflexivity. }
      destruct (applyOp_nav op w H Hs N1 N2 G') as (_ & _ & I3). exact (I3 G Hb).
  - intros w Hinv Hno.
    pose proof (stateInv_preInv w Hinv Hno) as H.
    assert (Hs : contained w) by (destruct Hinv; assumption).
    destruct (jumpTo_moves w) as [E|(v & Hv & E)]; rewrite E.
    + destruct H as [Hd Hh HL Hno' Ho Ha Hc]. unfold contained in Hs.
      split; [lia|]. split; [exact Ha|]. intros C. contradiction.
    + destruct (jumped_inv w v H Hv) as (I1 & I2 & I3 & I4 & _).
      destruct I1 as [_ _ _ _ Ho' Ha' _]. unfold contained in I2.
      replace (w_width (jumped w v)) with (w_width w) in * by (destruct w; reflexivity).
      split; [lia|]. split; [exact Ha'|]. intros _. rewrite I3. exact I4.
Qed.

Lemma navigation_keeps_offset_bounds_witness :
  offsetBounded (applyOp (OpScrollDown 2) (sampleWindow 48 52 400)).
Proof.
  apply (proj1 navigation_keeps_offset_bounds).
  - constructor; simpl; try lia; reflexivity.
  - unfold noOverflow, Int64.max_int64. simpl. lia.
  - unfold offsetBounded. simpl. split; [|reflexivity].
    unfold ceilDiv. simpl. lia.
  - unfold boundGuard, fullPage. vm_compute. discriminate.
Defined.

(** C4 as stated fails: a jump to an address near the end of the data puts
    the offset a third of a page above the row of the address, beyond the
    offset of the last page. *)
Lemma offset_bounds_counterexample :
  let w := sampleWindow 48 52 400 in
  stateInv w /\ offsetBounded w
  /\ w_offset (applyOp OpJumpTo w) = 336
  /\ ~ offsetBounded (applyOp OpJumpTo w).
Proof.
  assert (E : w_offset (jumpTo (sampleWindow 48 52 400)) = 336) by (vm_compute; reflexivity).
  split; [constructor; simpl; try lia; reflexivity|].
  split; [unfold offsetBounded; simpl; split; [unfold ceilDiv; simpl; lia|reflexivity]|].
  split; [exact E|].
  cbn [applyOp]. unfold offsetBounded. rewrite E.
  replace (w_length (jumpTo (sampleWindow 48 52 400))) with 400 by (vm_compute; reflexivity).
  replace (w_width (jumpTo (sampleWindow 48 52 400))) with 16 by (vm_compute; reflexivity).
  replace (w_height (jumpTo (sampleWindow 48 52 400))) with 10 by (vm_compute; reflexivity).
  unfold ceilDiv. simpl. lia.
Qed.

(** On data shorter than a page [scrollDown] takes the offset below 0. *)
Lemma scrollDown_short_data :
  let w := mkWindow (bufferOf []) 10 16 0 0 100 [] ModeNormal in
  stateInv w /\ offsetBounded w /\ w_offset (scrollDown 1 w) = -48.
Proof.
  split; [constructor; simpl; try lia; reflexivity|].
  split; [unfold offsetBounded; simpl; split; [unfold ceilDiv; simpl; lia|reflexivity]|].
  vm_compute. reflexivity.
Qed.

(** * Further properties of the resolver *)

(** X1. [cmp] tells the three ways a key sequence stands to a binding: it
    returns [keysEq] exactly when the sequence is the binding, [keysPending]
    exactly when the sequence is the binding less a non-empty rest, and
    [keysNeq] exactly when the sequence is no prefix of the binding. *)
Theorem cmp_decides (ke : keyEvent) (ks : list Key) :
  (cmp ke ks = keysEq <-> ks = ke_keys ke)
  /\ (cmp ke ks = keysPending <-> exists rest, rest <> [] /\ ke_keys ke = ks ++ rest)
  /\ (cmp ke ks = keysNeq <-> forall rest, ke_keys ke <> ks ++ rest).
Proof.
  split; [apply cmp_exact|]. split; [apply cmp_pending|].
  rewrite cmp_neq. unfold noMatch, exactMatch, pendingMatch. split.
  - intros [H1 H2] rest E. destruct rest as [|r rest].
    + apply H1. rewrite E, app_nil_r. reflexivity.
    + apply H2. exists (r :: rest). split; [discriminate|exact E].
  - intros H. split.
    + intros E. apply (H []). rewrite app_nil_r. symmetry. exact E.
    + intros (rest & _ & E). exact (H rest E).
Qed.

Lemma pressLoop_outcome (km : KeyManager) (fuel s : nat) :
  fst (pressLoop km fuel s) = setKeys km []
  \/ pressLoop km fuel s = (km, mkEvent EventNop 0).
Proof.
  revert s; induction fuel as [|fuel IH]; intros s.
  - left. reflexivity.
  - rewrite pressLoop_step.
    destruct (rangeKeyEvents _ _ _) as [[[|] ev]|] eqn:Hr.
    + left. reflexivity.
    + right. f_equal.
      clear - Hr. revert Hr. generalize (km_keyEvents km) as kes.
      induction kes as [|ke kes IHk]; cbn [rangeKeyEvents]; [discriminate|].
      destruct (cmp ke _); [discriminate|intros E; inversion E; reflexivity|exact IHk].
    + apply IH.
Qed.

(** X2. [Press] touches the pending sequence only: the bindings and the
    counting flag stay, after any sequence of keys; the pending sequence
    after a key is empty or is the sequence before with the key appended;
    and a key that leaves the pending sequence non-empty returns no event,
    so that every event other than [EventNop] comes with an empty pending
    sequence. *)
Theorem Press_pending_only (km : KeyManager) (ks : list Key) (k : Key) :
  km_keyEvents (fst (pressAll km ks)) = km_keyEvents km
  /\ km_count (fst (pressAll km ks)) = km_count km
  /\ (km_keys (fst (Press km k)) = []
      \/ km_keys (fst (Press km k)) = km_keys km ++ [k])
  /\ (km_keys (fst (Press km k)) <> [] -> snd (Press km k) = mkEvent EventNop 0).
Proof.
  destruct (pressAll_shape km ks) as [S1 S2].
  split; [exact S1|]. split; [exact S2|].
  unfold Press. set (km1 := setKeys km (km_keys km ++ [k])).
  destruct (pressLoop_outcome km1 (List.length (km_keys km1)) 0) as [E|E]; rewrite E.
  - split; [left; reflexivity|]. intros C. contradiction C. reflexivity.
  - split; [right; reflexivity|]. intros _. reflexivity.
Qed.






Lemma rangeKeyEvents_firstBound (kes : list keyEvent) (k : Key) (count : Z) :
  Forall (fun b => List.length (ke_keys b) = 1%nat) kes ->
  match rangeKeyEvents kes [k] count with
  | Some (true, ev) => ev = mkEvent (firstBound kes k) count
  | Some (false, _) => False
  | None => firstBound kes k = EventNop
  end.
Proof.
  induction 1 as [|b kes Hb _ IH]; cbn [rangeKeyEvents firstBound]; [reflexivity|].
  destruct b as [[|a [|a' l]] e]; simpl in Hb; try discriminate.
  unfold cmp. cbn [ke_keys ke_event List.length Nat.ltb Nat.leb cmpFrom nth negb].
  destruct (String.eqb a k); cbn [negb]; [reflexivity|exact IH].
Qed.

(** X4. A key manager that does not count and whose bindings are single
    tokens decides every key at once: pressed with nothing pending, a key
    returns the event of the first binding that is this key, with the count
    0, or [EventNop] when no binding is, and nothing is pending after it.
    So for every sequence of keys. *)
Theorem single_token_manager (km : KeyManager) (ks : list Key) :
  singleTokens km -> km_count km = false -> km_keys km = [] ->
  pressAll km ks
  = (km, map (fun k => mkEvent (firstBound (km_keyEvents km) k) 0) ks).
Proof.
  intros Hs Hc Hk.
  assert (H1 : forall k, Press km k = (km, mkEvent (firstBound (km_keyEvents km) k) 0)).
  { intros k. unfold Press. rewrite Hk. simpl app.
    change (List.length (km_keys (setKeys km [k]))) with 1%nat.
    rewrite pressLoop_step.
    change (km_keys (setKeys km [k])) with [k].
    change (km_keyEvents (setKeys km [k])) with (km_keyEvents km).
    assert (Hw : windowRest (setKeys km [k]) [k] 0 = [k]).
    { unfold windowRest, remainder. simpl. rewrite Hc. reflexivity. }
    assert (Hn : windowCount (setKeys km [k]) [k] 0 = 0).
    { unfold windowCount, parsedCount. simpl. rewrite Hc. reflexivity. }
    assert (Hid : setKeys (setKeys km [k]) [] = km).
    { destruct km; simpl in *. subst. reflexivity. }
    rewrite Hw, Hn.
    pose proof (rangeKeyEvents_firstBound (km_keyEvents km) k 0 Hs) as R.
    destruct (rangeKeyEvents (km_keyEvents km) [k] 0) as [[[|] ev]|].
    - rewrite Hid, R. reflexivity.
    - contradiction.
    - cbn [pressLoop]. rewrite Hid, R. reflexivity. }
  induction ks as [|k ks IH]; [reflexivity|].
  cbn [pressAll map]. rewrite H1, IH. reflexivity.
Qed.

Lemma single_token_manager_witness :
  let km := Register (Register (NewKeyManager false) EventExitInsert ["escape"%string])
                     EventDelete ["delete"%string] in
  pressAll km ["delete"; "x"; "escape"]%string
  = (km, [mkEvent EventDelete 0; mkEvent EventNop 0; mkEvent EventExitInsert 0]).
Proof.
  intros km. apply (single_token_manager km).
  - unfold singleTokens. simpl. repeat constructor.
  - reflexivity.
  - reflexivity.
Defined.

(** X5. A counting key manager whose first binding is not empty holds every
    run of count digits: when the pending sequence with the new key is a
    digit run of the repeat-count rule, [Press] returns no event and keeps
    the whole run pending, however long it is. *)
Theorem count_digits_pending (km : KeyManager) (k : Key) :
  km_count km = true ->
  (exists b kes, km_keyEvents km = b :: kes /\ ke_keys b <> []) ->
  countRun (km_keys km ++ [k]) = km_keys km ++ [k] ->
  Press km k = (setKeys km (km_keys km ++ [k]), mkEvent EventNop 0).
Proof.
  intros Hc (b & kes & Hb & Hne) Hrun. unfold Press.
  set (km1 := setKeys km (km_keys km ++ [k])).
  apply (pressLoop_pending km1 (List.length (km_keys km1)) 0 0 0 b).
  - subst km1. simpl. rewrite length_app. simpl. lia.
  - subst km1. simpl. rewrite Hb. reflexivity.
  - intros i' n' b' _ Hlt. lia.
  - subst km1. unfold windowRest, remainder. cbn [km_count km_keys setKeys skipn].
    rewrite Hc, Hrun, skipn_all. exists (ke_keys b). split; [exact Hne|reflexivity].
Qed.

Lemma count_digits_pending_witness :
  Press (setKeys normalKM ["1"; "2"]%string) "0"%string
  = (setKeys normalKM ["1"; "2"; "0"]%string, mkEvent EventNop 0).
Proof.
  apply (count_digits_pending (setKeys normalKM ["1"; "2"]%string) "0"%string).
  - reflexivity.
  - eexists. eexists. split; [vm_compute; reflexivity|discriminate].
  - reflexivity.
Defined.

(** * Further properties of the navigation engine *)

Lemma opGuard_shape (op : NavOp) (w w' : Window) :
  sameShape w w' -> opGuard op w -> opGuard op w'.
Proof.
  intros (E1 & E2 & E3).
  destruct op; cbn [opGuard]; unfold fullPage; rewrite ?E1, ?E2, ?E3; tauto.
Qed.

Lemma sameShape_trans (w1 w2 w3 : Window) :
  sameShape w1 w2 -> sameShape w2 w3 -> sameShape w1 w3.
Proof.
  intros (A1 & A2 & A3) (B1 & B2 & B3). unfold sameShape.
  rewrite B1, B2, B3, A1, A2, A3. repeat split; reflexivity.
Qed.

(** X6. A well-formed state, that is one with the invariants of the data
    model, without overflow, whose jump stack holds positions of the
    window, stays well-formed under every sequence of navigation
    operations whose guards hold in the first state: the cursor stays
    within the data and displayed, the offset a non-negative multiple of
    the width, the pairs of the jump stack positions to jump back to. *)
Theorem navigation_sequence_well_formed (ops : list NavOp) (w : Window) :
  wellFormed w ->
  (forall op, In op ops -> opGuard op w) ->
  wellFormed (applyOps ops w)
  /\ sameShape w (applyOps ops w)
  /\ 0 <= w_cursor (applyOps ops w) <= Z.max (w_length w - 1) 0
  /\ w_offset (applyOps ops w) <= w_cursor (applyOps ops w)
       < w_offset (applyOps ops w) + w_height w * w_width w
  /\ 0 <= w_offset (applyOps ops w)
  /\ (w_offset (applyOps ops w)) mod (w_width w) = 0.
Proof.
  intros Hw G.
  assert (H : wellFormed (applyOps ops w) /\ sameShape w (applyOps ops w)).
  { revert w Hw G. induction ops as [|op ops IH]; intros w Hw G; cbn [applyOps].
    - split; [exact Hw|]. repeat split; reflexivity.
    - destruct (applyOp_frame op w) as (_ & _ & Hsh & _).
      destruct (IH (applyOp op w)) as [I1 I2].
      + apply applyOp_wellFormed; [exact Hw|]. apply G. left. reflexivity.
      + intros op' Hin. apply (opGuard_shape op' w _ Hsh). apply G. right. exact Hin.
      + split; [exact I1|]. exact (sameShape_trans _ _ _ Hsh I2). }
  destruct H as [Hwf Hsh]. split; [exact Hwf|]. split; [exact Hsh|].
  destruct Hwf as [Hp Hs _]. destruct Hp as [Hd Hh HL Hno Ho Ha Hc].
  destruct Hsh as (E1 & E2 & E3). unfold contained in Hs.
  rewrite E1, E2 in Hs. rewrite E2 in Ha. rewrite E3 in Hc.
  split; [exact Hc|]. split; [exact Hs|]. split; [exact Ho|exact Ha].
Qed.

Lemma navigation_sequence_well_formed_witness :
  wellFormed (applyOps [OpPageDown; OpJumpTo; OpCursorEnd 2; OpJumpBack; OpScrollDown 3]
                       (sampleWindow 48 52 400)).
Proof.
  apply (navigation_sequence_well_formed
           [OpPageDown; OpJumpTo; OpCursorEnd 2; OpJumpBack; OpScrollDown 3]
           (sampleWindow 48 52 400)).
  - constructor.
    + constructor; unfold noOverflow, Int64.max_int64; simpl; try lia. reflexivity.
    + unfold contained. simpl. lia.
    + constructor.
  - intros op Hin. simpl in Hin.
    destruct Hin as [<-|[<-|[<-|[<-|[<-|[]]]]]]; cbn [opGuard]; try exact I.
    + simpl. lia.
    + unfold Int64.max_int64. simpl. lia.
    + unfold fullPage. vm_compute. discriminate.
Defined.

(** X7. No navigation operation changes the buffer, the height, the width,
    the length or the mode of the window, and none but the two jumps
    changes the jump stack: [jumpTo] leaves it or appends the pair (cursor,
    offset) of the state it leaves, [jumpBack] removes its last pair. *)
Theorem navigation_frame (op : NavOp) (w : Window) :
  w_buffer (applyOp op w) = w_buffer w
  /\ w_mode (applyOp op w) = w_mode w
  /\ w_height (applyOp op w) = w_height w
  /\ w_width (applyOp op w) = w_width w
  /\ w_length (applyOp op w) = w_length w
  /\ (op <> OpJumpTo -> op <> OpJumpBack -> w_stack (applyOp op w) = w_stack w)
  /\ (w_stack (jumpTo w) = w_stack w
      \/ w_stack (jumpTo w) = w_stack w ++ [mkPosition (w_cursor w) (w_offset w)])
  /\ w_stack (jumpBack w) = removelast (w_stack w).
Proof.
  destruct (applyOp_frame op w) as (F1 & F2 & (F3 & F4 & F5) & F6).
  split; [exact F1|]. split; [exact F2|]. split; [exact F3|]. split; [exact F4|].
  split; [exact F5|]. split; [exact F6|]. split.
  - destruct (jumpTo_cases w) as [E|[v E]]; rewrite E; [left|right]; reflexivity.
  - destruct (stack_cases _ (w_stack w)) as [E|(st & p & E)].
    + unfold jumpBack. rewrite E. simpl. exact E.
    + rewrite (jumpBack_push w st (p_cursor p) (p_offset p))
        by (rewrite E; destruct p; reflexivity).
      rewrite E, removelast_last. destruct w; reflexivity.
Qed.

Lemma window_eq (w w' : Window) :
  w_buffer w' = w_buffer w -> w_mode w' = w_mode w -> sameShape w w' ->
  w_stack w' = w_stack w -> w_cursor w' = w_cursor w -> w_offset w' = w_offset w ->
  w' = w.
Proof.
  intros E1 E2 (E3 & E4 & E5) E6 E7 E8. destruct w, w'; simpl in *. congruence.
Qed.

(** An operation other than a jump that moves neither cursor nor offset
    returns the state it was given. *)
Lemma applyOp_same (op : NavOp) (w : Window) :
  op <> OpJumpTo -> op <> OpJumpBack ->
  w_cursor (applyOp op w) = w_cursor w -> w_offset (applyOp op w) = w_offset w ->
  applyOp op w = w.
Proof.
  intros N1 N2 Ec Eo. destruct (applyOp_frame op w) as (F1 & F2 & F3 & F4).
  apply window_eq; auto.
Qed.

Lemma snapUp_id (w : Window) : w_offset w <= w_cursor w -> snapUp w = w.
Proof.
  intros H. unfold snapUp. destruct (Z.ltb_spec (w_cursor w) (w_offset w)); [lia|reflexivity].
Qed.

Lemma snapDown_id (w : Window) : preInv w -> contained w -> snapDown w = w.
Proof.
  intros H Hs. open_pre w H. unfold snapDown; fields.
  pose proof (rows_ge d h Hd Hh).
  rewrite (mul_fits h d) by bounds. rewrite (add_fits o _) by bounds.
  destruct (Z.leb_spec (o + h * d) c); [lia|reflexivity].
Qed.

Lemma setCursor_id (w : Window) : setCursor w (w_cursor w) = w.
Proof. destruct w. reflexivity. Qed.

(** X8. At the extreme positions the motions leave the whole state as it
    is: [cursorUp] in the first row, [cursorPrev] at the address 0,
    [cursorLeft] and [cursorHead] at the start of a row, [cursorDown] in
    the last row, [cursorNext] and [cursorRight] at the last byte,
    [cursorRight] at the end of a row, [scrollUp] at the offset 0, for
    every count. *)
Theorem motions_saturate (n : Z) (w : Window) :
  stateInv w -> noOverflow w ->
  (w_cursor w < w_width w -> cursorUp n w = w)
  /\ (w_cursor w = 0 -> cursorPrev n w = w)
  /\ (w_cursor w mod w_width w = 0 -> cursorLeft n w = w /\ cursorHead n w = w)
  /\ (w_cursor w / w_width w = (Z.max (w_length w) 1 - 1) / w_width w ->
      cursorDown n w = w)
  /\ (w_cursor w = Z.max (w_length w - 1) 0 ->
      cursorNext n w = w /\ cursorRight n w = w)
  /\ (w_cursor w mod w_width w = w_width w - 1 -> cursorRight n w = w)
  /\ (w_offset w = 0 -> scrollUp n w = w).
Proof.
  intros Hinv Hno.
  pose proof (stateInv_preInv w Hinv Hno) as H.
  assert (Hs : contained w) by (destruct Hinv; assumption).
  assert (Hoc : w_offset w <= w_cursor w) by (unfold contained in Hs; lia).
  assert (Hd : 0 < w_width w) by (destruct H; assumption).
  assert (Hc0 : 0 <= w_cursor w) by (destruct H; lia).
  refine (conj _ (conj _ (conj _ (conj _ (conj _ (conj _ _)))))).
  - intros Hrow. rewrite (cursorUp_eq n w H).
    rewrite (Z.div_small (w_cursor w) (w_width w)) by lia.
    replace (Z.min (Z.max n 1) 0 * w_width w) with 0 by lia.
    rewrite Z.sub_0_r, setCursor_id. apply snapUp_id. exact Hoc.
  - intros Hz. rewrite (cursorPrev_eq n w H), Hz.
    replace (0 - Z.min (Z.max n 1) 0) with 0 by lia.
    rewrite <- Hz, setCursor_id. apply snapUp_id. exact Hoc.
  - intros Hm. split.
    + destruct (cursorLeft_inv n w H Hs) as (_ & _ & Ec & Eo & _).
      apply (applyOp_same (OpCursorLeft n)); try discriminate; cbn [applyOp]; [|exact Eo].
      rewrite Ec, Hm. lia.
    + destruct (cursorHead_inv n w H Hs) as (_ & _ & Ec & Eo & _).
      apply (applyOp_same (OpCursorHead n)); try discriminate; cbn [applyOp]; [|exact Eo].
      rewrite Ec, Hm. lia.
  - intros Hrow. rewrite (cursorDown_eq n w H), Hrow, Z.sub_diag.
    replace (Z.min (Z.max n 1) 0 * w_width w) with 0 by lia.
    assert (Hc : w_cursor w <= Z.max (w_length w) 1 - 1) by (destruct H; lia).
    replace (Z.min 0 (Z.max (w_length w) 1 - 1 - w_cursor w)) with 0 by lia.
    rewrite Z.add_0_r, setCursor_id. apply snapDown_id; assumption.
  - intros Hend. split.
    + rewrite (cursorNext_eq n w H).
      replace (Z.min (Z.max n 1) (Z.max (w_length w) 1 - 1 - w_cursor w)) with 0 by lia.
      rewrite Z.add_0_r, setCursor_id. apply snapDown_id; assumption.
    + destruct (cursorRight_inv n w H Hs) as (_ & _ & Ec & Eo & _).
      apply (applyOp_same (OpCursorRight n)); try discriminate; cbn [applyOp]; [|exact Eo].
      rewrite Ec. pose proof (Z.mod_pos_bound (w_cursor w) (w_width w) Hd). lia.
  - intros Hm.
    destruct (cursorRight_inv n w H Hs) as (_ & _ & Ec & Eo & _).
    apply (applyOp_same (OpCursorRight n)); try discriminate; cbn [applyOp]; [|exact Eo].
    rewrite Ec, Hm. destruct H as [_ _ _ _ _ _ Hc]. lia.
  - intros Hz.
    destruct (scrollUp_inv n w H Hs) as (_ & _ & Eo & _ & Ec & _).
    assert (Eo' : w_offset (scrollUp n w) = w_offset w).
    { rewrite Eo, Hz. rewrite Z.div_0_l by lia. lia. }
    apply (applyOp_same (OpScrollUp n)); try discriminate; cbn [applyOp]; [|exact Eo'].
    apply Ec. rewrite Eo'. unfold contained in Hs. lia.
Qed.

Lemma motions_saturate_witness :
  cursorUp 5 (sampleWindow 0 7 400) = sampleWindow 0 7 400.
Proof.
  apply (motions_saturate 5 (sampleWindow 0 7 400)).
  - constructor; simpl; try lia; reflexivity.
  - unfold noOverflow, Int64.max_int64. simpl. lia.
  - simpl. lia.
Defined.

Lemma row_unique (d q x : Z) : 0 < d -> q * d <= x < q * d + d -> x / d = q.
Proof.
  intros Hd Hx. symmetry. apply (Z.div_unique x d q (x - q * d)); lia.
Qed.

Lemma mod_shift (d x k : Z) : 0 < d -> (x + k * d) mod d = x mod d.
Proof. intros Hd. apply Z_mod_plus_full. Qed.

(** X9. [cursorUp] moves the cursor up by min(max(count, 1), cursor/width)
    rows and keeps its column.  [cursorDown] moves it down by max(count, 1)
    rows when the address so reached is within the data; in every case the
    cursor does not go back, stays within the data, and keeps its column
    unless it stops at the last byte. *)
Theorem cursor_rows (n : Z) (w : Window) :
  stateInv w -> noOverflow w ->
  w_cursor (cursorUp n w)
  = w_cursor w - Z.min (Z.max n 1) (w_cursor w / w_width w) * w_width w
  /\ (w_cursor (cursorUp n w)) mod (w_width w) = (w_cursor w) mod (w_width w)
  /\ (w_cursor w + Z.max n 1 * w_width w <= Z.max (w_length w) 1 - 1 ->
      w_cursor (cursorDown n w) = w_cursor w + Z.max n 1 * w_width w)
  /\ w_cursor w <= w_cursor (cursorDown n w) <= Z.max (w_length w - 1) 0
  /\ ((w_cursor (cursorDown n w)) mod (w_width w) = (w_cursor w) mod (w_width w)
      \/ w_cursor (cursorDown n w) = Z.max (w_length w - 1) 0).
Proof.
  intros Hinv Hno.
  pose proof (stateInv_preInv w Hinv Hno) as H.
  assert (Hs : contained w) by (destruct Hinv; assumption).
  destruct (cursorUp_inv n w H Hs) as (_ & _ & Eu & _).
  destruct (cursorDown_inv n w H Hs) as (Pd & _ & Ed & _).
  destruct Pd as [_ _ _ _ _ _ Hcd].
  replace (w_length (cursorDown n w)) with (w_length w) in Hcd
    by (symmetry; apply (applyOp_frame (OpCursorDown n) w)).
  destruct H as [Hd Hh HL _ Ho Ha Hc].
  set (d := w_width w) in *. set (c := w_cursor w) in *. set (L' := Z.max (w_length w) 1 - 1) in *.
  split; [exact Eu|]. split.
  { rewrite Eu. replace (c - Z.min (Z.max n 1) (c / d) * d)
      with (c + (- Z.min (Z.max n 1) (c / d)) * d) by lia.
    apply mod_shift. exact Hd. }
  destruct (rows_left d c L' Hd ltac:(unfold L'; lia)) as [Q5 Q6].
  pose proof (clamp_rows d n (L' / d - c / d) Hd Q5) as Q7.
  split.
  { intros Hfit. rewrite Ed.
    assert (Hq : c / d + Z.max n 1 <= L' / d).
    { rewrite <- (Z.div_add c (Z.max n 1) d) by lia.
      apply Z.div_le_mono; [exact Hd|lia]. }
    replace (Z.min (Z.max n 1) (L' / d - c / d)) with (Z.max n 1) by lia. lia. }
  split.
  { rewrite Ed. lia. }
  rewrite Ed.
  destruct (Z.min_spec (Z.min (Z.max n 1) (L' / d - c / d) * d) (L' - c)) as [[_ ->]|[_ ->]].
  - left. apply mod_shift. exact Hd.
  - right. unfold L'. lia.
Qed.

Lemma cursor_rows_witness :
  w_cursor (cursorDown 3 (mkWindow (bufferOf []) 10 8 0 0 100 [] ModeNormal)) = 24.
Proof.
  apply (proj1 (proj2 (proj2
           (cursor_rows 3 (mkWindow (bufferOf []) 10 8 0 0 100 [] ModeNormal)
              ltac:(constructor; simpl; try lia; reflexivity)
              ltac:(unfold noOverflow, Int64.max_int64; simpl; lia))))).
  simpl. lia.
Defined.

(** X10. [cursorLeft], [cursorRight] and [cursorHead] keep the cursor in
    its row and the offset where it is: [cursorLeft] moves the cursor back
    by min(max(count, 1), column), [cursorRight] forward, not beyond the end
    of the row nor the last byte, and [cursorHead] puts it on the first
    byte of the row, whatever its count. *)
Theorem cursor_stays_in_row (n : Z) (w : Window) :
  stateInv w -> noOverflow w ->
  (w_cursor (cursorLeft n w)
   = w_cursor w - Z.min (Z.max n 1) (w_cursor w mod w_width w)
   /\ w_cursor (cursorLeft n w) / w_width w = w_cursor w / w_width w
   /\ w_offset (cursorLeft n w) = w_offset w)
  /\ (w_cursor w <= w_cursor (cursorRight n w) <= Z.max (w_length w - 1) 0
      /\ w_cursor (cursorRight n w) / w_width w = w_cursor w / w_width w
      /\ w_offset (cursorRight n w) = w_offset w)
  /\ (w_cursor (cursorHead n w) = w_cursor w / w_width w * w_width w
      /\ w_offset (cursorHead n w) = w_offset w).
Proof.
  intros Hinv Hno.
  pose proof (stateInv_preInv w Hinv Hno) as H.
  assert (Hs : contained w) by (destruct Hinv; assumption).
  destruct (cursorLeft_inv n w H Hs) as (_ & _ & El & Eol & _).
  destruct (cursorRight_inv n w H Hs) as (_ & _ & Er & Eor & _).
  destruct (cursorHead_inv n w H Hs) as (_ & _ & Eh & Eoh & _).
  destruct H as [Hd Hh HL _ Ho Ha Hc].
  pose proof (Z.mod_pos_bound (w_cursor w) (w_width w) Hd) as Hm.
  pose proof (row_mod (w_width w) Hd (w_cursor w)) as Hr.
  split; [|split].
  - split; [exact El|]. split; [|exact Eol].
    rewrite El. apply row_unique; [exact Hd|]. lia.
  - split; [rewrite Er; lia|]. split; [|exact Eor].
    rewrite Er. apply row_unique; [exact Hd|]. lia.
  - split; [rewrite Eh; lia|exact Eoh].
Qed.

Lemma cursor_stays_in_row_witness :
  w_cursor (cursorHead 0 (sampleWindow 48 52 400)) = 48.
Proof.
  destruct (cursor_stays_in_row 0 (sampleWindow 48 52 400)) as (_ & _ & E & _).
  - constructor; simpl; try lia; reflexivity.
  - unfold noOverflow, Int64.max_int64. simpl. lia.
  - rewrite E. reflexivity.
Defined.

(** X11. [scrollUp] moves the offset up by min(max(count, 1), offset/width)
    rows and [scrollDown] moves it by min(max(count, 1), h - offset/width)
    rows, with h the rows of the data (one for empty data) less the height.
    Both keep the cursor displayed and leave it where it is whenever it is
    displayed after the move of the offset; [scrollUp] never moves it
    forward and [scrollDown] never back. *)
Theorem scroll_moves_cursor_only_if_hidden (n : Z) (w : Window) :
  stateInv w -> noOverflow w ->
  let h := (Z.max (w_length w) 1 + w_width w - 1) / w_width w - w_height w in
  (w_offset (scrollUp n w)
   = w_offset w - Z.min (Z.max n 1) (w_offset w / w_width w) * w_width w
   /\ contained (scrollUp n w)
   /\ w_cursor (scrollUp n w) <= w_cursor w
   /\ (w_cursor w < w_offset (scrollUp n w) + w_height w * w_width w ->
       w_cursor (scrollUp n w) = w_cursor w))
  /\ (w_offset (scrollDown n w)
      = w_offset w + Z.min (Z.max n 1) (h - w_offset w / w_width w) * w_width w
      /\ contained (scrollDown n w)
      /\ w_cursor w <= w_cursor (scrollDown n w) <= Z.max (w_length w - 1) 0
      /\ (w_offset (scrollDown n w) <= w_cursor w ->
          w_cursor (scrollDown n w) = w_cursor w)).
Proof.
  intros Hinv Hno h.
  pose proof (stateInv_preInv w Hinv Hno) as H.
  assert (Hs : contained w) by (destruct Hinv; assumption).
  destruct (scrollUp_inv n w H Hs) as (_ & U2 & U3 & U4 & U5 & _).
  destruct (scrollDown_inv n w H Hs) as (D1 & D2 & D3 & D4 & D5 & _).
  split.
  - split; [exact U3|]. split; [exact U2|]. split; [exact U4|exact U5].
  - split; [exact D2|]. split; [exact D1|]. split; [lia|exact D5].
Qed.

Lemma scroll_moves_cursor_only_if_hidden_witness :
  w_cursor (scrollDown 1 (sampleWindow 48 70 400)) = 70.
Proof.
  destruct (scroll_moves_cursor_only_if_hidden 1 (sampleWindow 48 70 400))
    as (_ & E & _ & _ & K).
  - constructor; simpl; try lia; reflexivity.
  - unfold noOverflow, Int64.max_int64. simpl. lia.
  - apply K. rewrite E. vm_compute. discriminate.
Defined.

(** X12. [pageDown], with two rows or more, [pageDownHalf], [pageEnd] and
    [pageTop] put the offset within the offset bounds from every state with
    the invariants of the data model, also from one whose offset is beyond
    the last page as [jumpTo] may leave it; [pageUp], with two rows or more,
    [pageUpHalf] and [scrollUp] never raise the offset. *)
Theorem paging_restores_offset_bounds (n : Z) (w : Window) :
  stateInv w -> noOverflow w ->
  (2 <= w_height w -> offsetBounded (pageDown w))
  /\ offsetBounded (pageDownHalf w)
  /\ offsetBounded (pageEnd w)
  /\ offsetBounded (pageTop w)
  /\ (2 <= w_height w -> 0 <= w_offset (pageUp w) <= w_offset w)
  /\ 0 <= w_offset (pageUpHalf w) <= w_offset w
  /\ 0 <= w_offset (scrollUp n w) <= w_offset w.
Proof.
  intros Hinv Hno.
  pose proof (stateInv_preInv w Hinv Hno) as H.
  assert (Hs : contained w) by (destruct Hinv; assumption).
  assert (G : 0 < w_width w /\ 0 < w_height w /\ 0 <= w_length w /\ 0 <= w_offset w).
  { destruct H; auto. }
  destruct G as (Hd & Hh & HL & Ho).
  refine (conj _ (conj _ (conj _ (conj _ (conj _ (conj _ _)))))).
  - intros H2. apply (pageDown_inv w H Hs H2).
  - apply (pageDownHalf_inv w H Hs).
  - apply (pageEnd_inv w Hd Hh HL Hno).
  - apply (pageTop_inv w Hd Hh HL Hno).
  - intros H2. destruct (pageUp_inv w H Hs H2) as (_ & _ & E & _).
    rewrite E. assert (0 <= (w_height w - 2) * w_width w) by (clear - H2 Hd; nia). lia.
  - destruct (pageUpHalf_inv w H Hs) as (_ & _ & E & _).
    rewrite E. pose proof (half_page _ Hh).
    assert (0 <= Z.max (w_height w / 2) 1 * w_width w) by (clear - H0 Hd; nia). lia.
  - destruct (scrollUp_inv n w H Hs) as (P & _ & E & _).
    destruct P as [_ _ _ _ Ho' _ _]. split; [exact Ho'|].
    rewrite E. pose proof (quot_self _ _ Hd Ho) as [Q _].
    pose proof (clamp_rows (w_width w) n _ Hd Q). lia.
Qed.

Lemma paging_restores_offset_bounds_witness :
  offsetBounded (pageDown (mkWindow (bufferOf []) 10 16 336 399 400 [] ModeNormal)).
Proof.
  destruct (paging_restores_offset_bounds 0
              (mkWindow (bufferOf []) 10 16 336 399 400 [] ModeNormal)) as (K & _).
  - constructor; simpl; try lia; reflexivity.
  - unfold noOverflow, Int64.max_int64. simpl. lia.
  - apply K. simpl. lia.
Defined.

Lemma digit_byte (b : byte) :
  isDigit b = true ->
  digitVal (ascii_of_byte b) = Some (Z.of_N (Strings.Byte.to_N b) - 48)
  /\ Ascii.eqb (ascii_of_byte b) "-" = false
  /\ Ascii.eqb (ascii_of_byte b) "+" = false.
Proof.
  intros H.
  assert (E : N_of_ascii (ascii_of_byte b) = Strings.Byte.to_N b).
  { rewrite ascii_of_byte_via_N. apply N_ascii_embedding.
    pose proof (Strings.Byte.to_N_bounded b). lia. }
  unfold isDigit in H. unfold digitVal. rewrite E, H.
  apply andb_true_iff in H. destruct H as [H1 H2]. apply Z.leb_le in H1, H2.
  split; [reflexivity|]. split.
  - destruct (Ascii.eqb_spec (ascii_of_byte b) "-") as [Eq|]; [|reflexivity].
    rewrite Eq in E. simpl in E. lia.
  - destruct (Ascii.eqb_spec (ascii_of_byte b) "+") as [Eq|]; [|reflexivity].
    rewrite Eq in E. simpl in E. lia.
Qed.

Lemma parseDigits_bytes (bs : list byte) (acc : Z) :
  Forall (fun b => isDigit b = true) bs ->
  parseDigits acc (string_of_list_ascii (map ascii_of_byte bs))
  = Some (fold_left (fun a b => a * 10 + (Z.of_N (Strings.Byte.to_N b) - 48)) bs acc).
Proof.
  intros H. revert acc. induction H as [|b bs Hb _ IH]; intros acc; [reflexivity|].
  destruct (digit_byte b Hb) as (Hv & _).
  cbn [map string_of_list_ascii parseDigits fold_left]. rewrite Hv. apply IH.
Qed.

Lemma ParseInt_bytes (bs : list byte) :
  bs <> [] -> Forall (fun b => isDigit b = true) bs ->
  fst (ParseInt (string_of_list_ascii (map ascii_of_byte bs)))
  = Z.min (bytesDecimal bs) Int64.max_int64.
Proof.
  intros Hne Hd. pose proof (parseDigits_bytes bs 0 Hd) as P. fold (bytesDecimal bs) in P.
  destruct bs as [|b bs]; [contradiction|]. inversion Hd as [|b' bs' Hb Hbs]; subst.
  destruct (digit_byte b Hb) as (_ & Em & Ep).
  revert P. cbn [map string_of_list_ascii]. intros P.
  unfold ParseInt. cbv zeta. rewrite Em, Ep. cbn [orb negb andb]. rewrite P.
  destruct (Z.ltb_spec Int64.max_int64 (bytesDecimal (b :: bs))); cbn [fst]; lia.
Qed.

(** X13. When [jumpTo] finds a digit run, the run is the longest run of
    digit bytes around the first byte, from the index 50 on, that is not
    white: the bytes from the index 50 to that byte are white, the run may
    begin before it and before the index 50, down to the index 0, it ends
    before the index 100 at a byte that is not a digit, and the value
    parsed is the decimal value of the run, 2^63 - 1 when that is
    greater. *)
Theorem jumpTo_digit_run (bytes : list byte) :
  runFound bytes = true ->
  (50 <= scanStop bytes < 100)%nat
  /\ (forall k, (50 <= k < scanStop bytes)%nat -> isWhite (at_ bytes k) = true)
  /\ (runStart bytes <= scanStop bytes < runEnd bytes)%nat
  /\ (runEnd bytes < 100)%nat
  /\ (forall k, (runStart bytes <= k < runEnd bytes)%nat -> isDigit (at_ bytes k) = true)
  /\ isDigit (at_ bytes (runEnd bytes)) = false
  /\ (forall r, runStart bytes = S r -> isDigit (at_ bytes r) = false)
  /\ (List.length bytes = 100%nat ->
      runValue bytes
      = Z.min (bytesDecimal (slice bytes (runStart bytes) (runEnd bytes)))
              Int64.max_int64).
Proof.
  intros Hf. unfold runFound in Hf.
  apply andb_true_iff in Hf. destruct Hf as [Hf1 Hf2].
  apply negb_true_iff in Hf1, Hf2. apply orb_false_iff in Hf1. destruct Hf1 as [Hf1 Hf3].
  apply negb_false_iff in Hf3. apply Nat.eqb_neq in Hf1, Hf2.
  destruct (scanStop_spec bytes) as (S1 & S2 & _).
  unfold runEnd, runStart in *.
  destruct (backDigits_spec bytes (scanStop bytes)) as (B1 & B2 & B3).
  set (s := scanStop bytes) in *. set (i := backDigits bytes s) in *.
  destruct (skipDigits_spec bytes 100 (100 - i) i) as (D1 & D2 & D3); [lia|lia|].
  set (j := skipDigits bytes 100 (100 - i) i) in *.
  assert (Hsj : (s < j)%nat).
  { destruct (Nat.lt_ge_cases s j) as [Hlt|Hge]; [exact Hlt|].
    assert (Hj : (j < 100)%nat) by lia. specialize (D3 Hj).
    destruct (Nat.eq_dec j s) as [E|Hne]; [rewrite E in D3; congruence|].
    rewrite B2 in D3 by lia. discriminate. }
  split; [lia|]. split; [exact S2|]. split; [lia|]. split; [lia|].
  split; [exact D2|]. split; [apply D3; lia|]. split; [exact B3|].
  intros Hlen. unfold runValue, runEnd, runStart, sliceString, slice. fold s i j.
  apply ParseInt_bytes.
  - intros E. apply (f_equal (@List.length byte)) in E.
    rewrite length_firstn, length_skipn in E. simpl in E. lia.
  - apply Forall_forall. intros b Hin.
    apply In_nth with (d := x00) in Hin. destruct Hin as (k & Hk & Ek).
    rewrite length_firstn, length_skipn in Hk.
    rewrite nth_firstn in Ek. destruct (Nat.ltb_spec k (j - i)); [|lia].
    rewrite nth_skipn in Ek. rewrite <- Ek. apply (D2 (i + k)%nat). lia.
Qed.

Lemma jumpTo_digit_run_witness :
  runValue (snd (match readBytes (sampleWindow 48 54 400) 4 100 with
                 | Some r => r | None => (O, []) end)) = 399.
Proof.
  destruct (jumpTo_digit_run
              (snd (match readBytes (sampleWindow 48 54 400) 4 100 with
                    | Some r => r | None => (O, []) end)))
    as (_ & _ & _ & _ & _ & _ & _ & E).
  - vm_compute. reflexivity.
  - rewrite E; vm_compute; reflexivity.
Defined.

(** X14. [readBytes] returns a slice of exactly [len] bytes: the bytes
    read, at most [len], then zero bytes; it returns an error exactly when
    the seek or the read fails.  Over a buffer that holds [data], from a
    position that is not negative, it reads the bytes of [data] from that
    position on and zero bytes beyond the end of [data]. *)
Theorem readBytes_slice (w : Window) (pos : Z) (len : nat) :
  (readBytes w pos len = None <->
   buf_seek (w_buffer w) pos = false \/ buf_read (w_buffer w) pos len = None)
  /\ (forall n bytes,
        readBytes w pos len = Some (n, bytes) ->
        List.length bytes = len /\ (n <= len)%nat
        /\ (forall k, (n <= k < len)%nat -> at_ bytes k = x00))
  /\ (forall data,
        w_buffer w = bufferOf data -> 0 <= pos ->
        exists bytes,
          readBytes w pos len
          = Some (Nat.min len (List.length data - Z.to_nat pos), bytes)
          /\ forall k, (k < len)%nat -> at_ bytes k = nth (Z.to_nat pos + k) data x00).
Proof.
  split; [|split].
  - unfold readBytes. destruct (buf_seek (w_buffer w) pos); cbn [negb].
    + destruct (buf_read (w_buffer w) pos len).
      * split; [discriminate|]. intros [C|C]; discriminate.
      * split; [intros _; right; reflexivity|reflexivity].
    + split; [intros _; left; reflexivity|reflexivity].
  - intros n bytes Hr. destruct (readBytes_length _ _ _ _ _ Hr) as [H1 H2].
    split; [exact H1|]. split; [exact H2|].
    unfold readBytes in Hr. destruct (negb (buf_seek (w_buffer w) pos)); [discriminate|].
    destruct (buf_read (w_buffer w) pos len) as [got|]; [|discriminate].
    inversion Hr; subst; clear Hr.
    intros k Hk. unfold at_. rewrite app_nth2 by lia. rewrite nth_skipn.
    apply nth_repeat_lt. lia.
  - intros data Hb Hpos.
    destruct (readBytes_bufferOf w data pos len Hb Hpos) as (n & bytes & Hr & Hat).
    exists bytes. split; [|exact Hat].
    rewrite Hr. f_equal. f_equal.
    unfold readBytes in Hr. rewrite Hb in Hr. cbn [bufferOf buf_seek buf_read negb] in Hr.
    destruct (Z.ltb_spec pos 0); [lia|].
    inversion Hr. rewrite firstn_firstn, Nat.min_id, length_firstn, length_skipn.
    reflexivity.
Qed.

Lemma readBytes_slice_witness :
  exists bytes,
    readBytes (sampleWindow 0 0 456) 450 100 = Some (6%nat, bytes)
    /\ forall k, (k < 100)%nat -> at_ bytes k = nth (450 + k) sampleData x00.
Proof.
  destruct (proj2 (proj2 (readBytes_slice (sampleWindow 0 0 456) 450 100)) sampleData)
    as (bytes & E & Hat).
  - reflexivity.
  - lia.
  - exists bytes. split; [exact E|exact Hat].
Defined.

Lemma rangeKeyEvents_duplicate (kes : list keyEvent) (new : keyEvent)
      (keys : list Key) (count : Z) :
  (exists b, In b kes /\ ke_keys b = ke_keys new) ->
  rangeKeyEvents (kes ++ [new]) keys count = rangeKeyEvents kes keys count.
Proof.
  intros (b & Hin & Hk).
  induction kes as [|ke kes IH]; [contradiction|].
  cbn [app rangeKeyEvents]. destruct (cmp ke keys) eqn:Hc; try reflexivity.
  destruct Hin as [->|Hin]; [|exact (IH Hin)].
  clear IH. assert (Hn : cmp new keys = keysNeq).
  { unfold cmp in *. rewrite <- Hk. exact Hc. }
  induction kes as [|ke kes IH]; cbn [app rangeKeyEvents].
  - rewrite Hn. reflexivity.
  - destruct (cmp ke keys); try reflexivity. exact IH.
Qed.

(** X15. A binding registered for a key sequence that an earlier binding
    has already is never reached: after such a [Register] every key
    resolves as before it, with the same event, the same count and the same
    pending sequence. *)
Theorem Register_duplicate_shadowed (km : KeyManager) (event : EventType)
        (keys : list Key) (k : Key) :
  (exists b, In b (km_keyEvents km) /\ ke_keys b = keys) ->
  Press (Register km event keys) k
  = (Register (fst (Press km k)) event keys, snd (Press km k)).
Proof.
  intros Hdup. unfold Press.
  change (km_keys (Register km event keys)) with (km_keys km).
  set (buf := km_keys km ++ [k]).
  change (setKeys (Register km event keys) buf) with (Register (setKeys km buf) event keys).
  set (km1 := setKeys km buf).
  change (km_keys (Register km1 event keys)) with (km_keys km1).
  generalize (List.length (km_keys km1)) as fuel. generalize O as s.
  intros s fuel. revert s. induction fuel as [|fuel IH]; intros s.
  - reflexivity.
  - rewrite !pressLoop_step.
    change (km_keyEvents (Register km1 event keys))
      with (km_keyEvents km1 ++ [mkKeyEvent keys event]).
    change (windowRest (Register km1 event keys) (km_keys (Register km1 event keys)) s)
      with (windowRest km1 (km_keys km1) s).
    change (windowCount (Register km1 event keys) (km_keys (Register km1 event keys)) s)
      with (windowCount km1 (km_keys km1) s).
    rewrite rangeKeyEvents_duplicate by exact Hdup.
    destruct (rangeKeyEvents _ _ _) as [[[|] ev]|]; try reflexivity. apply IH.
Qed.

Lemma Register_duplicate_shadowed_witness :
  Press (Register normalKM EventQuit ["x"%string]) "x"%string
  = (Register normalKM EventQuit ["x"%string], mkEvent EventDeleteByte 0).
Proof.
  rewrite (Register_duplicate_shadowed normalKM EventQuit ["x"%string] "x"%string).
  - vm_compute. reflexivity.
  - exists (mkKeyEvent ["x"%string] EventDeleteByte). split; [|reflexivity].
    vm_compute. do 28 right. left. reflexivity.
Defined.

(** X16. No binding of the default registry is dead: in each of the four
    modes, the keys of every registered binding, typed with nothing
    pending, resolve to the event of that binding with the count 0 at the
    last key, with no event before it, and leave nothing pending. *)
Theorem default_bindings_fire (m : Mode) (km : KeyManager) :
  managerOf defaultHeap defaultModes m = Some km ->
  km_keys km = []
  /\ Forall (fun b =>
       pressAll km (ke_keys b)
       = (km, map (fun _ => mkEvent EventNop 0) (removelast (ke_keys b))
              ++ [mkEvent (ke_event b) 0]))
     (km_keyEvents km).
Proof.
  intros H.
  destruct m; vm_compute in H; inversion H; subst km; clear H;
    (split; [reflexivity|]);
    cbn [km_keyEvents];
    repeat (apply Forall_cons; [vm_compute; reflexivity|]); apply Forall_nil.
Qed.

Lemma default_bindings_fire_witness :
  Forall (fun b =>
       pressAll normalKM (ke_keys b)
       = (normalKM, map (fun _ => mkEvent EventNop 0) (removelast (ke_keys b))
                    ++ [mkEvent (ke_event b) 0]))
     (km_keyEvents normalKM).
Proof.
  apply (default_bindings_fire ModeNormal normalKM). reflexivity.
Defined.
